(** * CloudWatch metric sets: structural keys, deduplication, rendering

    A shallow embedding of [packages/@aws-cdk/aws-cloudwatch/lib/metric-util.ts]:
    [metricKey], [MetricSet] ([addOne], [addTopLevel], [entries]),
    [validateNoIdConflicts], [dispatchMetric], [dropUndefined],
    [metricGraphJson] and [allMetricsGraphJson].

    Conventions of the embedding:
    - JavaScript strings are [string]; a string is truthy iff it is not empty.
    - A JavaScript object read as a map ([options], [renderingProperties]) is
      a [gmap string JsValue]; [usingMetrics], whose enumeration order is
      observable ([Object.entries]), is an association list in that order.
    - [throw new Error(msg)] is the [Throw msg] result; the state reached
      before the throw is not observable by the callers in this file.
    - The entries of a [MetricSet] are objects shared between the [metrics]
      array and the two [Map]s; an entry reference is the position of the
      entry in [metrics] (entries are only ever pushed).
    - [MetricSet<A>] is taken at [A = string], its one use in the source
      ([allMetricsGraphJson]); a tag is supplied when it is truthy. *)

From Stdlib Require Import Strings.String Strings.Ascii.
From stdpp Require Import gmap strings list fin_maps sorting pretty.

Local Set Warnings "-register-all".

(** ** Results of fallible code *)

Inductive Result (T : Type) : Type :=
| Ok (x : T)
| Throw (msg : string).
Arguments Ok {T} x.
Arguments Throw {T} msg.

Global Instance Result_bind : MBind Result := λ T U k r,
  match r with
  | Ok x => k x
  | Throw msg => Throw msg
  end.
Global Instance Result_ret : MRet Result := λ T x, Ok x.

(** A [for ... of] loop whose body may throw. *)
Fixpoint forM {T S : Type} (body : T → S → Result S) (l : list T) (s : S) : Result S :=
  match l with
  | [] => Ok s
  | x :: l' => s' ← body x s; forM body l' s'
  end.

(** ** JavaScript values and truthiness *)

Inductive JsValue : Type :=
| VUndefined
| VNull
| VBool (b : bool)
| VNum (n : Z)
| VStr (s : string).

Global Instance JsValue_eq_dec : EqDecision JsValue.
Proof. solve_decision. Defined.

Definition truthy (s : string) : bool :=
  match s with EmptyString => false | String _ _ => true end.

(** [if (x)] for an optional string [x?: string]. *)
Definition truthyO (o : option string) : bool :=
  match o with Some s => truthy s | None => false end.

Definition truthyV (v : JsValue) : bool :=
  match v with
  | VUndefined | VNull => false
  | VBool b => b
  | VNum n => negb (n =? 0)%Z
  | VStr s => truthy s
  end.

(** ** Metric configurations (metric-types.ts)

    Modelled from the spec: the declarations [Dimension], [MetricStatConfig],
    [MetricExpressionConfig], [MetricConfig] and [IMetric] are imported by
    metric-util.ts from './metric-types'; the fields are those the code reads.
    [Duration] (from '@aws-cdk/core') is a whole number of seconds. *)

Record Duration : Type := { toSeconds : N }.

Record Dimension : Type := { name : string; value : string }.

Record MetricStatConfig : Type := {
  namespace : string;
  metricName : string;
  dimensions : option (list Dimension);
  statistic : option string;
  period : option Duration;
  region : option string;
  account : option string;
}.

Record MetricExpressionConfig (M : Type) : Type := {
  expression : string;
  usingMetrics : list (string * M);
}.
Arguments expression {M} _.
Arguments usingMetrics {M} _.

(** An [IMetric] object: what [toMetricConfig()] returns, and [toString()]. *)
Inductive IMetric : Type :=
  Metric {
    metricStat : option MetricStatConfig;
    mathExpression : option (MetricExpressionConfig IMetric);
    renderingProperties : gmap string JsValue;
    toString : string;
  }.

Global Instance Duration_eq_dec : EqDecision Duration.
Proof. solve_decision. Defined.
Global Instance Dimension_eq_dec : EqDecision Dimension.
Proof. solve_decision. Defined.
Global Instance MetricStatConfig_eq_dec : EqDecision MetricStatConfig.
Proof. solve_decision. Defined.

(** ** [metricKey] *)

(** [parts.join('|')] *)
Fixpoint join (sep : string) (parts : list string) : string :=
  match parts with
  | [] => EmptyString
  | [p] => p
  | p :: rest => p +:+ sep +:+ join sep rest
  end.

(** [Array.prototype.sort()] without comparator, on distinct keys: ascending
    in the order of the code units. *)
Definition str_le (s1 s2 : string) : Prop := Stdlib.Strings.String.leb s1 s2 = true.
Global Instance str_le_dec : RelDecision str_le.
Proof. intros s1 s2. unfold str_le. apply _. Defined.

Definition sort (l : list string) : list string := merge_sort str_le l.

(** [Object.keys(o)] and [o[id]] on an object given by its entries. *)
Definition keys {T : Type} (o : list (string * T)) : list string := o.*1.

Fixpoint get {T : Type} (o : list (string * T)) (id : string) : option T :=
  match o with
  | [] => None
  | (k, v) :: o' => if decide (k = id) then Some v else get o' id
  end.

(** [if (x) { parts.push(x); }] *)
Definition optPart (o : option string) : list string :=
  match o with
  | Some s => if truthy s then [s] else []
  | None => []
  end.

Definition statParts (st : MetricStatConfig) : list string :=
  [namespace st; metricName st]
  ++ flat_map (λ dim, [name dim; value dim]) (default [] (dimensions st))
  ++ optPart (statistic st)
  ++ match period st with Some p => [pretty (toSeconds p)] | None => [] end
  ++ optPart (region st)
  ++ optPart (account st).

(** The parts of an expression, given the key of every operand: the
    identifiers come from [Object.keys], so [get] always finds the operand. *)
Definition exprParts (expr : string) (subKeys : list (string * string)) : list string :=
  expr :: flat_map (λ id, [id; default "undefined" (get subKeys id)]) (sort (keys subKeys)).

(** [metricKey] as it computes the key; the cache it keeps on the metric
    object is modelled by [metricKey_cached] below. *)
Fixpoint metricKey (metric : IMetric) : string :=
  let parts :=
    match mathExpression metric with
    | Some e =>
        exprParts (expression e)
          (map (λ p, (p.1, metricKey p.2)) (usingMetrics e))
    | None => []
    end
    ++ match metricStat metric with
       | Some st => statParts st
       | None => []
       end in
  join "|" parts.
Arguments join : simpl never.

(** ** [dispatchMetric]

    The handlers of the source close over the variables they mutate; here a
    handler returns the new values of those variables, or throws. *)

Definition err_both : string :=
  "Metric object must not produce both 'metricStat' and 'mathExpression'".
Definition err_neither : string :=
  "Metric object must have either 'metricStat' or 'mathExpression'".

Definition dispatchMetric {R : Type} (metric : IMetric)
    (withStat : MetricStatConfig → Result R)
    (withExpression : MetricExpressionConfig IMetric → Result R) : Result R :=
  match metricStat metric, mathExpression metric with
  | Some _, Some _ => Throw err_both
  | Some stat, None => withStat stat
  | None, Some expr => withExpression expr
  | None, None => Throw err_neither
  end.

(** ** [MetricSet]

    The fields [metric], [tag] and [id] of a [MetricEntry] are [e_metric],
    [e_tag] and [e_id]. *)

Record MetricEntry : Type := {
  e_metric : IMetric;
  e_tag : option string;
  e_id : option string;
}.

Record MetricSet : Type := {
  metrics : list MetricEntry;
  metricById : gmap string nat;
  metricByKey : gmap string nat;
}.

(** [new MetricSet()] *)
Definition newMetricSet : MetricSet :=
  {| metrics := []; metricById := ∅; metricByKey := ∅ |}.

(** [entries] *)
Definition entries (s : MetricSet) : list MetricEntry := metrics s.

(** The entry a [Map.get] result refers to, with its reference. *)
Definition deref (s : MetricSet) (r : option nat) : option (nat * MetricEntry) :=
  j ← r; e ← metrics s !! j; Some (j, e).

Definition err_cant_happen : string := "Can't happen, already checked elsewhere".

(** [if (id) { existingEntry = this.metricById.get(id); ... throw ... }] *)
Definition lookupById (key : string) (id : option string) (s : MetricSet)
    : Result (option nat) :=
  match id with
  | Some i =>
      if truthy i then
        match deref s (metricById s !! i) with
        | Some (j, e) =>
            if decide (metricKey (e_metric e) ≠ key)
            then Throw err_cant_happen
            else Ok (Some j)
        | None => Ok None
        end
      else Ok None
  | None => Ok None
  end.

(** [if (!existingEntry) { existingEntry = this.metricByKey.get(key); ... }] *)
Definition lookupByKey (key : string) (id : option string) (s : MetricSet)
    (existingEntry : option nat) : option nat :=
  match existingEntry with
  | Some j => Some j
  | None =>
      match deref s (metricByKey s !! key) with
      | Some (j, e) => if truthyO (e_id e) && truthyO id then None else Some j
      | None => None
      end
  end.

(** [entry = { metric }; this.metrics.push(entry); this.metricByKey.set(key, entry);] *)
Definition pushEntry (metric : IMetric) (key : string) (s : MetricSet) : MetricSet :=
  {| metrics := metrics s ++ [{| e_metric := metric; e_tag := None; e_id := None |}];
     metricById := metricById s;
     metricByKey := <[key := length (metrics s)]> (metricByKey s) |}.

(** [entry = existingEntry], or a new entry when there is none. *)
Definition obtainEntry (metric : IMetric) (key : string) (s : MetricSet)
    (existingEntry : option nat) : nat * MetricSet :=
  match existingEntry with
  | Some j => (j, s)
  | None => (length (metrics s), pushEntry metric key s)
  end.

(** [if (!entry.id && id) { entry.id = id; this.metricById.set(id, entry); }] *)
Definition assignId (j : nat) (id : option string) (s : MetricSet) : MetricSet :=
  match metrics s !! j, id with
  | Some e, Some i =>
      if negb (truthyO (e_id e)) && truthy i then
        {| metrics := <[j := {| e_metric := e_metric e; e_tag := e_tag e; e_id := Some i |}]> (metrics s);
           metricById := <[i := j]> (metricById s);
           metricByKey := metricByKey s |}
      else s
  | _, _ => s
  end.

(** [if (!entry.tag && tag) { entry.tag = tag; }] *)
Definition assignTag (j : nat) (tag : option string) (s : MetricSet) : MetricSet :=
  match metrics s !! j, tag with
  | Some e, Some t =>
      if negb (truthyO (e_tag e)) && truthy t then
        {| metrics := <[j := {| e_metric := e_metric e; e_tag := Some t; e_id := e_id e |}]> (metrics s);
           metricById := metricById s;
           metricByKey := metricByKey s |}
      else s
  | _, _ => s
  end.

(** The body of [addOne] up to the recursion into the children. *)
Definition register (metric : IMetric) (tag id : option string) (s : MetricSet)
    : Result MetricSet :=
  let key := metricKey metric in
  existingEntry ← lookupById key id s;
  let existingEntry := lookupByKey key id s existingEntry in
  let '(entry, s) := obtainEntry metric key s existingEntry in
  let s := assignId entry id s in
  let s := assignTag entry tag s in
  Ok s.

Arguments register : simpl never.

Fixpoint addOne (metric : IMetric) (tag id : option string) (s : MetricSet)
    {struct metric} : Result MetricSet :=
  s ← register metric tag id s;
  match mathExpression metric with
  | Some expr =>
      forM (λ p s, addOne p.2 None (Some p.1) s) (usingMetrics expr) s
  | None => Ok s
  end.

Definition addTopLevel (tag : string) (ms : list IMetric) (s : MetricSet)
    : Result MetricSet :=
  forM (λ metric s, addOne metric (Some tag) None s) ms s.

(** ** [validateNoIdConflicts] *)

Definition err_conflict (id : string) (subMetric existing : IMetric) : string :=
  "The ID '" +:+ id +:+ "' used for two metrics in the expression: '"
  +:+ toString subMetric +:+ "' and '" +:+ toString existing +:+ "'. Rename one.".

Fixpoint visit (metric : IMetric) (seen : gmap string IMetric)
    {struct metric} : Result (gmap string IMetric) :=
  dispatchMetric metric
    (λ _, Ok seen)
    (λ expr,
       forM (λ p seen,
               match seen !! p.1 with
               | Some existing =>
                   if decide (metricKey existing ≠ metricKey p.2)
                   then Throw (err_conflict p.1 p.2 existing)
                   else visit p.2 (<[p.1 := p.2]> seen)
               | None => visit p.2 (<[p.1 := p.2]> seen)
               end)
            (usingMetrics expr) seen).

Definition validateNoIdConflicts (expression : IMetric) : Result unit :=
  _ ← visit expression ∅; Ok ().

(** ** Rendering: [dropUndefined], [metricGraphJson], [allMetricsGraphJson] *)

Inductive Token : Type :=
| TStr (s : string)
| TOpts (o : gmap string JsValue).

Definition dropUndefined (x : gmap string JsValue) : gmap string JsValue :=
  filter (λ kv, kv.2 ≠ VUndefined) x.

(** [if (c) { o[k] = v; }] *)
Definition setIf (c : bool) (k : string) (v : JsValue)
    (o : gmap string JsValue) : gmap string JsValue :=
  if c then <[k := v]> o else o.

Arguments setIf : simpl never.

Definition optV (o : option string) : JsValue :=
  match o with Some s => VStr s | None => VUndefined end.

Definition truthyKey (o : gmap string JsValue) (k : string) : bool :=
  match o !! k with Some v => truthyV v | None => false end.

(** [ret.push(stat.namespace, stat.metricName)] and the dimensions. *)
Definition statTokens (stat : MetricStatConfig) : list Token :=
  [TStr (namespace stat); TStr (metricName stat)]
  ++ flat_map (λ dim, [TStr (name dim); TStr (value dim)])
       (default [] (dimensions stat)).

Definition withStat_render (options : gmap string JsValue) (stat : MetricStatConfig)
    : list Token * gmap string JsValue :=
  let ret := statTokens stat in
  let options := setIf (truthyO (account stat)) "accountId" (optV (account stat)) options in
  let options := setIf (truthyO (region stat)) "region" (optV (region stat)) options in
  let options :=
    match period stat with
    | Some p =>
        setIf (negb (toSeconds p =? 300)%N) "period" (VNum (Z.of_N (toSeconds p))) options
    | None => options
    end in
  let options :=
    match statistic stat with
    | Some st =>
        setIf (truthy st && negb (bool_decide (st = "Average"))) "stat" (VStr st) options
    | None => options
    end in
  (ret, options).

Definition metricGraphJson (metric : IMetric) (yAxis id : option string)
    : Result (list Token) :=
  let options := renderingProperties metric in
  '(ret, options) ← dispatchMetric metric
      (λ stat, Ok (withStat_render options stat))
      (λ expr, Ok ([], <["expression" := VStr (expression expr)]> options));
  let options := setIf (negb (truthyO yAxis)) "visible" (VBool false) options in
  let options := setIf (negb (bool_decide (yAxis = Some "left"))) "yAxis" (optV yAxis) options in
  let options := setIf (truthyO id) "id" (optV id) options in
  let options :=
    setIf (negb (bool_decide (options !! "visible" = Some (VBool false)))
           && truthyKey options "expression"
           && negb (truthyKey options "label"))
      "label" (VStr (toString metric)) options in
  let renderedOpts := dropUndefined options in
  Ok (if decide (renderedOpts = ∅) then ret else ret ++ [TOpts renderedOpts]).

Fixpoint mapM {T U : Type} (f : T → Result U) (l : list T) : Result (list U) :=
  match l with
  | [] => Ok []
  | x :: l' => y ← f x; ys ← mapM f l'; Ok (y :: ys)
  end.

Definition allMetricsGraphJson (left right : list IMetric) : Result (list (list Token)) :=
  mset ← addTopLevel "left" left newMetricSet;
  mset ← addTopLevel "right" right mset;
  mapM (λ entry, metricGraphJson (e_metric entry) (e_tag entry) (e_id entry)) (entries mset).

(** ** Structural content *)

(** The structural content of a metric: its configuration without the
    rendering properties and without what [toString()] prints. *)
Fixpoint content (m : IMetric) : IMetric :=
  {| metricStat := metricStat m;
     mathExpression :=
       match mathExpression m with
       | Some e =>
           Some {| expression := expression e;
                   usingMetrics := map (λ p, (p.1, content p.2)) (usingMetrics e) |}
       | None => None
       end;
     renderingProperties := ∅;
     toString := EmptyString |}.

Definition subKeys (um : list (string * IMetric)) : list (string * string) :=
  map (λ p, (p.1, metricKey p.2)) um.

Definition keyParts (m : IMetric) : list string :=
  match mathExpression m with
  | Some e => exprParts (expression e) (subKeys (usingMetrics e))
  | None => []
  end
  ++ match metricStat m with
     | Some st => statParts st
     | None => []
     end.

(** ** The key cache

    [metricKey] stores the key it computes on the metric object, under the
    module-private symbol [METRICKEY_SYMBOL], and returns the stored key when
    there is one.  [Obj] is a metric object with that slot; [metricKey_cached]
    is the function with the slot read and written, returning the key and the
    object after the call.  Nothing else writes the slot, so it only ever
    holds the key [metricKey] computes ([coherent]); on such objects the
    cached function and [metricKey] agree, which is why [MetricSet] and
    [validateNoIdConflicts] are stated over [metricKey]. *)

Inductive Obj : Type :=
  MkObj {
    slot : option string;
    o_metricStat : option MetricStatConfig;
    o_mathExpression : option (MetricExpressionConfig Obj);
    o_renderingProperties : gmap string JsValue;
    o_toString : string;
  }.

(** The metric an object denotes. *)
Fixpoint forget (o : Obj) : IMetric :=
  {| metricStat := o_metricStat o;
     mathExpression :=
       match o_mathExpression o with
       | Some e =>
           Some {| expression := expression e;
                   usingMetrics := map (λ p, (p.1, forget p.2)) (usingMetrics e) |}
       | None => None
       end;
     renderingProperties := o_renderingProperties o;
     toString := o_toString o |}.

Fixpoint metricKey_cached (o : Obj) : string * Obj :=
  match slot o with
  | Some k => (k, o)
  | None =>
      let subs :=
        match o_mathExpression o with
        | Some e => map (λ p, (p.1, metricKey_cached p.2)) (usingMetrics e)
        | None => []
        end in
      let parts :=
        match o_mathExpression o with
        | Some e => exprParts (expression e) (map (λ p, (p.1, p.2.1)) subs)
        | None => []
        end
        ++ match o_metricStat o with
           | Some st => statParts st
           | None => []
           end in
      let ret := join "|" parts in
      (ret,
       {| slot := Some ret;
          o_metricStat := o_metricStat o;
          o_mathExpression :=
            match o_mathExpression o with
            | Some e =>
                Some {| expression := expression e;
                        usingMetrics := map (λ p, (p.1, p.2.2)) subs |}
            | None => None
            end;
          o_renderingProperties := o_renderingProperties o;
          o_toString := o_toString o |})
  end.

(** Every filled slot, at any depth, holds the key of its object. *)
Fixpoint coherent (o : Obj) : Prop :=
  match slot o with
  | Some k => k = metricKey (forget o)
  | None => True
  end
  ∧ match o_mathExpression o with
    | Some e => fold_right (λ p acc, coherent p.2 ∧ acc) True (usingMetrics e)
    | None => True
    end.

(** A freshly constructed object: no slot filled. *)
Fixpoint fresh (m : IMetric) : Obj :=
  {| slot := None;
     o_metricStat := metricStat m;
     o_mathExpression :=
       match mathExpression m with
       | Some e =>
           Some {| expression := expression e;
                   usingMetrics := map (λ p, (p.1, fresh p.2)) (usingMetrics e) |}
       | None => None
       end;
     o_renderingProperties := renderingProperties m;
     o_toString := toString m |}.

(** ** Expression trees: bindings and well-formedness *)

(** The [(identifier, sub-metric)] pairs of an expression tree, at any depth,
    in the order [Object.entries] and the recursion enumerate them. *)
Fixpoint bindings (m : IMetric) : list (string * IMetric) :=
  match mathExpression m with
  | Some e => flat_map (λ p, p :: bindings p.2) (usingMetrics e)
  | None => []
  end.

(** Every metric of the tree produces exactly one of [metricStat] and
    [mathExpression]: the contract [dispatchMetric] checks. *)
Fixpoint wf (m : IMetric) : bool :=
  match metricStat m, mathExpression m with
  | Some _, None => true
  | None, Some e => forallb (λ p, wf p.2) (usingMetrics e)
  | _, _ => false
  end.

(** Some identifier is bound, somewhere in the tree, to two metrics with
    different structural keys. *)
Definition conflict (m : IMetric) : Prop :=
  ∃ id a b, (id, a) ∈ bindings m ∧ (id, b) ∈ bindings m ∧ metricKey a ≠ metricKey b.

(** The body of the loop of [visit] without the recursive call. *)
Definition check (p : string * IMetric) (seen : gmap string IMetric)
    : Result (gmap string IMetric) :=
  match seen !! p.1 with
  | Some existing =>
      if decide (metricKey existing ≠ metricKey p.2)
      then Throw (err_conflict p.1 p.2 existing)
      else Ok (<[p.1 := p.2]> seen)
  | None => Ok (<[p.1 := p.2]> seen)
  end.

(** ** [addOne] as a sequence of registrations *)

Record Call : Type := {
  c_metric : IMetric;
  c_tag : option string;
  c_id : option string;
}.

(** The registrations [addOne metric tag id] performs, in order. *)
Fixpoint calls (metric : IMetric) (tag id : option string) : list Call :=
  {| c_metric := metric; c_tag := tag; c_id := id |}
  :: match mathExpression metric with
     | Some e => flat_map (λ p, calls p.2 None (Some p.1)) (usingMetrics e)
     | None => []
     end.

Definition registerCall (c : Call) (s : MetricSet) : Result MetricSet :=
  register (c_metric c) (c_tag c) (c_id c) s.

Definition topCalls (tag : string) (ms : list IMetric) : list Call :=
  flat_map (λ m, calls m (Some tag) None) ms.

(** A sequence of [addTopLevel] calls on one set. *)
Definition addTopLevels (cs : list (string * list IMetric)) (s : MetricSet)
    : Result MetricSet :=
  forM (λ c s, addTopLevel c.1 c.2 s) cs s.

(** ** Invariants of a [MetricSet] *)

(** How [register] picks the entry it works on. *)
Inductive selects (metric : IMetric) (id : option string) (s : MetricSet)
    : nat → MetricSet → Prop :=
| sel_by_id i j e :
    id = Some i → truthy i = true →
    metricById s !! i = Some j → metrics s !! j = Some e →
    metricKey (e_metric e) = metricKey metric →
    selects metric id s j s
| sel_by_key j e :
    (∀ i, id = Some i → truthy i = true → deref s (metricById s !! i) = None) →
    metricByKey s !! metricKey metric = Some j → metrics s !! j = Some e →
    truthyO (e_id e) && truthyO id = false →
    selects metric id s j s
| sel_fresh :
    (∀ i, id = Some i → truthy i = true → deref s (metricById s !! i) = None) →
    (∀ j e, metricByKey s !! metricKey metric = Some j → metrics s !! j = Some e →
            truthyO (e_id e) && truthyO id = true) →
    selects metric id s (length (metrics s)) (pushEntry metric (metricKey metric) s).

(** The two indices refer to entries of [metrics]; an identifier is indexed
    iff an entry carries it; an entry is indexed under the key of its metric. *)
Record inv (s : MetricSet) : Prop := {
  inv_byId : ∀ i j, metricById s !! i = Some j →
             ∃ e, metrics s !! j = Some e ∧ e_id e = Some i;
  inv_id : ∀ j e i, metrics s !! j = Some e → e_id e = Some i →
           metricById s !! i = Some j ∧ truthy i = true;
  inv_byKey : ∀ k j, metricByKey s !! k = Some j →
              ∃ e, metrics s !! j = Some e ∧ metricKey (e_metric e) = k;
}.

(** An entry only gains what it lacks. *)
Definition entry_le (e e' : MetricEntry) : Prop :=
  e_metric e' = e_metric e
  ∧ (truthyO (e_tag e) = true → e_tag e' = e_tag e)
  ∧ (truthyO (e_id e) = true → e_id e' = e_id e).

(** Entries are never removed, moved or overwritten. *)
Definition grows (s s' : MetricSet) : Prop :=
  ∀ j e, metrics s !! j = Some e → ∃ e', metrics s' !! j = Some e' ∧ entry_le e e'.

(** What [assignId] and [assignTag] do to the entry they work on. *)
Definition idEntry (id : option string) (e : MetricEntry) : MetricEntry :=
  match id with
  | Some i =>
      if negb (truthyO (e_id e)) && truthy i
      then {| e_metric := e_metric e; e_tag := e_tag e; e_id := Some i |}
      else e
  | None => e
  end.

Definition tagEntry (tag : option string) (e : MetricEntry) : MetricEntry :=
  match tag with
  | Some t =>
      if negb (truthyO (e_tag e)) && truthy t
      then {| e_metric := e_metric e; e_tag := Some t; e_id := e_id e |}
      else e
  | None => e
  end.
Arguments idEntry : simpl never.
Arguments tagEntry : simpl never.

(** The entries for the key [K]: at most one, indexed under [K], carrying no
    identifier or [i], and no tag or [t]. *)
Definition single (K i t : string) (s : MetricSet) : Prop :=
  ∀ j e, metrics s !! j = Some e → metricKey (e_metric e) = K →
         metricByKey s !! K = Some j
         ∧ (e_id e = None ∨ e_id e = Some i)
         ∧ (e_tag e = None ∨ e_tag e = Some t).

(** A registration that, if it is for the key [K], supplies no identifier or
    [i], and no tag or [t]. *)
Definition tame (K i t : string) (c : Call) : Prop :=
  metricKey (c_metric c) = K →
  (c_id c = None ∨ c_id c = Some i) ∧ (c_tag c = None ∨ c_tag c = Some t).

(** Every entry is indexed under its key, and an entry that is indexed under
    its key and carries no identifier is the only one for that key. *)
Record inv_key (s : MetricSet) : Prop := {
  key_indexed : ∀ j e, metrics s !! j = Some e →
                is_Some (metricByKey s !! metricKey (e_metric e));
  key_alone : ∀ j e, metricByKey s !! metricKey (e_metric e) = Some j →
              metrics s !! j = Some e → e_id e = None →
              ∀ j' e', metrics s !! j' = Some e' →
                       metricKey (e_metric e') = metricKey (e_metric e) → j' = j;
}.

(** Registrations that use every identifier for one structural key only. *)
Definition consistent (l : list Call) : Prop :=
  ∀ c c' i, c ∈ l → c' ∈ l → c_id c = Some i → c_id c' = Some i →
            metricKey (c_metric c) = metricKey (c_metric c').

(** Every indexed identifier was supplied by a registration of [l], for the
    key of the entry that carries it. *)
Definition ids_from (l : list Call) (s : MetricSet) : Prop :=
  ∀ i j e, metricById s !! i = Some j → metrics s !! j = Some e →
           ∃ c, c ∈ l ∧ c_id c = Some i
                ∧ metricKey (c_metric c) = metricKey (e_metric e).

(** ** Statements about the resulting entries *)

(** Exactly one entry has the key [K]; it carries the identifier [i] and the
    tag [t]. *)
Definition one_for_key (K i t : string) (s : MetricSet) : Prop :=
  ∃ j e, entries s !! j = Some e
         ∧ metricKey (e_metric e) = K
         ∧ e_id e = Some i
         ∧ e_tag e = Some t
         ∧ ∀ j' e', entries s !! j' = Some e' → metricKey (e_metric e') = K → j' = j.

(** The options object a token row ends with, if any. *)
Definition row_options (row : list Token) : gmap string JsValue :=
  match last row with
  | Some (TOpts o) => o
  | _ => ∅
  end.

(** ** Sample metrics *)

Definition statRef (ns mn : string) (dims : list Dimension) : IMetric :=
  {| metricStat :=
       Some {| namespace := ns; metricName := mn; dimensions := Some dims;
               statistic := Some "Average"; period := Some {| toSeconds := 300 |};
               region := None; account := None |};
     mathExpression := None;
     renderingProperties := ∅;
     toString := ns +:+ "/" +:+ mn |}.

Definition mathExpr (expr : string) (um : list (string * IMetric)) : IMetric :=
  {| metricStat := None;
     mathExpression := Some {| expression := expr; usingMetrics := um |};
     renderingProperties := ∅;
     toString := expr |}.

Definition cpu : IMetric :=
  statRef "AWS/EC2" "CPUUtilization" [{| name := "InstanceId"; value := "i-1" |}].

Definition net : IMetric :=
  statRef "AWS/EC2" "NetworkIn" [{| name := "InstanceId"; value := "i-1" |}].

(** [cpu] with a label: same structural content, other rendering. *)
Definition cpuLabelled : IMetric :=
  {| metricStat := metricStat cpu;
     mathExpression := None;
     renderingProperties := {[ "label" := VStr "CPU" ]};
     toString := "CPU" |}.

(** An expression that refers to [cpu] under two identifiers. *)
Definition cpuTwice : IMetric :=
  mathExpr "m1 + m2" [("m1", cpu); ("m2", cpu)].

(** An expression that binds "m1" to [cpu] and, one level down, to [net]. *)
Definition cpuOverNet : IMetric :=
  mathExpr "m1 + x" [("m1", cpu); ("x", mathExpr "m1 * 2" [("m1", net)])].

(** An expression that refers to a relabelled [cpu] under ["m1"]. *)
Definition cpuDouble : IMetric :=
  mathExpr "m1 * 2" [("m1", cpuLabelled)].

(** Two expressions that use the identifier "x" for different metrics. *)
Definition cpuTimes2 : IMetric := mathExpr "x * 2" [("x", cpu)].
Definition netPlus1 : IMetric := mathExpr "x + 1" [("x", net)].

(** An expression whose sub-expression rebinds "x" to another metric. *)
Definition nested : IMetric :=
  mathExpr "x + y" [("x", cpu); ("y", netPlus1)].

(** Two stat refs that differ in their dimensions only. *)
Definition oneDim : IMetric :=
  statRef "NS" "M" [{| name := "d"; value := "x|y|z" |}].
Definition twoDims : IMetric :=
  statRef "NS" "M" [{| name := "d"; value := "x" |}; {| name := "y"; value := "z" |}].

(** The same operands, inserted in the other order. *)
Definition sumAB : IMetric := mathExpr "a + b" [("a", cpu); ("b", net)].
Definition sumBA : IMetric := mathExpr "a + b" [("b", net); ("a", cpuLabelled)].

(** ** Statements about rendering *)

(** The metric produces exactly one of [metricStat] and [mathExpression]. *)
Definition oneVariant (m : IMetric) : bool :=
  match metricStat m, mathExpression m with
  | Some _, None | None, Some _ => true
  | _, _ => false
  end.


(** The options of [metricGraphJson] before [dropUndefined]. *)
Definition statOptions (m : IMetric) : gmap string JsValue :=
  match metricStat m, mathExpression m with
  | Some stat, None => (withStat_render (renderingProperties m) stat).2
  | None, Some expr => <["expression" := VStr (expression expr)]> (renderingProperties m)
  | _, _ => renderingProperties m
  end.

(** A stat ref with a period of one minute and the statistic "Sum". *)
Definition netSum : IMetric :=
  {| metricStat :=
       Some {| namespace := "AWS/EC2"; metricName := "NetworkIn"; dimensions := None;
               statistic := Some "Sum"; period := Some {| toSeconds := 60 |};
               region := None; account := None |};
     mathExpression := None;
     renderingProperties := {[ "label" := VStr "Network" ]};
     toString := "NetworkIn" |}.

(** [cpu], a stat ref with the default period and statistic, with a rendering
    property named like an option of the renderer. *)
Definition cpuPeriod60 : IMetric :=
  {| metricStat := metricStat cpu;
     mathExpression := None;
     renderingProperties := {[ "period" := VNum 60 ]};
     toString := toString cpu |}.


(** * Further definitions *)

(** ** Rendering *)

(** What [dropUndefined] leaves of a property. *)
Definition dropU (r : option JsValue) : option JsValue :=
  match r with
  | Some VUndefined => None
  | _ => r
  end.

(** The options of [metricGraphJson] after the assignments of [visible],
    [yAxis] and [id], and the condition under which [label] is then set. *)
Definition optionsBeforeLabel (m : IMetric) (yAxis id : option string)
    : gmap string JsValue :=
  setIf (truthyO id) "id" (optV id)
    (setIf (negb (bool_decide (yAxis = Some "left"))) "yAxis" (optV yAxis)
       (setIf (negb (truthyO yAxis)) "visible" (VBool false) (statOptions m))).

Definition labelCond (m : IMetric) (yAxis id : option string) : bool :=
  negb (bool_decide (optionsBeforeLabel m yAxis id !! "visible" = Some (VBool false)))
  && truthyKey (optionsBeforeLabel m yAxis id) "expression"
  && negb (truthyKey (optionsBeforeLabel m yAxis id) "label").

(** The option keys [metricGraphJson] itself may write. *)
Definition reserved : list string :=
  ["accountId"; "region"; "period"; "stat"; "expression";
   "visible"; "yAxis"; "id"; "label"].

(** The row of a metric, if [metricGraphJson] returns one. *)
Definition metricGraphJson_row (metric : IMetric) (yAxis id : option string)
    : option (list Token) :=
  match metricGraphJson metric yAxis id with
  | Ok row => Some row
  | Throw _ => None
  end.

(** A stat ref rendered under the tag [yAxis] and the identifier [id] sets no
    option of its own: left axis, no identifier, no account, no region, the
    default period and the default statistic. *)
Definition plain (st : MetricStatConfig) (yAxis id : option string) : Prop :=
  yAxis = Some "left"
  ∧ truthyO id = false
  ∧ truthyO (account st) = false
  ∧ truthyO (region st) = false
  ∧ (∀ p, period st = Some p → toSeconds p = 300%N)
  ∧ (∀ s, statistic st = Some s → truthy s = true → s = "Average").

(** ** Validation *)

(** The errors a traversal of the bindings [l] can throw when it starts with
    the identifiers of [seen] already bound. *)
Definition thrown (seen : gmap string IMetric) (l : list (string * IMetric))
    (msg : string) : Prop :=
  msg = err_both ∨ msg = err_neither
  ∨ ∃ id a b, msg = err_conflict id a b ∧ (id, a) ∈ l
              ∧ (seen !! id = Some b ∨ (id, b) ∈ l)
              ∧ metricKey b ≠ metricKey a.

(** ** Registration *)

(** The [(identifier, sub-metric)] pairs of all the expression trees passed to
    a sequence of [addTopLevel] calls. *)
Definition allBindings (cs : list (string * list IMetric)) : list (string * IMetric) :=
  flat_map bindings (flat_map snd cs).

(** Every non-empty identifier is bound to metrics of one structural key. *)
Definition unambiguous (cs : list (string * list IMetric)) : Prop :=
  ∀ i a b, (i, a) ∈ allBindings cs → (i, b) ∈ allBindings cs → truthy i = true →
           metricKey a = metricKey b.

(** The registrations a sequence of [addTopLevel] calls performs, in order. *)
Definition allCalls (cs : list (string * list IMetric)) : list Call :=
  flat_map (λ c, topCalls c.1 c.2) cs.

(** [consistent], for the identifiers that are not the empty string. *)
Definition consistentT (l : list Call) : Prop :=
  ∀ c c' i, c ∈ l → c' ∈ l → c_id c = Some i → c_id c' = Some i → truthy i = true →
            metricKey (c_metric c) = metricKey (c_metric c').

(** Every entry holds the metric of some registration of [l]; its identifier
    and its tag, if any, are not empty and were supplied by a registration of
    [l] for the key of the entry. *)
Definition from_calls (l : list Call) (s : MetricSet) : Prop :=
  ∀ j e, metrics s !! j = Some e →
    (∃ c, c ∈ l ∧ c_metric c = e_metric e)
    ∧ (∀ i, e_id e = Some i →
         truthy i = true
         ∧ ∃ c, c ∈ l ∧ c_id c = Some i
                ∧ metricKey (c_metric c) = metricKey (e_metric e))
    ∧ (∀ t, e_tag e = Some t →
         truthy t = true
         ∧ ∃ c, c ∈ l ∧ c_tag c = Some t
                ∧ metricKey (c_metric c) = metricKey (e_metric e)).

(** An entry that is not the one indexed under its key carries an
    identifier. *)
Definition inv_dup (s : MetricSet) : Prop :=
  ∀ j e, metrics s !! j = Some e →
         metricByKey s !! metricKey (e_metric e) ≠ Some j →
         truthyO (e_id e) = true.

(** ** The key cache *)

(** Every slot of the object, at any depth, is filled. *)
Fixpoint filled (o : Obj) : Prop :=
  is_Some (slot o)
  ∧ match o_mathExpression o with
    | Some e => fold_right (λ p acc, filled p.2 ∧ acc) True (usingMetrics e)
    | None => True
    end.

(** * Properties *)

(** ** Induction on metrics *)

Lemma IMetric_ind' (P : IMetric → Prop) :
  (∀ st e rp ts,
      match e with
      | Some ex => Forall (λ p, P p.2) (usingMetrics ex)
      | None => True
      end →
      P (Metric st e rp ts)) →
  ∀ m, P m.
Proof.
  intros step. fix IH 1. intros [st [[expr um]|] rp ts]; apply step; simpl; [|done].
  induction um as [|[i c] um IHum]; constructor; [apply IH | apply IHum].
Qed.

Lemma ascii_compare_spec a b :
  Stdlib.Strings.Ascii.compare a b = N.compare (Stdlib.Strings.Ascii.N_of_ascii a) (Stdlib.Strings.Ascii.N_of_ascii b).
Proof. reflexivity. Qed.

Lemma str_compare_refl s : Stdlib.Strings.String.compare s s = Eq.
Proof.
  induction s as [|a s IH]; simpl; [done|].
  by rewrite ascii_compare_spec, N.compare_refl.
Qed.

Lemma str_compare_lt_trans s1 s2 s3 :
  Stdlib.Strings.String.compare s1 s2 = Lt →
  Stdlib.Strings.String.compare s2 s3 = Lt →
  Stdlib.Strings.String.compare s1 s3 = Lt.
Proof.
  revert s2 s3. induction s1 as [|a s1 IH]; intros [|b s2] [|c s3]; simpl; try done.
  rewrite !ascii_compare_spec.
  destruct (N.compare_spec (Stdlib.Strings.Ascii.N_of_ascii a) (Stdlib.Strings.Ascii.N_of_ascii b)) as [Hab|Hab|Hab]; try done;
  destruct (N.compare_spec (Stdlib.Strings.Ascii.N_of_ascii b) (Stdlib.Strings.Ascii.N_of_ascii c)) as [Hbc|Hbc|Hbc]; try done;
  intros H1 H2.
  - rewrite Hab, Hbc, N.compare_refl. eauto.
  - rewrite Hab. by apply N.compare_lt_iff in Hbc as ->.
  - rewrite <- Hbc. by apply N.compare_lt_iff in Hab as ->.
  - assert (Stdlib.Strings.Ascii.N_of_ascii a < Stdlib.Strings.Ascii.N_of_ascii c)%N
      as ->%N.compare_lt_iff by lia. done.
Qed.

Global Instance str_le_trans : Transitive str_le.
Proof.
  intros s1 s2 s3. unfold str_le, Stdlib.Strings.String.leb.
  destruct (Stdlib.Strings.String.compare s1 s2) eqn:H12; [|  |done].
  - apply Stdlib.Strings.String.compare_eq_iff in H12 as ->. done.
  - destruct (Stdlib.Strings.String.compare s2 s3) eqn:H23; [| |done].
    + apply Stdlib.Strings.String.compare_eq_iff in H23 as ->. by rewrite H12.
    + by rewrite (str_compare_lt_trans _ _ _ H12 H23).
Qed.

Global Instance str_le_total : Total str_le.
Proof. intros s1 s2. apply Stdlib.Strings.String.leb_total. Qed.

Global Instance str_le_antisym : AntiSymm (=) str_le.
Proof. intros s1 s2. apply Stdlib.Strings.String.leb_antisym. Qed.

Lemma sort_Permutation l : sort l ≡ₚ l.
Proof. apply merge_sort_Permutation. Qed.

Lemma sort_Sorted l : Sorted str_le (sort l).
Proof. apply (Sorted_merge_sort str_le). Qed.

Lemma sort_perm_eq l1 l2 : l1 ≡ₚ l2 → sort l1 = sort l2.
Proof.
  intros Hp. apply (Sorted_unique str_le); try apply sort_Sorted.
  by rewrite !sort_Permutation.
Qed.

(** ** Structural content and the structural key *)

Lemma metricKey_unfold m : metricKey m = join "|" (keyParts m).
Proof. by destruct m. Qed.

Lemma metricKey_content m : metricKey (content m) = metricKey m.
Proof.
  induction m as [st e rp ts IH] using IMetric_ind'.
  rewrite !metricKey_unfold. unfold keyParts. simpl.
  destruct e as [[expr um]|]; simpl in *; [|done].
  assert (subKeys (map (λ p, (p.1, content p.2)) um) = subKeys um) as ->; [|done].
  unfold subKeys. rewrite map_map. simpl.
  induction IH as [|[i c] um Hc _ IHum]; simpl; [done|].
  simpl in Hc. by rewrite Hc, IHum.
Qed.

Lemma metricKey_same_content m1 m2 :
  content m1 = content m2 → metricKey m1 = metricKey m2.
Proof.
  intros H. by rewrite <- (metricKey_content m1), H, metricKey_content.
Qed.

Lemma get_map {T U : Type} (f : T → U) (o : list (string * T)) id :
  get (map (λ p, (p.1, f p.2)) o) id = f <$> get o id.
Proof.
  induction o as [|[k v] o IH]; simpl; [done|]. by case_decide.
Qed.

Lemma keys_map {T U : Type} (f : T → U) (o : list (string * T)) :
  keys (map (λ p, (p.1, f p.2)) o) = keys o.
Proof. unfold keys. rewrite <- list_fmap_compose. done. Qed.

Lemma get_Some_keys {T : Type} (o : list (string * T)) id :
  id ∈ keys o ↔ is_Some (get o id).
Proof.
  unfold keys. induction o as [|[k v] o IH]; simpl.
  - split; [by intros ?%elem_of_nil | by intros [? ?]].
  - rewrite elem_of_cons, IH. case_decide as Hk; subst; [split; eauto|].
    split; [intros [Hid|?]; [by subst | done] | by right].
Qed.

(** The key of an expression metric, spelled out. *)
Lemma metricKey_expression m e :
  mathExpression m = Some e → metricStat m = None →
  metricKey m =
    join "|" (expression e ::
              flat_map (λ id, [id; from_option metricKey "undefined" (get (usingMetrics e) id)])
                       (sort (keys (usingMetrics e)))).
Proof.
  intros He Hst. rewrite metricKey_unfold. unfold keyParts. rewrite He, Hst.
  rewrite app_nil_r. unfold exprParts, subKeys. rewrite keys_map. do 2 f_equal.
  apply flat_map_ext. intros id. rewrite get_map. by destruct (get _ id).
Qed.

(** Two expressions over the same expression string whose operand objects
    are the same map from identifiers to keys have the same key, whatever the
    order in which the identifiers were inserted. *)
Lemma metricKey_expression_ext m1 m2 e1 e2 :
  mathExpression m1 = Some e1 → mathExpression m2 = Some e2 →
  metricStat m1 = metricStat m2 →
  expression e1 = expression e2 →
  NoDup (keys (usingMetrics e1)) → NoDup (keys (usingMetrics e2)) →
  (∀ id, metricKey <$> get (usingMetrics e1) id = metricKey <$> get (usingMetrics e2) id) →
  metricKey m1 = metricKey m2.
Proof.
  intros He1 He2 Hst Hexpr Hnd1 Hnd2 Hget.
  rewrite !metricKey_unfold. unfold keyParts. rewrite He1, He2, Hst. do 2 f_equal.
  unfold exprParts, subKeys. rewrite Hexpr, !keys_map. f_equal.
  assert (sort (keys (usingMetrics e1)) = sort (keys (usingMetrics e2))) as ->.
  { apply sort_perm_eq, NoDup_Permutation; [done..|].
    intros id. rewrite !get_Some_keys.
    rewrite <- (fmap_is_Some metricKey (get (usingMetrics e1) id)).
    rewrite <- (fmap_is_Some metricKey (get (usingMetrics e2) id)).
    by rewrite Hget. }
  apply flat_map_ext. intros id. by rewrite !get_map, Hget.
Qed.

(** ** The key cache is transparent *)

Lemma Obj_ind' (P : Obj → Prop) :
  (∀ sl st e rp ts,
      match e with
      | Some ex => Forall (λ p, P p.2) (usingMetrics ex)
      | None => True
      end →
      P (MkObj sl st e rp ts)) →
  ∀ o, P o.
Proof.
  intros step. fix IH 1. intros [sl st [[expr um]|] rp ts]; apply step; simpl; [|done].
  induction um as [|[i c] um IHum]; constructor; [apply IH | apply IHum].
Qed.

Lemma forget_fresh m : forget (fresh m) = m.
Proof.
  induction m as [st e rp ts IH] using IMetric_ind'. simpl.
  destruct e as [[expr um]|]; simpl in *; [|done].
  do 3 f_equal. rewrite map_map. simpl.
  induction IH as [|[i c] um Hc _ IHum]; simpl; [done|].
  simpl in Hc. by rewrite Hc, IHum.
Qed.

Lemma coherent_fresh m : coherent (fresh m).
Proof.
  induction m as [st e rp ts IH] using IMetric_ind'. simpl.
  destruct e as [[expr um]|]; simpl in *; [|done].
  split; [done|].
  induction IH as [|[i c] um Hc _ IHum]; simpl; [done|]. done.
Qed.

Lemma metricKey_cached_ok o :
  coherent o →
  (metricKey_cached o).1 = metricKey (forget o)
  ∧ forget (metricKey_cached o).2 = forget o
  ∧ coherent (metricKey_cached o).2.
Proof.
  induction o as [sl st e rp ts IH] using Obj_ind'.
  intros [Hsl Hsub].
  destruct sl as [k|].
  { simpl in *. subst k. done. }
  assert (match e with
          | Some ex =>
              Forall (λ p, (metricKey_cached p.2).1 = metricKey (forget p.2)
                           ∧ forget (metricKey_cached p.2).2 = forget p.2
                           ∧ coherent (metricKey_cached p.2).2) (usingMetrics ex)
          | None => True
          end) as Hch.
  { destruct e as [[expr um]|]; [|done]. simpl in *.
    induction IH as [|[i c] um Hc _ IHum]; [done|].
    simpl in Hsub. destruct Hsub as [Hc1 Hsub]. constructor; auto. }
  clear IH Hsub Hsl.
  assert (forget (metricKey_cached (MkObj None st e rp ts)).2
          = forget (MkObj None st e rp ts)) as Hforget.
  { simpl. destruct e as [[expr um]|]; [|done]. simpl in *.
    do 3 f_equal. rewrite !map_map. simpl.
    induction Hch as [|[i c] um (_ & Hc & _) _ IHum]; simpl; [done|].
    simpl in Hc. by rewrite Hc, IHum. }
  assert ((metricKey_cached (MkObj None st e rp ts)).1
          = metricKey (forget (MkObj None st e rp ts))) as Hkey.
  { clear Hforget. rewrite metricKey_unfold. unfold keyParts. simpl.
    destruct e as [[expr um]|]; [|done]. simpl in *.
    unfold subKeys. rewrite !map_map. simpl.
    assert (map (λ x : string * Obj, (x.1, (metricKey_cached x.2).1)) um
            = map (λ x : string * Obj, (x.1, metricKey (forget x.2))) um) as ->; [|reflexivity].
    induction Hch as [|[i c] um (Hc & _ & _) _ IHum]; simpl; [done|].
    simpl in Hc. by rewrite Hc, IHum. }
  split; [done|]. split; [done|].
  split.
  - change (join "|" _) with ((metricKey_cached (MkObj None st e rp ts)).1) at 1.
    rewrite Hkey. by rewrite <- Hforget.
  - simpl. destruct e as [[expr um]|]; [|done]. simpl in *.
    clear Hforget Hkey. rewrite map_map. simpl.
    induction Hch as [|[i c] um (_ & _ & Hc) _ IHum]; simpl; [done|]. by split.
Qed.

(** ** Loops that may throw *)

Lemma forM_app {T S : Type} (body : T → S → Result S) l1 l2 s :
  forM body (l1 ++ l2) s = (s' ← forM body l1 s; forM body l2 s').
Proof.
  revert s. induction l1 as [|x l1 IH]; intros s; simpl; [done|].
  destruct (body x s) as [s1|msg]; simpl; [apply IH | done].
Qed.

Lemma forM_flat_map {T U S : Type} (body : U → S → Result S) (f : T → list U) l s :
  forM body (flat_map f l) s = forM (λ x s, forM body (f x) s) l s.
Proof.
  revert s. induction l as [|x l IH]; intros s; simpl; [done|].
  rewrite forM_app. destruct (forM body (f x) s) as [s1|msg]; simpl; [apply IH | done].
Qed.

Lemma forM_ext_Forall {T S : Type} (f g : T → S → Result S) l s :
  Forall (λ x, ∀ s, f x s = g x s) l → forM f l s = forM g l s.
Proof.
  intros H. revert s. induction H as [|x l Hx _ IH]; intros s; simpl; [done|].
  rewrite Hx. destruct (g x s); simpl; [apply IH | done].
Qed.

(** ** [validateNoIdConflicts] *)

Lemma wf_inv m :
  wf m = true →
  (∃ st, metricStat m = Some st ∧ mathExpression m = None)
  ∨ (∃ e, metricStat m = None ∧ mathExpression m = Some e
          ∧ Forall (λ p, wf p.2 = true) (usingMetrics e)).
Proof.
  destruct m as [[st|] [e|] rp ts]; simpl; try done.
  - left. eauto.
  - intros H. right. exists e. split_and!; try done.
    apply Forall_forall. intros p Hp. rewrite forallb_forall in H.
    apply H. by apply list_elem_of_In.
Qed.

Lemma check_bind {U : Type} p seen (k : gmap string IMetric → Result U) :
  check p seen ≫= k =
    match seen !! p.1 with
    | Some existing =>
        if decide (metricKey existing ≠ metricKey p.2)
        then Throw (err_conflict p.1 p.2 existing)
        else k (<[p.1 := p.2]> seen)
    | None => k (<[p.1 := p.2]> seen)
    end.
Proof.
  unfold check. destruct (seen !! p.1); [case_decide|]; done.
Qed.

(** On a well-formed tree [visit] is the loop of [check] over the bindings. *)
Lemma visit_bindings m seen :
  wf m = true → visit m seen = forM check (bindings m) seen.
Proof.
  revert seen. induction m as [st e rp ts IH] using IMetric_ind'. intros seen Hwf.
  destruct (wf_inv _ Hwf) as [(st' & Hst & He)|(ex & Hst & He & Hsub)]; simpl in *; subst.
  { done. }
  simpl. unfold dispatchMetric. simpl.
  rewrite forM_flat_map. apply forM_ext_Forall.
  rewrite Forall_forall in IH, Hsub. apply Forall_forall. intros p Hp s.
  simpl. rewrite IH by auto. rewrite check_bind. done.
Qed.

Lemma check_loop l : ∀ seen,
  match forM check l seen with
  | Ok _ =>
      ∀ id a b, (id, a) ∈ l → seen !! id = Some b ∨ (id, b) ∈ l →
                metricKey a = metricKey b
  | Throw msg =>
      ∃ id a b, msg = err_conflict id a b ∧ (id, a) ∈ l
                ∧ (seen !! id = Some b ∨ (id, b) ∈ l)
                ∧ metricKey b ≠ metricKey a
  end.
Proof.
  induction l as [|[i x] l IH]; intros seen; simpl.
  { intros id a b Ha. by apply elem_of_nil in Ha. }
  assert (∀ seen1, check (i, x) seen = Ok seen1 →
            seen1 = <[i := x]> seen
            ∧ ∀ ex, seen !! i = Some ex → metricKey ex = metricKey x) as Hok.
  { unfold check. simpl. intros seen1. destruct (seen !! i) as [ex|] eqn:Hi.
    - destruct (decide (metricKey ex ≠ metricKey x)) as [Hne|Heq]; [done|].
      intros [= <-]. split; [done|]. intros ? [= <-]. by apply dec_stable.
    - intros [= <-]. done. }
  destruct (check (i, x) seen) as [seen1|msg] eqn:Hcheck; simpl.
  - destruct (Hok seen1 eq_refl) as [-> Hex]. clear Hok.
    specialize (IH (<[i := x]> seen)).
    destruct (forM check l (<[i := x]> seen)) as [seen2|msg].
    + intros id a b Ha Hb.
      assert (∀ c, (id, c) ∈ l → metricKey c = metricKey b ∨ (id = i ∧ metricKey c = metricKey x)) as Hl.
      { intros c Hc. destruct Hb as [Hb|Hb].
        - destruct (decide (i = id)) as [<-|Hne].
          + right. split; [done|]. eapply IH; [done|]. left. by rewrite lookup_insert_eq.
          + left. eapply IH; [done|]. left. by rewrite lookup_insert_ne.
        - apply elem_of_cons in Hb as [[= -> ->]|Hb].
          + left. eapply IH; [done|]. left. by rewrite lookup_insert_eq.
          + left. eapply IH; [done|]. by right. }
      assert (id = i → metricKey b = metricKey x) as Hbx.
      { intros ->. destruct Hb as [Hb|Hb]; [by apply Hex|].
        apply elem_of_cons in Hb as [[= ->]|Hb]; [done|].
        eapply IH; [done|]. left. by rewrite lookup_insert_eq. }
      apply elem_of_cons in Ha as [[= -> ->]|Ha].
      * symmetry. by apply Hbx.
      * destruct (Hl a Ha) as [?|[-> Hax]]; [done|]. rewrite Hax. symmetry. by apply Hbx.
    + destruct IH as (id & a & b & -> & Ha & Hb & Hne).
      exists id, a. destruct Hb as [Hb|Hb].
      * destruct (decide (i = id)) as [<-|Hi].
        -- rewrite lookup_insert_eq in Hb. injection Hb as <-.
           exists x. split_and!; try done; [by right | right; by left].
        -- rewrite lookup_insert_ne in Hb by done.
           exists b. split_and!; try done; [by right | by left].
      * exists b. split_and!; try done; [by right | right; by right].
  - clear Hok IH. unfold check in Hcheck. simpl in Hcheck.
    destruct (seen !! i) as [ex|] eqn:Hi; [|done].
    destruct (decide (metricKey ex ≠ metricKey x)) as [Hne|Heq]; [|done].
    injection Hcheck as <-. exists i, x, ex. split_and!; try done; [by left | by left].
Qed.

(** ** [addOne] is a sequence of registrations *)

Lemma addOne_calls m : ∀ tag id s,
  addOne m tag id s = forM registerCall (calls m tag id) s.
Proof.
  induction m as [st e rp ts IH] using IMetric_ind'. intros tag id s. simpl.
  unfold registerCall. simpl.
  destruct (register _ tag id s) as [s1|msg]; simpl; [|done].
  destruct e as [[expr um]|]; simpl in *; [|done].
  fold registerCall. rewrite forM_flat_map. apply forM_ext_Forall.
  eapply Forall_impl; [exact IH|]. intros p Hp s2. apply Hp.
Qed.

Lemma addTopLevel_calls tag ms s :
  addTopLevel tag ms s = forM registerCall (topCalls tag ms) s.
Proof.
  unfold addTopLevel, topCalls. rewrite forM_flat_map.
  apply forM_ext_Forall, Forall_forall. intros m _ s'. apply addOne_calls.
Qed.

(** ** What one registration does *)

Lemma deref_Some s r j e :
  deref s r = Some (j, e) ↔ r = Some j ∧ metrics s !! j = Some e.
Proof.
  unfold deref. destruct r as [j'|]; simpl; [|by split; [|intros [? _]]].
  destruct (metrics s !! j') as [e'|] eqn:He'; simpl.
  - split; [by intros [= -> ->] | by intros [[= ->] ?]; simplify_eq].
  - split; [done | intros [[= ->] ?]; congruence].
Qed.

Lemma deref_None s r :
  deref s r = None ↔ ∀ j, r = Some j → metrics s !! j = None.
Proof.
  unfold deref. destruct r as [j'|]; simpl; [|by split].
  destruct (metrics s !! j') as [e'|] eqn:He'; simpl.
  - split; [done | intros H; specialize (H j' eq_refl); congruence].
  - split; [by intros _ j [= <-] | done].
Qed.

Lemma register_selects m tag id s s' :
  register m tag id s = Ok s' →
  ∃ j s1, selects m id s j s1 ∧ s' = assignTag j tag (assignId j id s1).
Proof.
  unfold register, lookupById, lookupByKey.
  (* the part after the lookup by identifier *)
  assert (∀ s',
    (∀ i, id = Some i → truthy i = true → deref s (metricById s !! i) = None) →
    (let '(entry, s0) :=
       obtainEntry m (metricKey m) s
         match deref s (metricByKey s !! metricKey m) with
         | Some (j, e) => if truthyO (e_id e) && truthyO id then None else Some j
         | None => None
         end in
     Ok (assignTag entry tag (assignId entry id s0))) = Ok s' →
    ∃ j s1, selects m id s j s1 ∧ s' = assignTag j tag (assignId j id s1)) as Hrest.
  { clear s'. intros s' Hid.
    destruct (deref s (metricByKey s !! metricKey m)) as [[j e]|] eqn:Hk.
    - apply deref_Some in Hk as [Hj He].
      destruct (truthyO (e_id e) && truthyO id) eqn:Hb; simpl; intros [= <-].
      + eexists _, _. split; [|done]. apply sel_fresh; [done|].
        intros j' e' Hj' He'. congruence.
      + eexists _, _. split; [|done]. by eapply sel_by_key.
    - simpl. intros [= <-]. eexists _, _. split; [|done].
      apply sel_fresh; [done|]. intros j e Hj He.
      rewrite deref_None in Hk. specialize (Hk j Hj). congruence. }
  destruct id as [i|]; [|by apply Hrest].
  destruct (truthy i) eqn:Hi; [|apply Hrest; intros ? [= <-]; congruence].
  destruct (deref s (metricById s !! i)) as [[j e]|] eqn:Hd.
  - case_decide as Hkey; [done|]. simpl.
    intros [= <-]. exists j, s. split; [|done].
    apply deref_Some in Hd as [Hj He]. by eapply sel_by_id.
  - simpl. apply Hrest. by intros ? [= <-].
Qed.

Lemma forM_preserves {T S : Type} (P : S → Prop) (body : T → S → Result S) l :
  (∀ x s s', x ∈ l → P s → body x s = Ok s' → P s') →
  ∀ s s', P s → forM body l s = Ok s' → P s'.
Proof.
  induction l as [|x l IH]; intros Hbody s s' HP; simpl.
  - by intros [= <-].
  - destruct (body x s) as [s1|msg] eqn:Hx; simpl; [|done].
    apply IH.
    + intros y t t' Hy. apply Hbody. by right.
    + eapply Hbody; [by left|done..].
Qed.

Lemma forM_relates {T S : Type} (R : S → S → Prop) `{!Reflexive R, !Transitive R}
    (body : T → S → Result S) l :
  (∀ x s s', x ∈ l → body x s = Ok s' → R s s') →
  ∀ s s', forM body l s = Ok s' → R s s'.
Proof.
  induction l as [|x l IH]; intros Hbody s s'; simpl.
  - by intros [= <-].
  - destruct (body x s) as [s1|msg] eqn:Hx; simpl; [|done].
    intros Hrest. transitivity s1.
    + eapply Hbody; [by left|done].
    + apply IH; [|done]. intros y t t' Hy. apply Hbody. by right.
Qed.

Lemma assignTag_lookup j tag s j' :
  metrics (assignTag j tag s) !! j'
  = (λ e, if decide (j' = j) then tagEntry tag e else e) <$> metrics s !! j'.
Proof.
  unfold assignTag, tagEntry.
  destruct (metrics s !! j) as [e|] eqn:He; [destruct tag as [t|]|].
  - destruct (negb (truthyO (e_tag e)) && truthy t) eqn:Hb; simpl.
    + destruct (decide (j' = j)) as [->|Hne].
      * rewrite list_lookup_insert_eq by (by eapply lookup_lt_Some).
        by rewrite He; simpl; rewrite Hb.
      * rewrite list_lookup_insert_ne by done. by destruct (metrics s !! j').
    + destruct (decide (j' = j)) as [->|Hne].
      * by rewrite He; simpl; rewrite Hb.
      * by destruct (metrics s !! j').
  - destruct (metrics s !! j'); simpl; [by case_decide | done].
  - destruct (decide (j' = j)) as [->|Hne]; [by rewrite He|].
    by destruct (metrics s !! j').
Qed.

Lemma assignTag_byId j tag s : metricById (assignTag j tag s) = metricById s.
Proof.
  unfold assignTag. destruct (metrics s !! j), tag; try done. by case_match.
Qed.

Lemma assignTag_byKey j tag s : metricByKey (assignTag j tag s) = metricByKey s.
Proof.
  unfold assignTag. destruct (metrics s !! j), tag; try done. by case_match.
Qed.

Lemma assignId_lookup j id s j' :
  metrics (assignId j id s) !! j'
  = (λ e, if decide (j' = j) then idEntry id e else e) <$> metrics s !! j'.
Proof.
  unfold assignId, idEntry.
  destruct (metrics s !! j) as [e|] eqn:He; [destruct id as [t|]|].
  - destruct (negb (truthyO (e_id e)) && truthy t) eqn:Hb; simpl.
    + destruct (decide (j' = j)) as [->|Hne].
      * rewrite list_lookup_insert_eq by (by eapply lookup_lt_Some).
        by rewrite He; simpl; rewrite Hb.
      * rewrite list_lookup_insert_ne by done. by destruct (metrics s !! j').
    + destruct (decide (j' = j)) as [->|Hne].
      * by rewrite He; simpl; rewrite Hb.
      * by destruct (metrics s !! j').
  - destruct (metrics s !! j'); simpl; [by case_decide | done].
  - destruct (decide (j' = j)) as [->|Hne]; [by rewrite He|].
    by destruct (metrics s !! j').
Qed.

Lemma assignId_byId j id s :
  metricById (assignId j id s)
  = match metrics s !! j, id with
    | Some e, Some i =>
        if negb (truthyO (e_id e)) && truthy i
        then <[i := j]> (metricById s) else metricById s
    | _, _ => metricById s
    end.
Proof.
  unfold assignId. destruct (metrics s !! j), id; try done. by case_match.
Qed.

Lemma assignId_byKey j id s : metricByKey (assignId j id s) = metricByKey s.
Proof.
  unfold assignId. destruct (metrics s !! j), id; try done. by case_match.
Qed.

Lemma tagEntry_metric tag e : e_metric (tagEntry tag e) = e_metric e.
Proof. unfold tagEntry. destruct tag; [case_match|]; done. Qed.
Lemma tagEntry_id tag e : e_id (tagEntry tag e) = e_id e.
Proof. unfold tagEntry. destruct tag; [case_match|]; done. Qed.
Lemma idEntry_metric id e : e_metric (idEntry id e) = e_metric e.
Proof. unfold idEntry. destruct id; [case_match|]; done. Qed.
Lemma idEntry_tag id e : e_tag (idEntry id e) = e_tag e.
Proof. unfold idEntry. destruct id; [case_match|]; done. Qed.

Lemma tagEntry_tag tag e :
  e_tag (tagEntry tag e)
  = if negb (truthyO (e_tag e)) && truthyO tag then tag else e_tag e.
Proof.
  unfold tagEntry. destruct tag as [t|]; simpl; [|by rewrite andb_false_r].
  by case_match.
Qed.

Lemma idEntry_id id e :
  e_id (idEntry id e)
  = if negb (truthyO (e_id e)) && truthyO id then id else e_id e.
Proof.
  unfold idEntry. destruct id as [t|]; simpl; [|by rewrite andb_false_r].
  by case_match.
Qed.

Lemma inv_id_truthy s j e :
  inv s → metrics s !! j = Some e → truthyO (e_id e) = false → e_id e = None.
Proof.
  intros Hinv He Hf. destruct (e_id e) as [i|] eqn:Hi; [|done].
  destruct (inv_id s Hinv j e i He Hi) as [_ Ht]. simpl in Hf. congruence.
Qed.

Lemma inv_new : inv newMetricSet.
Proof. by split; simpl; intros *; rewrite ?lookup_empty, ?lookup_nil. Qed.

Lemma inv_assignTag j tag s : inv s → inv (assignTag j tag s).
Proof.
  intros [H1 H2 H3]. split.
  - intros i j'. rewrite assignTag_byId. intros (e & He & Hi)%H1.
    rewrite assignTag_lookup, He. simpl. eexists. split; [done|].
    case_decide; [by rewrite tagEntry_id | done].
  - intros j' e' i. rewrite assignTag_lookup, assignTag_byId.
    destruct (metrics s !! j') as [e|] eqn:He; simpl; [|done].
    intros [= <-] Hi. apply (H2 j' e i He).
    revert Hi. case_decide; [by rewrite tagEntry_id | done].
  - intros k j'. rewrite assignTag_byKey. intros (e & He & Hk)%H3.
    rewrite assignTag_lookup, He. simpl. eexists. split; [done|].
    case_decide; [by rewrite tagEntry_metric | done].
Qed.

Lemma inv_pushEntry m s : inv s → inv (pushEntry m (metricKey m) s).
Proof.
  intros [H1 H2 H3]. split; simpl.
  - intros i j (e & He & Hi)%H1. exists e. split; [|done].
    by apply lookup_app_l_Some.
  - intros j e i He Hi.
    apply lookup_app_Some in He as [He|[Hlen He]]; [by eapply H2|].
    apply list_lookup_singleton_Some in He as [_ <-]. done.
  - intros k j Hj. destruct (decide (metricKey m = k)) as [<-|Hne].
    + rewrite lookup_insert_eq in Hj. injection Hj as <-.
      eexists. split; [by rewrite lookup_app_r, Nat.sub_diag by done | done].
    + rewrite lookup_insert_ne in Hj by done.
      apply H3 in Hj as (e & He & Hk). exists e. split; [|done].
      by apply lookup_app_l_Some.
Qed.

(** [assignId] keeps the invariant when the identifier it may bind is free. *)
Lemma inv_assignId j id s :
  inv s →
  (∀ i e, id = Some i → truthy i = true → metrics s !! j = Some e →
          truthyO (e_id e) = false → metricById s !! i = None) →
  inv (assignId j id s).
Proof.
  intros Hinv Hfree. pose proof Hinv as [H1 H2 H3].
  destruct (metrics s !! j) as [e|] eqn:He; [destruct id as [i|]|];
    [|by unfold assignId; rewrite He..].
  destruct (negb (truthyO (e_id e)) && truthy i) eqn:Hb;
    [|by unfold assignId; rewrite He, Hb].
  apply andb_true_iff in Hb as [Hno%negb_true_iff Hi].
  pose proof (Hfree i e eq_refl Hi eq_refl Hno) as Hnone.
  pose proof (inv_id_truthy s j e Hinv He Hno) as Hid.
  split.
  - intros i' j'. rewrite assignId_byId, He. simpl. rewrite Hno, Hi. simpl.
    rewrite assignId_lookup. destruct (decide (i = i')) as [<-|Hne].
    + rewrite lookup_insert_eq. intros [= <-]. rewrite He.
      exists (idEntry (Some i) e). split; [by simpl; rewrite decide_True|].
      rewrite idEntry_id. simpl. by rewrite Hno, Hi.
    + rewrite lookup_insert_ne by done. intros (e' & He' & Hi')%H1.
      rewrite He'. exists e'. split; [|done]. simpl.
      rewrite decide_False; [done|]. intros ->. congruence.
  - intros j' e' i'. rewrite assignId_lookup, assignId_byId, He. simpl.
    rewrite Hno, Hi. simpl.
    destruct (metrics s !! j') as [e0|] eqn:He0; simpl; [|done].
    intros [= <-]. case_decide as Hj.
    + subst j'. assert (e0 = e) as -> by congruence.
      rewrite idEntry_id. simpl. rewrite Hno, Hi. simpl.
      intros [= <-]. by rewrite lookup_insert_eq.
    + intros Hi'. destruct (H2 j' e0 i' He0 Hi') as [Hby Ht]. split; [|done].
      rewrite lookup_insert_ne; [done|]. intros <-. congruence.
  - intros k j'. rewrite assignId_byKey. intros (e' & He' & Hk)%H3.
    rewrite assignId_lookup, He'. simpl. eexists. split; [done|].
    case_decide; [by rewrite idEntry_metric | done].
Qed.

Lemma deref_byId_None s i :
  inv s → deref s (metricById s !! i) = None → metricById s !! i = None.
Proof.
  intros Hinv Hd. destruct (metricById s !! i) as [j|] eqn:Hj; [|done].
  destruct (inv_byId s Hinv i j Hj) as (e & He & _).
  rewrite deref_None in Hd. specialize (Hd j eq_refl). congruence.
Qed.

Lemma register_inv m tag id s s' :
  inv s → register m tag id s = Ok s' → inv s'.
Proof.
  intros Hinv (j & s1 & Hsel & ->)%register_selects.
  apply inv_assignTag.
  destruct Hsel as [i j e -> Hi Hj He Hk | j e Hfree Hj He Hb | Hfree Hb].
  - apply inv_assignId; [done|]. intros i' e' [= <-] _ He' Hno.
    destruct (inv_byId s Hinv i j Hj) as (e0 & He0 & Hid0).
    assert (e' = e0) as -> by congruence. rewrite Hid0 in Hno. simpl in Hno. congruence.
  - apply inv_assignId; [done|]. intros i e' -> Hi _ _.
    apply deref_byId_None; [done|]. by apply Hfree.
  - apply inv_assignId; [by apply inv_pushEntry|]. intros i e' -> Hi _ _. simpl.
    apply deref_byId_None; [done|]. by apply Hfree.
Qed.

(** ** Entries only grow *)

Global Instance entry_le_refl : Reflexive entry_le.
Proof. by intros e. Qed.

Global Instance entry_le_trans : Transitive entry_le.
Proof.
  intros e1 e2 e3 (Hm1 & Ht1 & Hi1) (Hm2 & Ht2 & Hi2). split_and!.
  - congruence.
  - intros H. rewrite Ht2; [by apply Ht1|]. by rewrite Ht1.
  - intros H. rewrite Hi2; [by apply Hi1|]. by rewrite Hi1.
Qed.

Global Instance grows_refl : Reflexive grows.
Proof. intros s j e He. by exists e. Qed.

Global Instance grows_trans : Transitive grows.
Proof.
  intros s1 s2 s3 H12 H23 j e (e' & He' & Hle)%H12.
  apply H23 in He' as (e'' & He'' & Hle'). exists e''. split; [done|].
  by etransitivity.
Qed.

Lemma entry_le_idEntry id e : entry_le e (idEntry id e).
Proof.
  split_and!; [apply idEntry_metric | by rewrite idEntry_tag |].
  intros H. by rewrite idEntry_id, H.
Qed.

Lemma entry_le_tagEntry tag e : entry_le e (tagEntry tag e).
Proof.
  split_and!; [apply tagEntry_metric | | by rewrite tagEntry_id].
  intros H. by rewrite tagEntry_tag, H.
Qed.

Lemma grows_assignId j id s : grows s (assignId j id s).
Proof.
  intros j' e He. rewrite assignId_lookup, He. simpl. eexists. split; [done|].
  case_decide; [apply entry_le_idEntry | done].
Qed.

Lemma grows_assignTag j tag s : grows s (assignTag j tag s).
Proof.
  intros j' e He. rewrite assignTag_lookup, He. simpl. eexists. split; [done|].
  case_decide; [apply entry_le_tagEntry | done].
Qed.

Lemma grows_pushEntry m k s : grows s (pushEntry m k s).
Proof.
  intros j e He. exists e. split; [|done]. simpl. by apply lookup_app_l_Some.
Qed.

Lemma register_grows m tag id s s' :
  register m tag id s = Ok s' → grows s s'.
Proof.
  intros (j & s1 & Hsel & ->)%register_selects.
  transitivity s1; [by destruct Hsel; [..|apply grows_pushEntry]|].
  etransitivity; [apply grows_assignId | apply grows_assignTag].
Qed.

(** ** Sequences of registrations *)

Lemma run_inv l s s' : inv s → forM registerCall l s = Ok s' → inv s'.
Proof.
  apply (forM_preserves inv). intros c t t' _. apply register_inv.
Qed.

Lemma run_grows l s s' : forM registerCall l s = Ok s' → grows s s'.
Proof.
  apply (forM_relates grows). intros c t t' _. apply register_grows.
Qed.

Lemma addTopLevel_inv tag ms s s' :
  inv s → addTopLevel tag ms s = Ok s' → inv s'.
Proof. rewrite addTopLevel_calls. apply run_inv. Qed.

Lemma addTopLevel_grows tag ms s s' :
  addTopLevel tag ms s = Ok s' → grows s s'.
Proof. rewrite addTopLevel_calls. apply run_grows. Qed.

Lemma addTopLevels_inv cs s s' :
  inv s → addTopLevels cs s = Ok s' → inv s'.
Proof.
  apply (forM_preserves inv). intros c t t' _. apply addTopLevel_inv.
Qed.

(** ** At most one entry for a key *)

Lemma assigned_lookup j tag id s1 j' e' :
  metrics (assignTag j tag (assignId j id s1)) !! j' = Some e' ↔
  ∃ e1, metrics s1 !! j' = Some e1
        ∧ e' = if decide (j' = j) then tagEntry tag (idEntry id e1) else e1.
Proof.
  rewrite assignTag_lookup, assignId_lookup.
  destruct (metrics s1 !! j') as [e1|]; simpl.
  - split.
    + intros [= <-]. exists e1. split; [done|]. by case_decide.
    + intros (e0 & [= <-] & ->). by case_decide.
  - split; [done | by intros (? & ? & _)].
Qed.

Lemma selects_lookup m id s j s1 j' e1 :
  selects m id s j s1 → metrics s1 !! j' = Some e1 →
  metrics s !! j' = Some e1
  ∨ (s1 = pushEntry m (metricKey m) s ∧ j = length (metrics s) ∧ j' = j
     ∧ e1 = {| e_metric := m; e_tag := None; e_id := None |}).
Proof.
  intros [i j0 e -> Hi Hj He Hk | j0 e Hfree Hj He Hb | Hfree Hb]; [by left..|].
  simpl. intros [He|[Hlen He]]%lookup_app_Some; [by left|].
  apply list_lookup_singleton_Some in He as [Hj' <-]. right.
  split_and!; try done. lia.
Qed.

Lemma selects_key m id s j s1 :
  inv s → selects m id s j s1 →
  ∃ e1, metrics s1 !! j = Some e1 ∧ metricKey (e_metric e1) = metricKey m.
Proof.
  intros Hinv [i j0 e -> Hi Hj He Hk | j0 e Hfree Hj He Hb | Hfree Hb].
  - by exists e.
  - exists e. split; [done|].
    destruct (inv_byKey s Hinv _ _ Hj) as (e' & He' & Hk). congruence.
  - eexists. split; [by simpl; rewrite lookup_app_r, Nat.sub_diag by done | done].
Qed.

Lemma selects_byKey_ne m id s j s1 K :
  selects m id s j s1 → metricKey m ≠ K → metricByKey s1 !! K = metricByKey s !! K.
Proof.
  intros [i j0 e -> Hi Hj He Hk | j0 e Hfree Hj He Hb | Hfree Hb] Hne; [done..|].
  simpl. by rewrite lookup_insert_ne.
Qed.

Lemma register_single K i t c s s' :
  inv s → single K i t s → tame K i t c →
  registerCall c s = Ok s' → single K i t s'.
Proof.
  destruct c as [m tag id]. unfold registerCall, tame. simpl.
  intros Hinv Hsingle Htame (j & s1 & Hsel & ->)%register_selects.
  destruct (selects_key _ _ _ _ _ Hinv Hsel) as (ej & Hej & Hkj).
  intros j' e' (e1 & He1 & ->)%assigned_lookup Hk'.
  rewrite assignTag_byKey, assignId_byKey.
  assert (metricKey (e_metric e1) = K) as Hk1.
  { revert Hk'. case_decide; [|done]. by rewrite tagEntry_metric, idEntry_metric. }
  clear Hk'.
  destruct (decide (metricKey m = K)) as [HmK|HmK].
  - (* a registration for the key [K] *)
    destruct (Htame HmK) as [Hid Htag]. clear Htame.
    assert (j' = j) as ->.
    { destruct (decide (j' = j)) as [|Hne]; [done|]. exfalso.
      destruct (selects_lookup _ _ _ _ _ _ _ Hsel He1) as [He|(_ & _ & ? & _)]; [|done].
      destruct (Hsingle j' e1 He Hk1) as (Hby & Hi1 & _).
      destruct Hsel as [i0 j0 e -> Hi0 Hj He0 Hk | j0 e Hfree Hj He0 Hb | Hfree Hb].
      - destruct (Hsingle j0 e He0) as (Hby' & _); [congruence|]. congruence.
      - congruence.
      - rewrite <- HmK in Hby. specialize (Hb j' e1 Hby He).
        apply andb_true_iff in Hb as [Hb1 Hb2].
        destruct Hid as [->| ->]; [done|].
        destruct Hi1 as [Hi1|Hi1]; [by rewrite Hi1 in Hb1|].
        destruct (inv_id s Hinv j' e1 i He Hi1) as [Hbyid _].
        specialize (Hfree i eq_refl Hb2). rewrite deref_None in Hfree.
        specialize (Hfree j' Hbyid). congruence. }
    rewrite decide_True by done. assert (e1 = ej) as -> by congruence.
    assert ((e_id ej = None ∨ e_id ej = Some i) ∧ (e_tag ej = None ∨ e_tag ej = Some t)
            ∧ metricByKey s1 !! K = Some j) as (Hi1 & Ht1 & Hby).
    { destruct (selects_lookup _ _ _ _ _ _ _ Hsel He1) as [He|(-> & -> & _ & ->)].
      - destruct (Hsingle j ej He Hk1) as (Hby & Hi1 & Ht1). split_and!; try done.
        destruct Hsel; try done. simpl. rewrite lookup_insert_ne; [done|].
        intros <-. destruct (inv_byKey s Hinv _ _ Hby) as (e0 & He0 & _).
        apply lookup_lt_Some in He0. lia.
      - simpl. split_and!; try by left. rewrite <- HmK. by rewrite lookup_insert_eq. }
    split; [done|]. rewrite tagEntry_id, idEntry_id, tagEntry_tag, idEntry_tag. split.
    + case_match; [|done]. done.
    + case_match; [|done]. done.
  - (* a registration for another key *)
    rewrite (selects_byKey_ne _ _ _ _ _ K Hsel HmK).
    assert (j' ≠ j) as Hne by (intros ->; congruence).
    rewrite decide_False by done.
    destruct (selects_lookup _ _ _ _ _ _ _ Hsel He1) as [He|(_ & _ & ? & _)]; [|done].
    by apply Hsingle.
Qed.

Lemma inv_key_new : inv_key newMetricSet.
Proof. by split; simpl; intros *; rewrite ?lookup_empty, ?lookup_nil. Qed.

Lemma assigned_id_None tag id e1 :
  e_id (tagEntry tag (idEntry id e1)) = None → e_id e1 = None ∧ truthyO id = false.
Proof.
  rewrite tagEntry_id, idEntry_id.
  destruct (truthyO (e_id e1)) eqn:H1, (truthyO id) eqn:H2; simpl; intros H;
    try done; subst; simpl in *; try done.
  by destruct (e_id e1).
Qed.

Lemma selects_at_end m id s j s1 :
  selects m id s j s1 → j = length (metrics s) →
  (∀ i, id = Some i → truthy i = true → deref s (metricById s !! i) = None)
  ∧ (∀ j e, metricByKey s !! metricKey m = Some j → metrics s !! j = Some e →
            truthyO (e_id e) && truthyO id = true).
Proof.
  intros [i j0 e -> Hi Hj He Hk | j0 e Hfree Hj He Hb | Hfree Hb] Hlen; [..|done];
    apply lookup_lt_Some in He; lia.
Qed.

Lemma register_inv_key m tag id s s' :
  inv s → inv_key s → register m tag id s = Ok s' → inv_key s'.
Proof.
  intros Hinv [Hidx Halone] (j & s1 & Hsel & ->)%register_selects.
  split.
  - intros j' e' (e1 & He1 & ->)%assigned_lookup.
    rewrite assignTag_byKey, assignId_byKey.
    assert (metricKey (e_metric (if decide (j' = j)
                                 then tagEntry tag (idEntry id e1) else e1))
            = metricKey (e_metric e1)) as ->
      by (case_decide; by rewrite ?tagEntry_metric, ?idEntry_metric).
    destruct (selects_lookup _ _ _ _ _ _ _ Hsel He1) as [He|(-> & _ & _ & ->)].
    + apply Hidx in He. destruct Hsel; try done. simpl.
      rewrite lookup_insert_is_Some. destruct (decide (metricKey m = metricKey (e_metric e1)));
        [by left | by right].
    + simpl. by rewrite lookup_insert_eq.
  - intros j' e' Hby (e1 & He1 & ->)%assigned_lookup Hid j'' e''
      (e2 & He2 & ->)%assigned_lookup Hk.
    rewrite assignTag_byKey, assignId_byKey in Hby.
    assert (∀ j0 e0, metricKey (e_metric (if decide (j0 = j)
                                 then tagEntry tag (idEntry id e0) else e0))
            = metricKey (e_metric e0)) as Hmet
      by (intros j0 e0; destruct (decide (j0 = j));
          by rewrite ?tagEntry_metric, ?idEntry_metric).
    rewrite !Hmet in Hk. rewrite Hmet in Hby.
    assert (e_id e1 = None ∧ (j' = j → truthyO id = false)) as [Hid1 Hidj].
    { revert Hid. case_decide; [|done]. intros [? ?]%assigned_id_None. done. }
    clear Hid Hmet.
    destruct (selects_lookup _ _ _ _ _ _ _ Hsel He1) as [He1'|(-> & Hj & -> & ->)].
    + destruct (selects_lookup _ _ _ _ _ _ _ Hsel He2) as [He2'|(-> & Hj & -> & ->)].
      * eapply Halone; [|done..].
        destruct Hsel; try done. simpl in Hby.
        destruct (decide (metricKey m = metricKey (e_metric e1))) as [Heq|Hne].
        -- rewrite Heq, lookup_insert_eq in Hby. injection Hby as <-.
           apply lookup_lt_Some in He1'. lia.
        -- by rewrite lookup_insert_ne in Hby.
      * simpl in *. rewrite Hk, lookup_insert_eq in Hby. injection Hby as <-.
        apply lookup_lt_Some in He1'. lia.
    + simpl in *.
      destruct (selects_lookup _ _ _ _ _ _ _ Hsel He2) as [He2'|(_ & _ & -> & _)];
        [|done].
      exfalso. specialize (Hidj eq_refl).
      destruct (selects_at_end _ _ _ _ _ Hsel Hj) as [_ Hb].
      destruct (Hidx _ _ He2') as [j0 Hj0]. rewrite Hk in Hj0.
      destruct (inv_byKey s Hinv _ _ Hj0) as (e0 & He0 & _).
      specialize (Hb j0 e0 Hj0 He0). rewrite Hidj, andb_false_r in Hb. done.
Qed.

Lemma run_inv_key l s s' :
  inv s → inv_key s → forM registerCall l s = Ok s' → inv s' ∧ inv_key s'.
Proof.
  intros Hinv Hkey.
  apply (forM_preserves (λ s, inv s ∧ inv_key s)); [|done].
  intros c t t' _ [H1 H2] Hc. split; [by eapply register_inv|by eapply register_inv_key].
Qed.

(** ** What a registration leaves behind *)

Lemma register_post m tag id s s' :
  inv s → register m tag id s = Ok s' →
  ∃ j e, metrics s' !! j = Some e
         ∧ metricKey (e_metric e) = metricKey m
         ∧ (truthyO id = true → e_id e = id)
         ∧ (truthyO tag = true → truthyO (e_tag e) = true).
Proof.
  intros Hinv (j & s1 & Hsel & ->)%register_selects.
  destruct (selects_key _ _ _ _ _ Hinv Hsel) as (e1 & He1 & Hk1).
  exists j, (tagEntry tag (idEntry id e1)). split_and!.
  - apply assigned_lookup. exists e1. split; [done|]. by rewrite decide_True.
  - by rewrite tagEntry_metric, idEntry_metric.
  - intros Hid. rewrite tagEntry_id, idEntry_id, Hid, andb_true_r.
    destruct (truthyO (e_id e1)) eqn:Ht; simpl; [|done].
    destruct Hsel as [i j0 e -> Hi Hj He Hk | j0 e Hfree Hj He Hb | Hfree Hb].
    + destruct (inv_byId s Hinv _ _ Hj) as (e' & He' & Hi'). congruence.
    + assert (e1 = e) as -> by congruence. by rewrite Ht, Hid in Hb.
    + simpl in He1. rewrite lookup_app_r, Nat.sub_diag in He1 by done.
      injection He1 as <-. done.
  - intros Htag. rewrite tagEntry_tag, idEntry_tag, Htag, andb_true_r.
    destruct (truthyO (e_tag e1)) eqn:Ht; simpl; done.
Qed.

Lemma run_post c l s s' :
  inv s → forM registerCall l s = Ok s' → c ∈ l →
  ∃ j e, metrics s' !! j = Some e
         ∧ metricKey (e_metric e) = metricKey (c_metric c)
         ∧ (truthyO (c_id c) = true → e_id e = c_id c)
         ∧ (truthyO (c_tag c) = true → truthyO (e_tag e) = true).
Proof.
  intros Hinv Hrun (l1 & l2 & ->)%list_elem_of_split.
  rewrite forM_app in Hrun.
  destruct (forM registerCall l1 s) as [s1|] eqn:H1; simpl in Hrun; [|done].
  destruct (registerCall c s1) as [s2|] eqn:H2; simpl in Hrun; [|done].
  pose proof (run_inv _ _ _ Hinv H1) as Hinv1.
  destruct (register_post _ _ _ _ _ Hinv1 H2) as (j & e & He & Hk & Hid & Htag).
  destruct (run_grows _ _ _ Hrun j e He) as (e' & He' & Hm & Ht & Hi).
  exists j, e'. split_and!; [done|congruence|..].
  - intros H. rewrite Hi; [by apply Hid|]. by rewrite Hid.
  - intros H. rewrite Ht; by apply Htag.
Qed.

Lemma run_single K i t l s s' :
  inv s → single K i t s → Forall (tame K i t) l →
  forM registerCall l s = Ok s' → inv s' ∧ single K i t s'.
Proof.
  intros Hinv Hsingle Htame.
  apply (forM_preserves (λ s, inv s ∧ single K i t s)); [|done].
  intros c u u' Hc [H1 H2] Hreg. split; [by eapply register_inv|].
  eapply register_single; [done..| |done]. by eapply Forall_forall in Htame.
Qed.

Lemma single_new K i t : single K i t newMetricSet.
Proof. intros j e. simpl. by rewrite lookup_nil. Qed.

(** The registrations of a tree: the root, then one per binding. *)
Lemma elem_of_flat_map {T U : Type} (f : T → list U) l y :
  y ∈ flat_map f l ↔ ∃ x, x ∈ l ∧ y ∈ f x.
Proof.
  rewrite list_elem_of_In, in_flat_map. split.
  - intros (x & Hx & Hy). exists x. by rewrite !list_elem_of_In.
  - intros (x & Hx & Hy). exists x. by rewrite <- !list_elem_of_In.
Qed.

Lemma elem_of_calls m tag id c :
  c ∈ calls m tag id ↔
  c = {| c_metric := m; c_tag := tag; c_id := id |}
  ∨ ∃ p, p ∈ bindings m ∧ c = {| c_metric := p.2; c_tag := None; c_id := Some p.1 |}.
Proof.
  revert tag id. induction m as [st e rp ts IH] using IMetric_ind'. intros tag id.
  simpl. rewrite elem_of_cons. apply or_iff_compat_l.
  destruct e as [[expr um]|]; simpl in *.
  - rewrite Forall_forall in IH. rewrite elem_of_flat_map. split.
    + intros (p & Hp & Hc).
      apply (IH p Hp) in Hc as [->|(q & Hq & ->)].
      * exists p. split; [|done]. apply elem_of_flat_map.
        exists p. split; [done | by left].
      * exists q. split; [|done]. apply elem_of_flat_map.
        exists p. split; [done | by right].
    + intros (q & Hq & ->).
      apply elem_of_flat_map in Hq as (p & Hp & Hq).
      exists p. split; [done|]. apply (IH p Hp).
      apply elem_of_cons in Hq as [->|Hq]; [by left|]. right. by exists q.
  - split; [by intros ?%elem_of_nil | by intros (p & ?%elem_of_nil & _)].
Qed.

(** ** The key of an operand is shorter than the key of the expression *)

Lemma string_length_app s1 s2 :
  String.length (s1 +:+ s2) = String.length s1 + String.length s2.
Proof. induction s1 as [|a s1 IH]; [done|]. cbn. by rewrite <- IH. Qed.

Lemma join_length_ge sep x l :
  x ∈ l → String.length x ≤ String.length (join sep l).
Proof.
  induction l as [|p l IH]; [by intros ?%elem_of_nil|].
  intros [->|Hx]%elem_of_cons.
  - destruct l as [|q l]; [done|].
    change (join sep (p :: q :: l)) with (p +:+ sep +:+ join sep (q :: l)).
    rewrite string_length_app. lia.
  - specialize (IH Hx). destruct l as [|q l]; [by apply elem_of_nil in Hx|].
    change (join sep (p :: q :: l)) with (p +:+ sep +:+ join sep (q :: l)).
    rewrite !string_length_app. lia.
Qed.

Lemma join_length_gt x p l :
  x ∈ l → String.length x < String.length (join "|" (p :: l)).
Proof.
  intros Hx. pose proof (join_length_ge "|" x l Hx).
  destruct l as [|q l]; [by apply elem_of_nil in Hx|].
  change (join "|" (p :: q :: l)) with (p +:+ "|" +:+ join "|" (q :: l)).
  rewrite !string_length_app. cbn. lia.
Qed.

Lemma metricKey_operand_ne m e id x :
  mathExpression m = Some e → get (usingMetrics e) id = Some x →
  metricKey m ≠ metricKey x.
Proof.
  intros He Hget Heq.
  assert (String.length (metricKey x) < String.length (metricKey m)) as Hlt;
    [|rewrite Heq in Hlt; lia].
  rewrite (metricKey_unfold m). unfold keyParts. rewrite He. unfold exprParts.
  rewrite <- app_comm_cons. apply join_length_gt.
  apply elem_of_app. left. apply elem_of_flat_map.
  exists id. split.
  - rewrite sort_Permutation. unfold subKeys.
    rewrite keys_map. apply get_Some_keys. by rewrite Hget.
  - unfold subKeys. rewrite get_map, Hget. simpl. right. by left.
Qed.

Lemma get_Some_elem {T : Type} (o : list (string * T)) id x :
  get o id = Some x → (id, x) ∈ o.
Proof.
  induction o as [|[k v] o IH]; simpl; [done|].
  case_decide; [intros [= <-]; subst; by left | intros ?; right; auto].
Qed.

Lemma elem_of_bindings_top m e p :
  mathExpression m = Some e → p ∈ usingMetrics e → p ∈ bindings m.
Proof.
  destruct m as [st ex rp ts]. simpl. intros -> Hp.
  apply elem_of_flat_map. exists p. split; [done | by left].
Qed.

(** ** When a registration throws *)

Lemma register_Throw m tag id s msg :
  register m tag id s = Throw msg ↔
  msg = err_cant_happen
  ∧ ∃ i j e, id = Some i ∧ truthy i = true ∧ metricById s !! i = Some j
             ∧ metrics s !! j = Some e ∧ metricKey (e_metric e) ≠ metricKey m.
Proof.
  unfold register.
  set (F := λ existingEntry : option nat, _).
  assert (∀ o r, F o = Throw r ↔ False) as Hrest.
  { intros o r. unfold F. by destruct (obtainEntry _ _ _ _). }
  clearbody F. unfold lookupById.
  destruct id as [i|]; simpl.
  2:{ rewrite Hrest. split; [done | by intros (_ & ? & ? & ? & ? & _)]. }
  destruct (truthy i) eqn:Hi; simpl.
  2:{ rewrite Hrest. split; [done | intros (_ & ? & ? & ? & [= <-] & ? & _); congruence]. }
  destruct (deref s (metricById s !! i)) as [[j e]|] eqn:Hd.
  - apply deref_Some in Hd as [Hj He].
    case_decide as Hk; simpl.
    + split.
      * intros [= <-]. split; [done|]. by exists i, j, e.
      * by intros [-> _].
    + rewrite Hrest. split; [done|].
      intros (_ & i' & j' & e' & [= <-] & _ & Hj' & He' & Hne).
      assert (j' = j) as -> by congruence. assert (e' = e) as -> by congruence. done.
  - simpl. rewrite Hrest. split; [done|].
    intros (_ & i' & j' & e' & [= <-] & _ & Hj' & He' & Hne).
    rewrite deref_None in Hd. specialize (Hd j' Hj'). congruence.
Qed.

Lemma register_ids_from l c s s' :
  inv s → c ∈ l → ids_from l s → registerCall c s = Ok s' → ids_from l s'.
Proof.
  destruct c as [m tag id]. unfold registerCall. simpl.
  intros Hinv Hc Hids (j & s1 & Hsel & ->)%register_selects.
  destruct (selects_key _ _ _ _ _ Hinv Hsel) as (ej & Hej & Hkj).
  intros i' j' e'. rewrite assignTag_byId, assignId_byId.
  intros Hby (e1 & He1 & ->)%assigned_lookup.
  assert (metricKey (e_metric (if decide (j' = j)
                               then tagEntry tag (idEntry id e1) else e1))
          = metricKey (e_metric e1)) as ->
    by (case_decide; by rewrite ?tagEntry_metric, ?idEntry_metric).
  assert (metricById s1 = metricById s) as Hs1 by (by destruct Hsel).
  assert (metricById s !! i' = Some j' → metrics s1 !! j' = Some e1 →
          ∃ c, c ∈ l ∧ c_id c = Some i'
               ∧ metricKey (c_metric c) = metricKey (e_metric e1)) as Hold.
  { intros Hby' He1'.
    destruct (selects_lookup _ _ _ _ _ _ _ Hsel He1') as [He|(_ & Hlen & -> & _)].
    - by eapply Hids.
    - destruct (inv_byId s Hinv _ _ Hby') as (e0 & He0 & _).
      apply lookup_lt_Some in He0. lia. }
  rewrite Hej in Hby. destruct id as [i|]; [|rewrite Hs1 in Hby; by apply Hold].
  destruct (negb (truthyO (e_id ej)) && truthy i) eqn:Hb;
    [|rewrite Hs1 in Hby; by apply Hold].
  destruct (decide (i = i')) as [<-|Hne].
  - rewrite lookup_insert_eq in Hby. injection Hby as <-.
    assert (e1 = ej) as -> by congruence.
    eexists. split; [exact Hc|]. simpl. by rewrite Hkj.
  - rewrite lookup_insert_ne, Hs1 in Hby by done. by apply Hold.
Qed.

Lemma register_completes l c s :
  inv s → consistent l → ids_from l s → c ∈ l →
  ∃ s', registerCall c s = Ok s'.
Proof.
  intros Hinv Hcons Hids Hc.
  destruct (registerCall c s) as [s'|msg] eqn:Hreg; [by eexists|]. exfalso.
  apply register_Throw in Hreg as (_ & i & j & e & Hid & Hi & Hj & He & Hne).
  destruct (Hids i j e Hj He) as (c' & Hc' & Hid' & Hk').
  apply Hne. rewrite <- Hk'. by eapply Hcons.
Qed.

Lemma run_completes_from L l s :
  inv s → consistent L → ids_from L s → l ⊆ L →
  ∃ s', forM registerCall l s = Ok s'.
Proof.
  intros Hinv Hcons. revert s Hinv.
  induction l as [|c l IH]; intros s Hinv Hids Hsub; simpl; [by eexists|].
  assert (c ∈ L) as Hc by (apply Hsub; by left).
  destruct (register_completes L c s Hinv Hcons Hids Hc) as [s1 Hs1].
  rewrite Hs1. simpl. apply IH.
  - by eapply register_inv.
  - by eapply register_ids_from.
  - intros x Hx. apply Hsub. by right.
Qed.

Lemma run_completes l :
  consistent l → ∃ s', forM registerCall l newMetricSet = Ok s'.
Proof.
  intros Hcons. apply (run_completes_from l); [apply inv_new|done| |done].
  intros i j e. simpl. by rewrite lookup_empty.
Qed.

(** ** Computing a registration from the entry it selects *)

Lemma selects_register m tag id s j s1 :
  selects m id s j s1 →
  register m tag id s = Ok (assignTag j tag (assignId j id s1)).
Proof.
  intros Hsel. unfold register.
  assert ((∀ i, id = Some i → truthy i = true → deref s (metricById s !! i) = None) →
          lookupById (metricKey m) id s = Ok None) as Hnone.
  { intros Hfree. unfold lookupById.
    destruct id as [i|]; [|done]. destruct (truthy i) eqn:Hi; [|done].
    by rewrite Hfree. }
  destruct Hsel as [i j0 e -> Hi Hj He Hk | j0 e Hfree Hj He Hb | Hfree Hb].
  - unfold lookupById. rewrite Hi.
    assert (deref s (metricById s !! i) = Some (j0, e)) as ->
      by (by apply deref_Some).
    by rewrite decide_False by (by intros ?).
  - rewrite Hnone by done. simpl. unfold lookupByKey.
    assert (deref s (metricByKey s !! metricKey m) = Some (j0, e)) as ->
      by (by apply deref_Some).
    by rewrite Hb.
  - rewrite Hnone by done. simpl. unfold lookupByKey.
    destruct (deref s (metricByKey s !! metricKey m)) as [[j0 e0]|] eqn:Hd; [|done].
    apply deref_Some in Hd as [Hj0 He0]. by rewrite (Hb j0 e0).
Qed.

Lemma assigned_metrics j tag id s e :
  metrics s !! j = Some e →
  metrics (assignTag j tag (assignId j id s))
  = <[j := tagEntry tag (idEntry id e)]> (metrics s).
Proof.
  intros He. apply list_eq. intros j'.
  rewrite assignTag_lookup, assignId_lookup.
  destruct (decide (j' = j)) as [->|Hne].
  - rewrite list_lookup_insert_eq by (by eapply lookup_lt_Some).
    by rewrite He.
  - rewrite list_lookup_insert_ne by done.
    by destruct (metrics s !! j').
Qed.

Lemma assigned_metrics_push m k tag id s :
  metrics (assignTag (length (metrics s)) tag
             (assignId (length (metrics s)) id (pushEntry m k s)))
  = metrics s
    ++ [tagEntry tag (idEntry id {| e_metric := m; e_tag := None; e_id := None |})].
Proof.
  erewrite assigned_metrics
    by (simpl; by rewrite lookup_app_r, Nat.sub_diag by done).
  simpl. by rewrite insert_app_r_alt, Nat.sub_diag by done.
Qed.

(** ** Deduplication of one key *)

Lemma dedup_run K i t l c1 c2 :
  consistent l → Forall (tame K i t) l →
  truthy i = true → truthy t = true →
  c1 ∈ l → metricKey (c_metric c1) = K → c_id c1 = Some i →
  c2 ∈ l → metricKey (c_metric c2) = K → c_tag c2 = Some t →
  ∃ s, forM registerCall l newMetricSet = Ok s ∧ one_for_key K i t s.
Proof.
  intros Hcons Htame Hi Ht Hc1 Hk1 Hid1 Hc2 Hk2 Htag2.
  destruct (run_completes l Hcons) as [s Hrun]. exists s. split; [done|].
  destruct (run_single K i t l _ _ inv_new (single_new K i t) Htame Hrun)
    as [Hinv Hsingle].
  destruct (run_post c1 l _ _ inv_new Hrun Hc1) as (j1 & e1 & He1 & Hke1 & Hide1 & _).
  destruct (run_post c2 l _ _ inv_new Hrun Hc2) as (j2 & e2 & He2 & Hke2 & _ & Htage2).
  rewrite Hk1 in Hke1. rewrite Hk2 in Hke2.
  destruct (Hsingle j1 e1 He1 Hke1) as (Hby1 & _ & _).
  destruct (Hsingle j2 e2 He2 Hke2) as (Hby2 & _ & Htag).
  assert (j2 = j1) as -> by congruence. assert (e2 = e1) as -> by congruence.
  exists j1, e1. unfold entries. split_and!; try done.
  - rewrite Hide1, Hid1; [done|]. by rewrite Hid1.
  - rewrite Htag2 in Htage2. specialize (Htage2 Ht).
    destruct Htag as [Hn|?]; [|done]. by rewrite Hn in Htage2.
  - intros j' e' He' Hk'. destruct (Hsingle j' e' He' Hk') as (Hby' & _). congruence.
Qed.

Lemma addTopLevel_two tagA tagB msA msB :
  (s1 ← addTopLevel tagA msA newMetricSet; addTopLevel tagB msB s1)
  = forM registerCall (topCalls tagA msA ++ topCalls tagB msB) newMetricSet.
Proof.
  rewrite forM_app, addTopLevel_calls.
  destruct (forM registerCall (topCalls tagA msA) newMetricSet); simpl; [|done].
  apply addTopLevel_calls.
Qed.

Lemma topCalls_one tag m : topCalls tag [m] = calls m (Some tag) None.
Proof. unfold topCalls. simpl. apply app_nil_r. Qed.

(** The registrations of two top-level metrics [E] and [M], in either order. *)
Lemma dedup_calls M E M' e tagE tagM l :
  mathExpression E = Some e →
  get (usingMetrics e) "m1" = Some M' →
  metricKey M' = metricKey M →
  truthy tagM = true →
  (∀ p, p ∈ bindings E ++ bindings M → metricKey p.2 = metricKey M → p.1 = "m1") →
  (∀ p q, p ∈ bindings E ++ bindings M → q ∈ bindings E ++ bindings M →
          p.1 = q.1 → metricKey p.2 = metricKey q.2) →
  (∀ c, c ∈ l ↔ c ∈ calls E (Some tagE) None ∨ c ∈ calls M (Some tagM) None) →
  ∃ s, forM registerCall l newMetricSet = Ok s
       ∧ one_for_key (metricKey M) "m1" tagM s.
Proof.
  intros He Hget HkM' Ht Honly Hcons Hl.
  assert (metricKey E ≠ metricKey M) as HEM
    by (rewrite <- HkM'; by eapply metricKey_operand_ne).
  assert (∀ c, c ∈ l →
            (c = {| c_metric := E; c_tag := Some tagE; c_id := None |}
             ∨ c = {| c_metric := M; c_tag := Some tagM; c_id := None |})
            ∨ ∃ p, p ∈ bindings E ++ bindings M
                   ∧ c = {| c_metric := p.2; c_tag := None; c_id := Some p.1 |}) as Hshape.
  { intros c [Hc|Hc]%Hl; apply elem_of_calls in Hc as [->|(p & Hp & ->)]; eauto.
    - right. exists p. split; [|done]. apply elem_of_app. by left.
    - right. exists p. split; [|done]. apply elem_of_app. by right. }
  eapply (dedup_run (metricKey M) "m1" tagM l
            {| c_metric := M'; c_tag := None; c_id := Some "m1" |}
            {| c_metric := M; c_tag := Some tagM; c_id := None |}); try done.
  - intros c c' i Hc Hc' Hid Hid'.
    destruct (Hshape c Hc) as [[->| ->]|(p & Hp & ->)]; [done..|].
    destruct (Hshape c' Hc') as [[->| ->]|(q & Hq & ->)]; [done..|].
    simpl in *. apply Hcons; [done..|congruence].
  - apply Forall_forall. intros c Hc Hk.
    destruct (Hshape c Hc) as [[->| ->]|(p & Hp & ->)]; simpl in *.
    + done.
    + split; [by left | by right].
    + split; [|by left]. right. f_equal. by apply Honly.
  - apply Hl. left. apply elem_of_calls. right. exists ("m1", M'). split; [|done].
    eapply elem_of_bindings_top; [done|]. by apply get_Some_elem.
  - apply Hl. right. apply elem_of_calls. by left.
Qed.

(** ** Rendering *)

Lemma lookup_setIf c k v o k' :
  setIf c k v o !! k' = if c && bool_decide (k = k') then Some v else o !! k'.
Proof.
  unfold setIf. destruct c; simpl; [|done]. case_bool_decide as Hk.
  - subst. apply lookup_insert_eq.
  - by apply lookup_insert_ne.
Qed.

Lemma lookup_dropUndefined o k :
  dropUndefined o !! k
  = match o !! k with Some VUndefined => None | r => r end.
Proof.
  unfold dropUndefined. destruct (o !! k) as [v|] eqn:Hk.
  - destruct (decide (v = VUndefined)) as [->|Hne].
    + apply map_lookup_filter_None. right. intros v Hv. simpl. intros Hn. congruence.
    + transitivity (Some v); [|by destruct v].
      apply map_lookup_filter_Some. done.
  - apply map_lookup_filter_None. by left.
Qed.

Lemma last_statTokens stat : ∃ s, last (statTokens stat) = Some (TStr s).
Proof.
  unfold statTokens.
  assert (∀ (l : list Dimension) (pre : list Token),
            (∃ s, last pre = Some (TStr s)) →
            ∃ s, last (pre ++ flat_map (λ dim, [TStr (name dim); TStr (value dim)]) l)
                 = Some (TStr s)) as Hgen.
  { induction l as [|d l IH]; intros pre Hpre; simpl.
    - by rewrite app_nil_r.
    - rewrite (app_assoc pre [TStr (name d); TStr (value d)] _ : pre ++ TStr (name d) :: TStr (value d) :: _ = _). apply IH.
      exists (value d).
      change [TStr (name d); TStr (value d)] with ([TStr (name d)] ++ [TStr (value d)]).
      by rewrite app_assoc, last_snoc. }
  apply Hgen. by eexists.
Qed.

Lemma row_options_row ret opts :
  (ret = [] ∨ ∃ s, last ret = Some (TStr s)) →
  row_options (if decide (opts = ∅) then ret else ret ++ [TOpts opts]) = opts.
Proof.
  intros Hret. unfold row_options. case_decide as Ho.
  - subst. by destruct Hret as [->|[s ->]].
  - by rewrite last_snoc.
Qed.

(** The row of a metric with one variant, and the options it ends with. *)
Lemma metricGraphJson_options m yAxis id :
  oneVariant m = true →
  ∃ row, metricGraphJson m yAxis id = Ok row
         ∧ row_options row
           = dropUndefined
               (let options := statOptions m in
                let options := setIf (negb (truthyO yAxis)) "visible" (VBool false) options in
                let options :=
                  setIf (negb (bool_decide (yAxis = Some "left"))) "yAxis" (optV yAxis) options in
                let options := setIf (truthyO id) "id" (optV id) options in
                setIf (negb (bool_decide (options !! "visible" = Some (VBool false)))
                       && truthyKey options "expression"
                       && negb (truthyKey options "label"))
                  "label" (VStr (toString m)) options).
Proof.
  unfold oneVariant, metricGraphJson, dispatchMetric, statOptions.
  destruct (metricStat m) as [stat|], (mathExpression m) as [expr|]; try done; intros _.
  - eexists. split; [reflexivity|]. simpl. apply row_options_row.
    right. apply last_statTokens.
  - eexists. split; [reflexivity|]. simpl. apply row_options_row. by left.
Qed.

Lemma statOptions_lookup m k :
  k ≠ "accountId" → k ≠ "region" → k ≠ "expression" →
  statOptions m !! k
  = match metricStat m, mathExpression m with
    | Some stat, None =>
        if bool_decide (k = "stat") then
          match statistic stat with
          | Some st =>
              if truthy st && negb (bool_decide (st = "Average"))
              then Some (VStr st) else renderingProperties m !! k
          | None => renderingProperties m !! k
          end
        else if bool_decide (k = "period") then
          match period stat with
          | Some p =>
              if negb (toSeconds p =? 300)%N
              then Some (VNum (Z.of_N (toSeconds p))) else renderingProperties m !! k
          | None => renderingProperties m !! k
          end
        else renderingProperties m !! k
    | _, _ => renderingProperties m !! k
    end.
Proof.
  intros Ha Hr He. unfold statOptions, withStat_render.
  destruct (metricStat m) as [stat|], (mathExpression m) as [expr|]; try done.
  - simpl.
    assert (∀ (o : gmap string JsValue),
      match statistic stat with
      | Some st => setIf (truthy st && negb (bool_decide (st = "Average"))) "stat" (VStr st) o
      | None => o
      end !! k
      = if bool_decide (k = "stat") then
          match statistic stat with
          | Some st => if truthy st && negb (bool_decide (st = "Average"))
                       then Some (VStr st) else o !! k
          | None => o !! k
          end
        else o !! k) as Hstat.
    { intros o. destruct (statistic stat) as [st|];
        [|by destruct (bool_decide (k = "stat"))].
      rewrite lookup_setIf. destruct (decide (k = "stat")) as [->|Hk].
      - rewrite (bool_decide_eq_true_2 ("stat" = "stat")) by done.
        by rewrite andb_true_r.
      - rewrite (bool_decide_eq_false_2 ("stat" = k)) by (by intros ?).
        rewrite (bool_decide_eq_false_2 (k = "stat")) by done.
        by rewrite andb_false_r. }
    assert (∀ (o : gmap string JsValue),
      match period stat with
      | Some p => setIf (negb (toSeconds p =? 300)%N) "period" (VNum (Z.of_N (toSeconds p))) o
      | None => o
      end !! k
      = if bool_decide (k = "period") then
          match period stat with
          | Some p => if negb (toSeconds p =? 300)%N
                      then Some (VNum (Z.of_N (toSeconds p))) else o !! k
          | None => o !! k
          end
        else o !! k) as Hperiod.
    { intros o. destruct (period stat) as [p|];
        [|by destruct (bool_decide (k = "period"))].
      rewrite lookup_setIf. destruct (decide (k = "period")) as [->|Hk].
      - rewrite (bool_decide_eq_true_2 ("period" = "period")) by done.
        by rewrite andb_true_r.
      - rewrite (bool_decide_eq_false_2 ("period" = k)) by (by intros ?).
        rewrite (bool_decide_eq_false_2 (k = "period")) by done.
        by rewrite andb_false_r. }
    rewrite Hstat, Hperiod, !lookup_setIf.
    rewrite (bool_decide_eq_false_2 ("region" = k)) by (by intros ?).
    rewrite (bool_decide_eq_false_2 ("accountId" = k)) by (by intros ?).
    rewrite !andb_false_r.
    destruct (decide (k = "stat")) as [->|Hk1].
    + rewrite (bool_decide_eq_true_2 ("stat" = "stat")) by done.
      rewrite (bool_decide_eq_false_2 ("stat" = "period")) by done.
      by destruct (statistic stat).
    + by rewrite (bool_decide_eq_false_2 (k = "stat")) by done.
  - by rewrite lookup_insert_ne by (by intros ?).
Qed.


(** * The claims of the specification *)

(** ** C1: deduplication through expressions *)

(** C1, as amended.  Let the expression [E] bind the identifier "m1" to a
    metric with the structural content of [M].  If, in the expression trees of
    [E] and [M], "m1" is the only identifier bound to a metric with the key of
    [M], and no identifier is bound to metrics of two different keys, then
    registering [E] and [M] at top level, [M] with a non-empty tag, in either
    order, completes, and the resulting set has exactly one entry for the key
    of [M]; that entry carries the tag given to [M] and the identifier "m1". *)
Theorem dedup_via_expression (M E M' : IMetric) (e : MetricExpressionConfig IMetric)
    (tagE tagM : string) :
  mathExpression E = Some e →
  get (usingMetrics e) "m1" = Some M' →
  content M' = content M →
  truthy tagM = true →
  (∀ p, p ∈ bindings E ++ bindings M → metricKey p.2 = metricKey M → p.1 = "m1") →
  (∀ p q, p ∈ bindings E ++ bindings M → q ∈ bindings E ++ bindings M →
          p.1 = q.1 → metricKey p.2 = metricKey q.2) →
  (∃ s, (s1 ← addTopLevel tagE [E] newMetricSet; addTopLevel tagM [M] s1) = Ok s
        ∧ one_for_key (metricKey M) "m1" tagM s)
  ∧ (∃ s, (s1 ← addTopLevel tagM [M] newMetricSet; addTopLevel tagE [E] s1) = Ok s
          ∧ one_for_key (metricKey M) "m1" tagM s).
Proof.
  intros He Hget Hcontent Ht Honly Hcons.
  apply metricKey_same_content in Hcontent.
  split; rewrite addTopLevel_two, !topCalls_one;
    apply (dedup_calls M E M' e tagE tagM); try assumption;
    intros c; rewrite elem_of_app; (split; intros [?|?]; auto).
Qed.

Lemma dedup_via_expression_witness :
  (∃ s, (s1 ← addTopLevel "left" [cpuDouble] newMetricSet;
         addTopLevel "right" [cpu] s1) = Ok s
        ∧ one_for_key (metricKey cpu) "m1" "right" s)
  ∧ (∃ s, (s1 ← addTopLevel "right" [cpu] newMetricSet;
           addTopLevel "left" [cpuDouble] s1) = Ok s
          ∧ one_for_key (metricKey cpu) "m1" "right" s).
Proof.
  apply (dedup_via_expression cpu cpuDouble cpuLabelled
           {| expression := "m1 * 2"; usingMetrics := [("m1", cpuLabelled)] |}).
  - reflexivity.
  - reflexivity.
  - reflexivity.
  - reflexivity.
  - intros p Hp _. simpl in Hp. apply list_elem_of_singleton in Hp. by subst p.
  - intros p q Hp Hq _. simpl in Hp, Hq.
    apply list_elem_of_singleton in Hp, Hq. by subst p q.
Defined.

(** C1 as stated fails: an expression that binds both "m1" and "m2" to [cpu],
    registered before [cpu] itself, leaves two entries for the key of [cpu];
    and with an expression that binds "m1" to [cpu] and, one level down, to
    [net], the registration throws and yields no set at all. *)
Lemma dedup_counterexample :
  get [("m1", cpu); ("m2", cpu)] "m1" = Some cpu
  ∧ (∃ s, (s1 ← addTopLevel "left" [cpuTwice] newMetricSet;
           addTopLevel "right" [cpu] s1) = Ok s
          ∧ (metricKey ∘ e_metric) <$> entries s
            = [metricKey cpuTwice; metricKey cpu; metricKey cpu]
          ∧ ∀ i t, ¬ one_for_key (metricKey cpu) i t s)
  ∧ (s1 ← addTopLevel "left" [cpuOverNet] newMetricSet;
     addTopLevel "right" [cpu] s1) = Throw err_cant_happen.
Proof.
  split; [reflexivity|]. split; [|vm_compute; reflexivity].
  eexists. split; [vm_compute; reflexivity|].
  split; [vm_compute; reflexivity|].
  intros i t (j & e & _ & _ & _ & _ & Huniq).
  assert (1 = j) as H1 by (eapply Huniq; vm_compute; reflexivity).
  assert (2 = j) as H2 by (eapply Huniq; vm_compute; reflexivity).
  congruence.
Qed.

(** ** C2: identifier conflicts in one expression tree *)

(** C2.  On a tree in which every metric is a stat ref or an expression,
    [validateNoIdConflicts] throws iff some identifier is bound, anywhere in
    the tree, to two metrics with different structural keys.  The error it
    throws is the text
    [The ID 'id' used for two metrics in the expression: 'a' and 'b'. Rename one.]
    with such an identifier for [id] and what [toString()] prints of two
    such metrics for [a] and [b].  Without such an identifier it returns
    normally. *)
Theorem validateNoIdConflicts_spec (expression : IMetric) :
  wf expression = true →
  ((∃ msg, validateNoIdConflicts expression = Throw msg) ↔ conflict expression)
  ∧ (∀ msg, validateNoIdConflicts expression = Throw msg →
       ∃ id a b, msg = "The ID '" +:+ id
                       +:+ "' used for two metrics in the expression: '"
                       +:+ toString a +:+ "' and '" +:+ toString b
                       +:+ "'. Rename one."
                 ∧ (id, a) ∈ bindings expression ∧ (id, b) ∈ bindings expression
                 ∧ metricKey a ≠ metricKey b)
  ∧ (¬ conflict expression → validateNoIdConflicts expression = Ok ()).
Proof.
  intros Hwf. unfold validateNoIdConflicts.
  rewrite (visit_bindings _ _ Hwf).
  pose proof (check_loop (bindings expression) ∅) as Hloop.
  destruct (forM check (bindings expression) ∅) as [seen|msg0]; simpl.
  - assert (¬ conflict expression) as Hnc.
    { intros (id & a & b & Ha & Hb & Hne). apply Hne. eapply Hloop; [done|by right]. }
    split_and!; [|done..]. split; [by intros [? ?] | done].
  - destruct Hloop as (id & a & b & -> & Ha & [Hb|Hb] & Hne);
      [by rewrite lookup_empty in Hb|].
    assert (conflict expression) as Hc by (exists id, b, a; done).
    split_and!.
    + split; [done | by eexists].
    + intros msg [= <-]. exists id, a, b. split_and!; [reflexivity|done..].
    + done.
Qed.

Lemma validateNoIdConflicts_witness :
  validateNoIdConflicts nested
  = Throw "The ID 'x' used for two metrics in the expression: 'AWS/EC2/NetworkIn' and 'AWS/EC2/CPUUtilization'. Rename one."
  ∧ conflict nested
  ∧ ∃ id a b,
      "The ID 'x' used for two metrics in the expression: 'AWS/EC2/NetworkIn' and 'AWS/EC2/CPUUtilization'. Rename one."
      = "The ID '" +:+ id +:+ "' used for two metrics in the expression: '"
        +:+ toString a +:+ "' and '" +:+ toString b +:+ "'. Rename one."
      ∧ (id, a) ∈ bindings nested ∧ (id, b) ∈ bindings nested
      ∧ metricKey a ≠ metricKey b.
Proof.
  destruct (validateNoIdConflicts_spec nested eq_refl) as (Hiff & Hmsg & _).
  assert (validateNoIdConflicts nested
          = Throw "The ID 'x' used for two metrics in the expression: 'AWS/EC2/NetworkIn' and 'AWS/EC2/CPUUtilization'. Rename one.")
    as Hthrow by (vm_compute; reflexivity).
  split; [exact Hthrow|]. split.
  - apply Hiff. eexists. exact Hthrow.
  - apply Hmsg. exact Hthrow.
Defined.

(** ** C3: the key of a stat ref is not injective *)

(** C3 fails on the code: [oneDim] and [twoDims] are stat refs with different
    sequences of dimensions, and [metricKey] gives both the same string. *)
Theorem metricKey_collision :
  (dimensions <$> metricStat oneDim) ≠ (dimensions <$> metricStat twoDims)
  ∧ metricKey oneDim = metricKey twoDims
  ∧ metricKey oneDim = "NS|M|d|x|y|z|Average|300".
Proof. split_and!; [by vm_compute | by vm_compute..]. Qed.

(** ** C4: the key is a function of the structural content *)

(** C4.  Metrics with equal structural content have equal keys, whatever their
    rendering properties; so do the objects that denote them, whatever their
    key slots hold (a filled slot holds what [metricKey] stored there), and
    the key read through the slot is the computed key.  The key of an
    expression is its expression string followed, for each identifier of
    [usingMetrics] in sorted order, by the identifier and the key of the metric
    it refers to, joined by "|"; hence two expressions with the same
    expression string whose identifiers refer to metrics with the same keys
    have the same key, in whatever order the identifiers were inserted. *)
Theorem metricKey_structural :
  (∀ m1 m2, content m1 = content m2 → metricKey m1 = metricKey m2)
  ∧ (∀ o1 o2, coherent o1 → coherent o2 →
              content (forget o1) = content (forget o2) →
              (metricKey_cached o1).1 = (metricKey_cached o2).1
              ∧ (metricKey_cached o1).1 = metricKey (forget o1))
  ∧ (∀ m e, mathExpression m = Some e → metricStat m = None →
            metricKey m
            = join "|" (expression e ::
                        flat_map (λ id, [id; from_option metricKey "undefined"
                                               (get (usingMetrics e) id)])
                                 (sort (keys (usingMetrics e))))
            ∧ Sorted str_le (sort (keys (usingMetrics e)))
            ∧ sort (keys (usingMetrics e)) ≡ₚ keys (usingMetrics e))
  ∧ (∀ m1 m2 e1 e2,
       mathExpression m1 = Some e1 → mathExpression m2 = Some e2 →
       metricStat m1 = metricStat m2 →
       expression e1 = expression e2 →
       NoDup (keys (usingMetrics e1)) → NoDup (keys (usingMetrics e2)) →
       (∀ id, metricKey <$> get (usingMetrics e1) id
              = metricKey <$> get (usingMetrics e2) id) →
       metricKey m1 = metricKey m2).
Proof.
  split_and!.
  - apply metricKey_same_content.
  - intros o1 o2 Hc1 Hc2 Hcontent.
    destruct (metricKey_cached_ok o1 Hc1) as (-> & _).
    destruct (metricKey_cached_ok o2 Hc2) as (-> & _).
    split; [by apply metricKey_same_content | done].
  - intros m e He Hst. split_and!;
      [by apply metricKey_expression | apply sort_Sorted | apply sort_Permutation].
  - apply metricKey_expression_ext.
Qed.

Lemma metricKey_structural_witness :
  metricKey cpu = metricKey cpuLabelled
  ∧ (metricKey_cached (fresh cpu)).1 = (metricKey_cached (fresh cpuLabelled)).1
  ∧ metricKey sumAB = metricKey sumBA.
Proof.
  destruct metricKey_structural as (Hcontent & Hcache & _ & Hext). split_and!.
  - apply Hcontent. reflexivity.
  - apply Hcache; [apply coherent_fresh | apply coherent_fresh | reflexivity].
  - apply (Hext sumAB sumBA
             {| expression := "a + b"; usingMetrics := [("a", cpu); ("b", net)] |}
             {| expression := "a + b"; usingMetrics := [("b", net); ("a", cpuLabelled)] |});
      try reflexivity.
    + apply (bool_decide_unpack _). vm_compute. exact I.
    + apply (bool_decide_unpack _). vm_compute. exact I.
    + intros id. simpl. repeat case_decide; subst; try done.
Defined.

(** ** C5: when a registration merges *)

(** C5, as amended.  Take a set reached by registrations from the empty set,
    and a metric whose structural key is indexed, under it the entry [e] at
    position [j].  If a non-empty identifier is supplied, no entry exists
    under that identifier, and [e] has an identifier, then that identifier
    differs from the supplied one and the registration appends a new entry.
    The registration throws exactly when the supplied identifier is bound to
    an entry with a different structural key, and then it throws the
    defensive error.  In every remaining case it merges into an existing
    entry for the same key without adding an entry: into the entry bound to
    the supplied identifier when there is one, and otherwise into [e]; in
    particular into [e] when [e] has no identifier, or no identifier is
    supplied, or the identifiers are the same. *)
Theorem merge_rule (l : list Call) (s : MetricSet) (metric : IMetric)
    (tag id : option string) (j : nat) (e : MetricEntry) :
  forM registerCall l newMetricSet = Ok s →
  metricByKey s !! metricKey metric = Some j →
  entries s !! j = Some e →
  let bound := ∃ i k, id = Some i ∧ truthy i = true ∧ metricById s !! i = Some k in
  let separate := truthyO id = true ∧ ¬ bound ∧ truthyO (e_id e) = true in
  let clash := ∃ i k ek, id = Some i ∧ truthy i = true ∧ metricById s !! i = Some k
                         ∧ entries s !! k = Some ek
                         ∧ metricKey (e_metric ek) ≠ metricKey metric in
  (separate →
     e_id e ≠ id
     ∧ ∃ s', register metric tag id s = Ok s'
             ∧ entries s'
               = entries s
                 ++ [tagEntry tag {| e_metric := metric; e_tag := None; e_id := id |}])
  ∧ ((∃ msg, register metric tag id s = Throw msg) ↔ clash)
  ∧ (∀ msg, register metric tag id s = Throw msg → msg = err_cant_happen)
  ∧ (¬ separate → ¬ clash →
     ∃ s' k ek,
       register metric tag id s = Ok s'
       ∧ entries s !! k = Some ek
       ∧ metricKey (e_metric ek) = metricKey metric
       ∧ entries s' = <[k := tagEntry tag (idEntry id ek)]> (entries s)
       ∧ (∀ i k', id = Some i → truthy i = true → metricById s !! i = Some k' →
                  k = k')
       ∧ (¬ bound → k = j)
       ∧ (truthyO (e_id e) = false ∨ truthyO id = false ∨ e_id e = id → k = j)).
Proof.
  unfold entries. intros Hrun Hby He. cbv zeta.
  destruct (run_inv_key _ _ _ inv_new inv_key_new Hrun) as [Hinv Hkey].
  split_and!.
  - intros (Hid & Hnb & Heid).
    destruct id as [i|]; [|done]. simpl in Hid.
    assert (metricById s !! i = None) as Hnone.
    { destruct (metricById s !! i) as [k|] eqn:Hk; [|done].
      exfalso. apply Hnb. by exists i, k. }
    split.
    { intros Heq. destruct (inv_id s Hinv j e i He Heq) as [? _]. congruence. }
    eexists. split.
    + apply selects_register, sel_fresh.
      * intros i' [= <-] _. by rewrite Hnone.
      * intros j0 e0 Hj0 He0. assert (j0 = j) as -> by congruence.
        assert (e0 = e) as -> by congruence. simpl. by rewrite Heid, Hid.
    + rewrite assigned_metrics_push. do 3 f_equal.
      unfold idEntry. simpl. by rewrite Hid.
  - split.
    + intros [msg Hthrow]. by apply register_Throw in Hthrow as [_ Hex].
    + intros Hclash. exists err_cant_happen. by apply register_Throw.
  - intros msg Hthrow. by apply register_Throw in Hthrow as [-> _].
  - intros Hns Hnc.
    destruct (register metric tag id s) as [s'|msg] eqn:Hreg.
    2:{ exfalso. apply Hnc. by apply register_Throw in Hreg as [_ Hex]. }
    apply register_selects in Hreg as (k & s1 & Hsel & ->).
    destruct Hsel as [i j0 e0 -> Hi Hj He0 Hk | j0 e0 Hfree Hj He0 Hb | Hfree Hb].
    + eexists _, j0, e0. split_and!; try done; [by apply assigned_metrics| | |].
      * intros i' k' [= <-] _ Hk'. congruence.
      * intros Hnb. exfalso. apply Hnb. by exists i, j0.
      * intros [Hno|[Hno|Heq]].
        -- pose proof (inv_id_truthy s j e Hinv He Hno) as Hnone.
           destruct (inv_byKey s Hinv _ _ Hby) as (e' & He' & Hke).
           assert (e' = e) as -> by congruence.
           eapply (key_alone s Hkey j e); try done; congruence.
        -- simpl in Hno. congruence.
        -- destruct (inv_id s Hinv j e i He Heq) as [? _]. congruence.
    + assert (j0 = j) as -> by congruence.
      eexists _, j, e0. split_and!; try done; [|by apply assigned_metrics|].
      * destruct (inv_byKey s Hinv _ _ Hby) as (e' & He' & Hke). congruence.
      * intros i k' -> Hi Hk'. exfalso.
        specialize (Hfree i eq_refl Hi).
        apply deref_byId_None in Hfree; [congruence|done].
    + exfalso. apply Hns. specialize (Hb j e Hby He).
      apply andb_true_iff in Hb as [Hb1 Hb2]. split_and!; try done.
      intros (i & k & -> & Hi & Hk).
      specialize (Hfree i eq_refl Hi).
      apply deref_byId_None in Hfree; [congruence|done].
Qed.

Lemma merge_rule_witness :
  ∃ s', register cpu None (Some "m2")
          {| metrics := [ {| e_metric := cpuDouble; e_tag := Some "left"; e_id := None |};
                          {| e_metric := cpuLabelled; e_tag := None; e_id := Some "m1" |} ];
             metricById := {[ "m1" := 1 ]};
             metricByKey := {[ metricKey cpuDouble := 0; metricKey cpu := 1 ]} |} = Ok s'
        ∧ entries s'
          = [ {| e_metric := cpuDouble; e_tag := Some "left"; e_id := None |};
              {| e_metric := cpuLabelled; e_tag := None; e_id := Some "m1" |};
              {| e_metric := cpu; e_tag := None; e_id := Some "m2" |} ].
Proof.
  refine (proj2 (proj1 (merge_rule (calls cpuDouble (Some "left") None) _ cpu None
                          (Some "m2") 1
                          {| e_metric := cpuLabelled; e_tag := None; e_id := Some "m1" |}
                          _ _ _) _)).
  - vm_compute. reflexivity.
  - vm_compute. reflexivity.
  - vm_compute. reflexivity.
  - split_and!; [reflexivity| |reflexivity].
    intros (i & k & [= <-] & _ & Hk). vm_compute in Hk. discriminate.
Defined.

(** C5 as stated fails: after registering [cpuTimes2] and [net], the entry for
    the key of [net] has no identifier, yet registering [net] under the
    identifier "x" does not merge into it: it throws. *)
Lemma merge_rule_counterexample :
  ∃ s e, addTopLevel "left" [cpuTimes2; net] newMetricSet = Ok s
         ∧ metricByKey s !! metricKey net = Some 2
         ∧ entries s !! 2 = Some e
         ∧ e_id e = None
         ∧ register net None (Some "x") s = Throw err_cant_happen.
Proof.
  eexists _, _. split; [vm_compute; reflexivity|].
  split_and!; vm_compute; reflexivity.
Qed.

(** ** C6: the first tag wins *)

Lemma content_mathExpression_None m m' :
  content m = content m' → mathExpression m = None → mathExpression m' = None.
Proof.
  destruct m as [st [e|] rp ts], m' as [st' [e'|] rp' ts']; simpl; try done.
Qed.

(** C6.  Registering a stat ref at top level under a non-empty tag and then a
    structurally equal metric under another tag, on a new set, yields exactly
    one entry, tagged with the first tag; and no [addTopLevel] call, with
    whatever it expands, changes or removes the tag of an entry that has
    one. *)
Theorem first_tag_wins :
  (∀ (M M' : IMetric) (t1 t2 : string),
     mathExpression M = None → content M = content M' → truthy t1 = true →
     ∃ s, (s1 ← addTopLevel t1 [M] newMetricSet; addTopLevel t2 [M'] s1) = Ok s
          ∧ entries s = [{| e_metric := M; e_tag := Some t1; e_id := None |}])
  ∧ (∀ (tag : string) (ms : list IMetric) (s s' : MetricSet) (j : nat) (e : MetricEntry),
       addTopLevel tag ms s = Ok s' →
       entries s !! j = Some e → truthyO (e_tag e) = true →
       ∃ e', entries s' !! j = Some e' ∧ e_tag e' = e_tag e
             ∧ e_metric e' = e_metric e).
Proof.
  split.
  - intros M M' t1 t2 HM Hcontent Ht1.
    pose proof (content_mathExpression_None _ _ Hcontent HM) as HM'.
    apply metricKey_same_content in Hcontent.
    assert (∀ m tag, mathExpression m = None →
              calls m tag None = [{| c_metric := m; c_tag := tag; c_id := None |}])
      as Hcalls by (by intros [st ex rp ts] tag; simpl; intros ->).
    rewrite addTopLevel_two, !topCalls_one, !Hcalls by done. simpl.
    unfold registerCall. simpl.
    assert (register M (Some t1) None newMetricSet
            = Ok {| metrics := [{| e_metric := M; e_tag := Some t1; e_id := None |}];
                    metricById := ∅;
                    metricByKey := {[ metricKey M := 0 ]} |}) as ->.
    { erewrite selects_register; [|apply sel_fresh; [done|]].
      - f_equal. unfold assignId, assignTag, pushEntry, tagEntry. simpl. by rewrite Ht1.
      - intros j e. simpl. by rewrite lookup_empty. }
    simpl.
    erewrite selects_register.
    2:{ eapply (sel_by_key _ _ _ 0); simpl; [done| |reflexivity|].
        - rewrite Hcontent. apply lookup_singleton_eq.
        - reflexivity. }
    eexists. split; [done|]. unfold entries.
    erewrite assigned_metrics by reflexivity. simpl.
    unfold tagEntry, idEntry. simpl. by rewrite Ht1.
  - intros tag ms s s' j e Hadd He Htag.
    destruct (addTopLevel_grows _ _ _ _ Hadd j e He) as (e' & He' & Hm & Ht & _).
    exists e'. split_and!; [done|by apply Ht|done].
Qed.

Lemma first_tag_wins_witness :
  ∃ s, (s1 ← addTopLevel "left" [cpu] newMetricSet;
        addTopLevel "right" [cpuLabelled] s1) = Ok s
       ∧ entries s = [{| e_metric := cpu; e_tag := Some "left"; e_id := None |}].
Proof.
  apply (proj1 first_tag_wins cpu cpuLabelled "left" "right"); reflexivity.
Defined.

(** ** C7: the options of a rendered row *)




(** ** C8: one metric per axis *)

Lemma result_bind_Ok {T U : Type} (x : T) (k : T → Result U) : Ok x ≫= k = k x.
Proof. reflexivity. Qed.

Lemma metricGraphJson_right m st :
  metricStat m = Some st → mathExpression m = None →
  ∃ opts, metricGraphJson m (Some "right") None = Ok (statTokens st ++ [TOpts opts])
          ∧ opts !! "yAxis" = Some (VStr "right")
          ∧ (period st = Some {| toSeconds := 300 |} → statistic st = Some "Average" →
             region st = None → account st = None → renderingProperties m = ∅ →
             opts = {[ "yAxis" := VStr "right" ]}).
Proof.
  intros Hst He. unfold metricGraphJson, dispatchMetric. rewrite Hst, He. simpl.
  match goal with |- context [dropUndefined ?o] => set (opts := dropUndefined o) end.
  assert (opts !! "yAxis" = Some (VStr "right")) as Hy.
  { unfold opts. rewrite lookup_dropUndefined, !lookup_setIf.
    rewrite (bool_decide_eq_false_2 ("label" = "yAxis")) by done.
    rewrite (bool_decide_eq_false_2 ("id" = "yAxis")) by done.
    rewrite (bool_decide_eq_true_2 ("yAxis" = "yAxis")) by done.
    by rewrite !andb_false_r. }
  exists opts. split_and!; [|done|].
  - rewrite decide_False; [done|]. intros Hempty. by rewrite Hempty in Hy.
  - intros Hper Hstat Hreg Hacc Hrp. unfold opts, withStat_render.
    rewrite Hper, Hstat, Hreg, Hacc, Hrp. by vm_compute.
Qed.

(** C8, as amended.  For [cpu], the stat ref of the example, and any stat ref
    [statB] with another structural key, [allMetricsGraphJson [cpu] [statB]]
    returns exactly two rows: the four tokens of [cpu] with no options object,
    and the tokens of [statB] followed by an options object with
    [yAxis: "right"], which is the only option when [statB] has the default
    period and statistic, no region, no account and no rendering
    properties. *)
Theorem two_axes (statB : IMetric) (st : MetricStatConfig) :
  metricStat statB = Some st → mathExpression statB = None →
  metricKey statB ≠ metricKey cpu →
  ∃ optsB,
    allMetricsGraphJson [cpu] [statB]
    = Ok [ [TStr "AWS/EC2"; TStr "CPUUtilization"; TStr "InstanceId"; TStr "i-1"];
           statTokens st ++ [TOpts optsB] ]
    ∧ optsB !! "yAxis" = Some (VStr "right")
    ∧ (period st = Some {| toSeconds := 300 |} → statistic st = Some "Average" →
       region st = None → account st = None → renderingProperties statB = ∅ →
       optsB = {[ "yAxis" := VStr "right" ]}).
Proof.
  intros Hst He Hkey.
  destruct (metricGraphJson_right statB st Hst He) as (optsB & Hrow & Hy & Hdef).
  exists optsB. split_and!; [|done..].
  unfold allMetricsGraphJson.
  set (s1 := {| metrics := [{| e_metric := cpu; e_tag := Some "left"; e_id := None |}];
                metricById := ∅;
                metricByKey := {[ metricKey cpu := 0 ]} |}).
  assert (addTopLevel "left" [cpu] newMetricSet = Ok s1) as -> by (by vm_compute).
  rewrite result_bind_Ok.
  assert (addTopLevel "right" [statB] s1
          = Ok (assignTag 1 (Some "right")
                  (assignId 1 None (pushEntry statB (metricKey statB) s1)))) as ->.
  { rewrite addTopLevel_calls, topCalls_one.
    assert (calls statB (Some "right") None
            = [{| c_metric := statB; c_tag := Some "right"; c_id := None |}]) as ->
      by (by destruct statB; simpl in *; subst).
    simpl. unfold registerCall. simpl.
    erewrite selects_register; [done|]. apply sel_fresh; [done|].
    intros j e. simpl. by rewrite lookup_singleton_ne. }
  rewrite result_bind_Ok.
  assert (entries (assignTag 1 (Some "right")
                     (assignId 1 None (pushEntry statB (metricKey statB) s1)))
          = [ {| e_metric := cpu; e_tag := Some "left"; e_id := None |};
              {| e_metric := statB; e_tag := Some "right"; e_id := None |} ]) as ->.
  { unfold entries. erewrite assigned_metrics by reflexivity. reflexivity. }
  cbn [mapM e_metric e_tag e_id].
  assert (metricGraphJson cpu (Some "left") None
          = Ok [TStr "AWS/EC2"; TStr "CPUUtilization"; TStr "InstanceId"; TStr "i-1"])
    as -> by (by vm_compute).
  by rewrite Hrow.
Qed.

Lemma two_axes_witness :
  ∃ optsB,
    allMetricsGraphJson [cpu] [net]
    = Ok [ [TStr "AWS/EC2"; TStr "CPUUtilization"; TStr "InstanceId"; TStr "i-1"];
           [TStr "AWS/EC2"; TStr "NetworkIn"; TStr "InstanceId"; TStr "i-1"; TOpts optsB] ]
    ∧ optsB = {[ "yAxis" := VStr "right" ]}.
Proof.
  destruct (two_axes net
              {| namespace := "AWS/EC2"; metricName := "NetworkIn";
                 dimensions := Some [{| name := "InstanceId"; value := "i-1" |}];
                 statistic := Some "Average"; period := Some {| toSeconds := 300 |};
                 region := None; account := None |})
    as (optsB & Hrows & _ & Hdef).
  - reflexivity.
  - reflexivity.
  - vm_compute. discriminate.
  - exists optsB. split; [exact Hrows|]. apply Hdef; reflexivity.
Defined.

(** C8 as stated fails: the row of [cpu] does not end with an empty options
    object, whatever the second row is; and a second stat ref with the
    structural content of [cpu] gives one row, not two. *)
Lemma two_axes_counterexample :
  (¬ ∃ rowB,
       allMetricsGraphJson [cpu] [net]
       = Ok [ [TStr "AWS/EC2"; TStr "CPUUtilization"; TStr "InstanceId"; TStr "i-1";
               TOpts ∅];
              rowB ])
  ∧ allMetricsGraphJson [cpu] [cpuLabelled]
    = Ok [ [TStr "AWS/EC2"; TStr "CPUUtilization"; TStr "InstanceId"; TStr "i-1"] ].
Proof.
  split.
  - intros [rowB H]. vm_compute in H. discriminate H.
  - vm_compute. reflexivity.
Qed.

(** ** C9: the defensive error is reachable *)

(** C9.  [cpuTimes2] and [netPlus1] each pass [validateNoIdConflicts]; they
    bind the identifier "x" to metrics with different structural keys, and
    registering the first and then the second at top level on one set throws
    the error of the cross-check in [addOne]. *)
Theorem defensive_error_reachable :
  ∃ E1 E2 : IMetric,
    validateNoIdConflicts E1 = Ok ()
    ∧ validateNoIdConflicts E2 = Ok ()
    ∧ (∃ a b, ("x", a) ∈ bindings E1 ∧ ("x", b) ∈ bindings E2
              ∧ metricKey a ≠ metricKey b)
    ∧ (∃ s1, addTopLevel "left" [E1] newMetricSet = Ok s1
             ∧ addTopLevel "left" [E2] s1 = Throw err_cant_happen)
    ∧ addTopLevel "left" [E1; E2] newMetricSet = Throw err_cant_happen
    ∧ allMetricsGraphJson [E1] [E2] = Throw err_cant_happen.
Proof.
  exists cpuTimes2, netPlus1. split_and!; try (vm_compute; reflexivity).
  - exists cpu, net. split_and!; [by left | by left | by vm_compute].
  - eexists. split; vm_compute; reflexivity.
Qed.

(** ** C10: identifiers are pairwise distinct *)

(** C10.  After any sequence of [addTopLevel] calls on a new set that
    completes without throwing, no two entries at different positions carry
    the same identifier, and the identifier index maps an identifier to a
    position exactly when the entry at that position carries it. *)
Theorem ids_distinct (cs : list (string * list IMetric)) (s : MetricSet) :
  addTopLevels cs newMetricSet = Ok s →
  (∀ j k e e' i, entries s !! j = Some e → entries s !! k = Some e' →
                 e_id e = Some i → e_id e' = Some i → j = k)
  ∧ (∀ i j, metricById s !! i = Some j ↔
            ∃ e, entries s !! j = Some e ∧ e_id e = Some i).
Proof.
  intros Hrun. pose proof (addTopLevels_inv _ _ _ inv_new Hrun) as Hinv.
  unfold entries. split.
  - intros j k e e' i He He' Hi Hi'.
    destruct (inv_id s Hinv j e i He Hi) as [Hj _].
    destruct (inv_id s Hinv k e' i He' Hi') as [Hk _]. congruence.
  - intros i j. split; [apply (inv_byId s Hinv)|].
    intros (e & He & Hi). by destruct (inv_id s Hinv j e i He Hi).
Qed.

Lemma ids_distinct_witness :
  ∃ s, addTopLevels [("left", [cpuTwice; cpu]); ("right", [cpuDouble; netPlus1])]
         newMetricSet = Ok s
       ∧ (∀ j k e e' i, entries s !! j = Some e → entries s !! k = Some e' →
                        e_id e = Some i → e_id e' = Some i → j = k)
       ∧ (∀ i j, metricById s !! i = Some j ↔
                 ∃ e, entries s !! j = Some e ∧ e_id e = Some i).
Proof.
  eexists. split; [vm_compute; reflexivity|].
  apply (ids_distinct [("left", [cpuTwice; cpu]); ("right", [cpuDouble; netPlus1])]).
  vm_compute. reflexivity.
Defined.

(** * Further properties: lemmas *)

(** ** Rendering, key by key *)

Lemma row_options_final m yAxis id row :
  oneVariant m = true → metricGraphJson m yAxis id = Ok row →
  row_options row
  = dropUndefined (setIf (labelCond m yAxis id) "label" (VStr (toString m))
                     (optionsBeforeLabel m yAxis id)).
Proof.
  intros Hone Hrow.
  destruct (metricGraphJson_options m yAxis id Hone) as (row' & Hrow' & Hopts).
  assert (row' = row) as -> by congruence. exact Hopts.
Qed.

Lemma lookup_dropUndefined_dropU o k : dropUndefined o !! k = dropU (o !! k).
Proof. rewrite lookup_dropUndefined. by destruct (o !! k) as [[]|]. Qed.

Lemma statOptions_lookup_account m :
  statOptions m !! "accountId"
  = match metricStat m, mathExpression m with
    | Some stat, None =>
        if truthyO (account stat) then Some (optV (account stat))
        else renderingProperties m !! "accountId"
    | _, _ => renderingProperties m !! "accountId"
    end.
Proof.
  unfold statOptions, withStat_render.
  destruct (metricStat m) as [stat|], (mathExpression m) as [expr|]; try done.
  - simpl. destruct (statistic stat), (period stat); rewrite !lookup_setIf;
      rewrite ?(bool_decide_eq_false_2 ("stat" = "accountId")) by done;
      rewrite ?(bool_decide_eq_false_2 ("period" = "accountId")) by done;
      rewrite ?(bool_decide_eq_false_2 ("region" = "accountId")) by done;
      rewrite (bool_decide_eq_true_2 ("accountId" = "accountId")) by done;
      by rewrite ?andb_false_r, ?andb_true_r.
  - by rewrite lookup_insert_ne.
Qed.

Lemma statOptions_lookup_region m :
  statOptions m !! "region"
  = match metricStat m, mathExpression m with
    | Some stat, None =>
        if truthyO (region stat) then Some (optV (region stat))
        else renderingProperties m !! "region"
    | _, _ => renderingProperties m !! "region"
    end.
Proof.
  unfold statOptions, withStat_render.
  destruct (metricStat m) as [stat|], (mathExpression m) as [expr|]; try done.
  - simpl. destruct (statistic stat), (period stat); rewrite !lookup_setIf;
      rewrite ?(bool_decide_eq_false_2 ("stat" = "region")) by done;
      rewrite ?(bool_decide_eq_false_2 ("period" = "region")) by done;
      rewrite ?(bool_decide_eq_false_2 ("accountId" = "region")) by done;
      rewrite (bool_decide_eq_true_2 ("region" = "region")) by done;
      by rewrite ?andb_false_r, ?andb_true_r.
  - by rewrite lookup_insert_ne.
Qed.

Lemma statOptions_lookup_expression m :
  statOptions m !! "expression"
  = match metricStat m, mathExpression m with
    | None, Some expr => Some (VStr (expression expr))
    | _, _ => renderingProperties m !! "expression"
    end.
Proof.
  unfold statOptions, withStat_render.
  destruct (metricStat m) as [stat|], (mathExpression m) as [expr|]; try done.
  - simpl. destruct (statistic stat), (period stat); rewrite !lookup_setIf;
      rewrite ?(bool_decide_eq_false_2 ("stat" = "expression")) by done;
      rewrite ?(bool_decide_eq_false_2 ("period" = "expression")) by done;
      rewrite ?(bool_decide_eq_false_2 ("accountId" = "expression")) by done;
      rewrite ?(bool_decide_eq_false_2 ("region" = "expression")) by done;
      by rewrite ?andb_false_r.
  - by rewrite lookup_insert_eq.
Qed.

(** A key the renderer does not write keeps the value of the rendering
    properties through all assignments. *)
Lemma final_lookup_other m yAxis id k :
  k ∉ reserved →
  setIf (labelCond m yAxis id) "label" (VStr (toString m))
    (optionsBeforeLabel m yAxis id) !! k
  = renderingProperties m !! k.
Proof.
  intros Hk. unfold reserved in Hk.
  assert (∀ k', k' ∈ ["accountId"; "region"; "period"; "stat"; "expression";
                      "visible"; "yAxis"; "id"; "label"] → k' ≠ k) as Hne.
  { intros k' Hk' ->. done. }
  unfold optionsBeforeLabel. rewrite !lookup_setIf.
  rewrite (bool_decide_eq_false_2 ("label" = k)) by (apply Hne; set_solver).
  rewrite (bool_decide_eq_false_2 ("id" = k)) by (apply Hne; set_solver).
  rewrite (bool_decide_eq_false_2 ("yAxis" = k)) by (apply Hne; set_solver).
  rewrite (bool_decide_eq_false_2 ("visible" = k)) by (apply Hne; set_solver).
  rewrite !andb_false_r.
  rewrite statOptions_lookup;
    [|intros ->; eapply Hne; [|done]; set_solver..].
  rewrite (bool_decide_eq_false_2 (k = "stat")) by (intros ->; eapply Hne; [|done]; set_solver).
  rewrite (bool_decide_eq_false_2 (k = "period")) by (intros ->; eapply Hne; [|done]; set_solver).
  by destruct (metricStat m), (mathExpression m).
Qed.

Lemma final_lookup m yAxis id k :
  setIf (labelCond m yAxis id) "label" (VStr (toString m))
    (optionsBeforeLabel m yAxis id) !! k
  = if labelCond m yAxis id && bool_decide ("label" = k) then Some (VStr (toString m))
    else if truthyO id && bool_decide ("id" = k) then Some (optV id)
    else if negb (bool_decide (yAxis = Some "left")) && bool_decide ("yAxis" = k)
         then Some (optV yAxis)
    else if negb (truthyO yAxis) && bool_decide ("visible" = k) then Some (VBool false)
    else statOptions m !! k.
Proof. unfold optionsBeforeLabel. by rewrite !lookup_setIf. Qed.

Lemma statOptions_lookup_stat m st k :
  metricStat m = Some st → mathExpression m = None →
  statOptions m !! k
  = if bool_decide (k = "stat") && truthyO (statistic st)
       && negb (bool_decide (statistic st = Some "Average"))
    then Some (optV (statistic st))
    else if bool_decide (k = "period")
            && negb (bool_decide (toSeconds <$> period st = Some 300%N))
            && bool_decide (is_Some (period st))
    then Some (VNum (Z.of_N (default 0%N (toSeconds <$> period st))))
    else if bool_decide (k = "region") && truthyO (region st)
    then Some (optV (region st))
    else if bool_decide (k = "accountId") && truthyO (account st)
    then Some (optV (account st))
    else renderingProperties m !! k.
Proof.
  intros Hst He. unfold statOptions, withStat_render. rewrite Hst, He. simpl.
  assert (∀ o : gmap string JsValue,
    match statistic st with
    | Some s => setIf (truthy s && negb (bool_decide (s = "Average"))) "stat" (VStr s) o
    | None => o
    end !! k
    = if bool_decide (k = "stat") && truthyO (statistic st)
         && negb (bool_decide (statistic st = Some "Average"))
      then Some (optV (statistic st)) else o !! k) as ->.
  { intros o. destruct (statistic st) as [s|]; simpl; [|by rewrite andb_false_r].
    rewrite lookup_setIf.
    rewrite (bool_decide_ext (Some s = Some "Average") (s = "Average"))
      by (split; congruence).
    rewrite (bool_decide_ext (k = "stat") ("stat" = k)) by done.
    by destruct (bool_decide ("stat" = k)), (truthy s), (bool_decide (s = "Average")). }
  assert (∀ o : gmap string JsValue,
    match period st with
    | Some p => setIf (negb (toSeconds p =? 300)%N) "period"
                  (VNum (Z.of_N (toSeconds p))) o
    | None => o
    end !! k
    = if bool_decide (k = "period")
         && negb (bool_decide (toSeconds <$> period st = Some 300%N))
         && bool_decide (is_Some (period st))
      then Some (VNum (Z.of_N (default 0%N (toSeconds <$> period st))))
      else o !! k) as ->.
  { intros o. destruct (period st) as [p|]; simpl.
    - rewrite lookup_setIf.
      rewrite (bool_decide_ext (Some (toSeconds p) = Some 300%N) (toSeconds p = 300%N))
        by (split; congruence).
      rewrite (bool_decide_ext (k = "period") ("period" = k)) by done.
      destruct (N.eqb_spec (toSeconds p) 300) as [Heq|Hne].
      + rewrite (bool_decide_eq_true_2 _ Heq). simpl. by rewrite !andb_false_r.
      + rewrite (bool_decide_eq_false_2 _ Hne). simpl.
        by destruct (bool_decide ("period" = k)).
    - by rewrite andb_false_r. }
  rewrite !lookup_setIf.
  rewrite (bool_decide_ext (k = "region") ("region" = k)) by done.
  rewrite (bool_decide_ext (k = "accountId") ("accountId" = k)) by done.
  by rewrite (andb_comm (truthyO (region st))), (andb_comm (truthyO (account st))).
Qed.

Ltac bd_strings :=
  repeat match goal with
         | |- context [bool_decide (?a = ?b)] =>
             first [ rewrite (bool_decide_eq_true_2 (a = b)) by done
                   | rewrite (bool_decide_eq_false_2 (a = b)) by done ]
         end.

Lemma dropUndefined_empty_iff (x : gmap string JsValue) :
  dropUndefined x = ∅ ↔ ∀ k, dropU (x !! k) = None.
Proof.
  split.
  - intros Hempty k. by rewrite <- lookup_dropUndefined_dropU, Hempty, lookup_empty.
  - intros Hall. apply map_eq. intros k.
    by rewrite lookup_dropUndefined_dropU, lookup_empty.
Qed.

Lemma truthyO_optV o : truthyO o = true → ∃ s, optV o = VStr s.
Proof. destruct o as [s|]; [by eexists | done]. Qed.

Lemma plain_dec st yAxis id : plain st yAxis id ∨ ¬ plain st yAxis id.
Proof.
  unfold plain.
  destruct (decide (yAxis = Some "left")); [|right; tauto].
  destruct (truthyO id); [right; intros (_ & ? & _); done|].
  destruct (truthyO (account st)); [right; intros (_ & _ & ? & _); done|].
  destruct (truthyO (region st)); [right; intros (_ & _ & _ & ? & _); done|].
  assert ((∀ p, period st = Some p → toSeconds p = 300%N)
          ∨ ¬ (∀ p, period st = Some p → toSeconds p = 300%N)) as [Hp|Hp].
  { destruct (period st) as [p|]; [|left; done].
    destruct (decide (toSeconds p = 300%N)) as [Heq|Hne].
    - left. by intros ? [= <-].
    - right. intros H. by apply Hne, H. }
  2:{ right. intros (_ & _ & _ & _ & ? & _). done. }
  assert ((∀ s, statistic st = Some s → truthy s = true → s = "Average")
          ∨ ¬ (∀ s, statistic st = Some s → truthy s = true → s = "Average")) as [Hs|Hs].
  { destruct (statistic st) as [s|]; [|left; done].
    destruct (truthy s) eqn:Ht; [|left; intros ? [= <-]; congruence].
    destruct (decide (s = "Average")) as [Heq|Hne].
    - left. by intros ? [= <-].
    - right. intros H. by apply Hne, H. }
  - left. by split_and!.
  - right. intros (_ & _ & _ & _ & _ & ?). done.
Qed.

(** The options of a plain stat ref are its rendering properties. *)
Lemma plain_final_lookup m st yAxis id k :
  metricStat m = Some st → mathExpression m = None → plain st yAxis id →
  dropU (renderingProperties m !! "expression") = None →
  setIf (labelCond m yAxis id) "label" (VStr (toString m))
    (optionsBeforeLabel m yAxis id) !! k
  = renderingProperties m !! k.
Proof.
  intros Hst He (-> & Hid & Hacc & Hreg & Hper & Hstat) Hexpr.
  assert (∀ k', statOptions m !! k' = renderingProperties m !! k') as HstatO.
  { intros k'. rewrite (statOptions_lookup_stat m st) by done.
    rewrite Hacc, Hreg, !andb_false_r.
    assert (truthyO (statistic st) && negb (bool_decide (statistic st = Some "Average"))
            = false) as Hs.
    { destruct (statistic st) as [s|] eqn:Hs; [|done]. simpl.
      destruct (truthy s) eqn:Ht; [|done].
      rewrite (Hstat s eq_refl Ht). by rewrite bool_decide_eq_true_2. }
    rewrite <- andb_assoc, Hs, andb_false_r.
    assert (negb (bool_decide (toSeconds <$> period st = Some 300%N))
            && bool_decide (is_Some (period st)) = false) as Hp.
    { destruct (period st) as [p|] eqn:Hp; simpl.
      - rewrite (Hper p eq_refl). by rewrite bool_decide_eq_true_2.
      - by rewrite ?andb_false_r. }
    by rewrite <- andb_assoc, Hp, andb_false_r. }
  assert (labelCond m (Some "left") id = false) as Hlabel.
  { unfold labelCond, truthyKey at 1, optionsBeforeLabel. rewrite !lookup_setIf.
    bd_strings. rewrite !andb_false_r, (HstatO "expression").
    destruct (renderingProperties m !! "expression") as [[]|]; try done;
      by rewrite ?andb_false_r. }
  rewrite final_lookup, Hlabel, Hid, HstatO. simpl.
  by rewrite ?(bool_decide_eq_true_2 (Some "left" = Some "left")).
Qed.

(** A stat ref that is not plain has a defined option of its own. *)
Lemma not_plain_final_defined m st yAxis id :
  metricStat m = Some st → mathExpression m = None → ¬ plain st yAxis id →
  ∃ k, dropU (setIf (labelCond m yAxis id) "label" (VStr (toString m))
                (optionsBeforeLabel m yAxis id) !! k) ≠ None.
Proof.
  intros Hst He Hnp.
  assert (∀ k v, k ≠ "label" →
            (if truthyO id && bool_decide ("id" = k) then Some (optV id)
             else if negb (bool_decide (yAxis = Some "left")) && bool_decide ("yAxis" = k)
                  then Some (optV yAxis)
             else if negb (truthyO yAxis) && bool_decide ("visible" = k)
                  then Some (VBool false)
             else statOptions m !! k) = Some v →
            v ≠ VUndefined →
            ∃ k, dropU (setIf (labelCond m yAxis id) "label" (VStr (toString m))
                          (optionsBeforeLabel m yAxis id) !! k) ≠ None) as Hkey.
  { intros k v Hk Hv Hdef. exists k. rewrite final_lookup.
    rewrite (bool_decide_eq_false_2 ("label" = k)) by done.
    rewrite andb_false_r, Hv. by destruct v. }
  destruct (truthyO yAxis) eqn:Hy.
  2:{ apply (Hkey "visible" (VBool false)); [done| |done].
      bd_strings. by rewrite !andb_false_r. }
  destruct (decide (yAxis = Some "left")) as [Hleft|Hleft].
  2:{ destruct (truthyO_optV _ Hy) as [t Ht].
      apply (Hkey "yAxis" (VStr t)); [done| |done].
      rewrite (bool_decide_eq_false_2 (yAxis = Some "left")) by done.
      bd_strings. by rewrite !andb_false_r, Ht. }
  destruct (truthyO id) eqn:Hid.
  { destruct (truthyO_optV _ Hid) as [t Ht].
    apply (Hkey "id" (VStr t)); [done| |done]. bd_strings. by rewrite Ht. }
  rewrite (bool_decide_eq_true_2 _ Hleft) in Hkey. simpl in Hkey.
  destruct (truthyO (account st)) eqn:Hacc.
  { destruct (truthyO_optV _ Hacc) as [t Ht].
    apply (Hkey "accountId" (VStr t)); [done| |done].
    rewrite (statOptions_lookup_stat m st) by done. bd_strings.
    simpl. rewrite Hacc. simpl. by rewrite Ht. }
  destruct (truthyO (region st)) eqn:Hreg.
  { destruct (truthyO_optV _ Hreg) as [t Ht].
    apply (Hkey "region" (VStr t)); [done| |done].
    rewrite (statOptions_lookup_stat m st) by done. bd_strings.
    simpl. rewrite Hreg. simpl. by rewrite Ht. }
  destruct (period st) as [p|] eqn:Hper.
  - destruct (decide (toSeconds p = 300%N)) as [Hp|Hp].
    + destruct (statistic st) as [s|] eqn:Hstat.
      * destruct (truthy s) eqn:Hs.
        -- destruct (decide (s = "Average")) as [Hs'|Hs'].
           ++ exfalso; apply Hnp; split_and!; try done; intros; congruence.
           ++ apply (Hkey "stat" (VStr s)); [done| |done].
              rewrite (statOptions_lookup_stat m st) by done. bd_strings.
              rewrite Hstat. simpl. rewrite Hs.
              rewrite (bool_decide_eq_false_2 (Some s = Some "Average")) by congruence.
              done.
        -- exfalso; apply Hnp; split_and!; try done; intros; congruence.
      * exfalso; apply Hnp; split_and!; try done; intros; congruence.
    + apply (Hkey "period" (VNum (Z.of_N (toSeconds p)))); [done| |done].
      rewrite (statOptions_lookup_stat m st) by done. bd_strings.
      rewrite Hper. simpl.
      rewrite (bool_decide_eq_false_2 (Some (toSeconds p) = Some 300%N)) by congruence.
      rewrite ?(bool_decide_eq_true_2 (is_Some (Some p))) by done.
      simpl. by rewrite ?andb_false_r.
  - destruct (statistic st) as [s|] eqn:Hstat.
    + destruct (truthy s) eqn:Hs.
      * destruct (decide (s = "Average")) as [Hs'|Hs'].
        -- exfalso; apply Hnp; split_and!; try done; intros; congruence.
        -- apply (Hkey "stat" (VStr s)); [done| |done].
           rewrite (statOptions_lookup_stat m st) by done. bd_strings.
           rewrite Hstat. simpl. rewrite Hs.
           rewrite (bool_decide_eq_false_2 (Some s = Some "Average")) by congruence.
           done.
      * exfalso; apply Hnp; split_and!; try done; intros; congruence.
    + exfalso; apply Hnp; split_and!; try done; intros; congruence.
Qed.

Lemma metricGraphJson_stat_row m st yAxis id :
  metricStat m = Some st → mathExpression m = None →
  metricGraphJson m yAxis id
  = Ok (let o := dropUndefined (setIf (labelCond m yAxis id) "label" (VStr (toString m))
                                  (optionsBeforeLabel m yAxis id)) in
        if decide (o = ∅) then statTokens st else statTokens st ++ [TOpts o]).
Proof.
  intros Hst He.
  unfold metricGraphJson, dispatchMetric, labelCond, optionsBeforeLabel, statOptions.
  rewrite Hst, He. reflexivity.
Qed.

Lemma metricGraphJson_expr_row m ex yAxis id :
  metricStat m = None → mathExpression m = Some ex →
  metricGraphJson m yAxis id
  = Ok (let o := dropUndefined (setIf (labelCond m yAxis id) "label" (VStr (toString m))
                                  (optionsBeforeLabel m yAxis id)) in
        if decide (o = ∅) then [] else [TOpts o]).
Proof.
  intros Hst He.
  unfold metricGraphJson, dispatchMetric, labelCond, optionsBeforeLabel, statOptions.
  rewrite Hst, He. reflexivity.
Qed.

Lemma statTokens_length st :
  length (statTokens st) = 2 + 2 * length (default [] (dimensions st)).
Proof.
  unfold statTokens. rewrite length_app. simpl. f_equal. f_equal.
  induction (default [] (dimensions st)) as [|d l IH]; simpl; [done|]. lia.
Qed.

Lemma optionsBeforeLabel_lookup m yAxis id k :
  optionsBeforeLabel m yAxis id !! k
  = if truthyO id && bool_decide ("id" = k) then Some (optV id)
    else if negb (bool_decide (yAxis = Some "left")) && bool_decide ("yAxis" = k)
         then Some (optV yAxis)
    else if negb (truthyO yAxis) && bool_decide ("visible" = k) then Some (VBool false)
    else statOptions m !! k.
Proof. unfold optionsBeforeLabel. by rewrite !lookup_setIf. Qed.

Lemma statOptions_lookup_expr m ex k :
  metricStat m = None → mathExpression m = Some ex →
  statOptions m !! k
  = if bool_decide ("expression" = k) then Some (VStr (expression ex))
    else renderingProperties m !! k.
Proof.
  intros Hst He. unfold statOptions. rewrite Hst, He.
  destruct (decide ("expression" = k)) as [<-|Hne].
  - by rewrite lookup_insert_eq, bool_decide_eq_true_2.
  - by rewrite lookup_insert_ne, bool_decide_eq_false_2.
Qed.

Lemma labelCond_expr m ex yAxis id :
  metricStat m = None → mathExpression m = Some ex →
  labelCond m yAxis id
  = truthyO yAxis
    && negb (bool_decide (renderingProperties m !! "visible" = Some (VBool false)))
    && truthy (expression ex)
    && negb (truthyKey (renderingProperties m) "label").
Proof.
  intros Hst He. unfold labelCond, truthyKey.
  rewrite !optionsBeforeLabel_lookup, !(statOptions_lookup_expr m ex) by done.
  bd_strings. rewrite !andb_false_r. simpl.
  by destruct (truthyO yAxis).
Qed.

(** ** Validation on any tree *)

Lemma thrown_mono seen seen' l l' msg :
  (∀ id b, seen !! id = Some b → seen' !! id = Some b ∨ (id, b) ∈ l') →
  l ⊆ l' → thrown seen l msg → thrown seen' l' msg.
Proof.
  intros Hseen Hl [->|[->|(id & a & b & -> & Ha & Hb & Hne)]];
    [by left | by right; left |].
  right. right. exists id, a, b. split_and!; [done|by apply Hl| |done].
  destruct Hb as [Hb|Hb]; [by apply Hseen | right; by apply Hl].
Qed.

Lemma visit_cases m : ∀ seen,
  match visit m seen with
  | Ok seen' =>
      wf m = true
      ∧ ∀ id b, seen' !! id = Some b → seen !! id = Some b ∨ (id, b) ∈ bindings m
  | Throw msg => thrown seen (bindings m) msg
  end.
Proof.
  induction m as [st e rp ts IH] using IMetric_ind'. intros seen.
  simpl. unfold dispatchMetric. simpl.
  destruct st as [st|], e as [[expr um]|]; simpl in *.
  - by left.
  - split; [done|]. by left.
  - revert seen. induction IH as [|[i x] um Hx _ IHum]; intros seen; simpl.
    { split; [done|]. by left. }
    assert (match visit x (<[i := x]> seen) with
            | Ok seen1 =>
                wf x = true
                ∧ ∀ id b, seen1 !! id = Some b →
                          seen !! id = Some b ∨ (id, b) ∈ (i, x) :: bindings x
            | Throw msg => thrown seen ((i, x) :: bindings x) msg
            end) as Hvisit.
    { specialize (Hx (<[i := x]> seen)). simpl in Hx.
      destruct (visit x (<[i := x]> seen)) as [seen1|msg].
      - destruct Hx as [Hwf Hseen]. split; [done|]. intros id b Hb.
        destruct (Hseen id b Hb) as [Hin|Hin]; [|right; by right].
        destruct (decide (i = id)) as [<-|Hne].
        + rewrite lookup_insert_eq in Hin. injection Hin as <-. right. by left.
        + rewrite lookup_insert_ne in Hin by done. by left.
      - eapply thrown_mono; [| |exact Hx].
        + intros id b Hb. destruct (decide (i = id)) as [<-|Hne].
          * rewrite lookup_insert_eq in Hb. injection Hb as <-. right. by left.
          * rewrite lookup_insert_ne in Hb by done. by left.
        + intros p Hp. by right. }
    assert (match visit x (<[i := x]> seen) with
            | Ok seen1 =>
                match forM (λ p seen,
                              match seen !! p.1 with
                              | Some existing =>
                                  if decide (metricKey existing ≠ metricKey p.2)
                                  then Throw (err_conflict p.1 p.2 existing)
                                  else visit p.2 (<[p.1 := p.2]> seen)
                              | None => visit p.2 (<[p.1 := p.2]> seen)
                              end) um seen1 with
                | Ok seen' =>
                    (wf x && forallb (λ p, wf p.2) um = true)
                    ∧ ∀ id b, seen' !! id = Some b →
                              seen !! id = Some b
                              ∨ (id, b) ∈ (i, x) :: bindings x
                                           ++ flat_map (λ p, p :: bindings p.2) um
                | Throw msg =>
                    thrown seen ((i, x) :: bindings x
                                 ++ flat_map (λ p, p :: bindings p.2) um) msg
                end
            | Throw msg =>
                thrown seen ((i, x) :: bindings x
                             ++ flat_map (λ p, p :: bindings p.2) um) msg
            end) as Hrest.
    { destruct (visit x (<[i := x]> seen)) as [seen1|msg].
      - destruct Hvisit as [Hwf Hseen]. specialize (IHum seen1).
        destruct (forM _ um seen1) as [seen'|msg].
        + destruct IHum as [Hwfs Hseen']. split; [by rewrite Hwf|].
          intros id b Hb. destruct (Hseen' id b Hb) as [Hin|Hin].
          * destruct (Hseen id b Hin) as [?|Hin']; [by left|right].
            rewrite app_comm_cons. apply elem_of_app. by left.
          * right. rewrite app_comm_cons. apply elem_of_app. by right.
        + eapply thrown_mono; [| |exact IHum].
          * intros id b Hb. destruct (Hseen id b Hb) as [?|Hin']; [by left|right].
            rewrite app_comm_cons. apply elem_of_app. by left.
          * intros p Hp. rewrite app_comm_cons. apply elem_of_app. by right.
      - eapply thrown_mono; [| |exact Hvisit]; [by left|].
        intros p Hp. rewrite app_comm_cons. apply elem_of_app. by left. }
    assert (match visit x (<[i := x]> seen)
                  ≫= forM (λ p seen,
                              match seen !! p.1 with
                              | Some existing =>
                                  if decide (metricKey existing ≠ metricKey p.2)
                                  then Throw (err_conflict p.1 p.2 existing)
                                  else visit p.2 (<[p.1 := p.2]> seen)
                              | None => visit p.2 (<[p.1 := p.2]> seen)
                              end) um with
            | Ok seen' =>
                (wf x && forallb (λ p, wf p.2) um = true)
                ∧ ∀ id b, seen' !! id = Some b →
                          seen !! id = Some b
                          ∨ (id, b) ∈ (i, x) :: bindings x
                                       ++ flat_map (λ p, p :: bindings p.2) um
            | Throw msg =>
                thrown seen ((i, x) :: bindings x
                             ++ flat_map (λ p, p :: bindings p.2) um) msg
            end) as Hgoal.
    { by destruct (visit x (<[i := x]> seen)). }
    clear Hrest Hvisit.
    destruct (seen !! i) as [existing|] eqn:Hi; [|exact Hgoal].
    destruct (decide (metricKey existing ≠ metricKey x)) as [Hne|Heq]; [|exact Hgoal].
    simpl. right. right. exists i, x, existing.
    split_and!; [done|by left|by left|done].
  - by right; left.
Qed.

(** ** Registration: completion, provenance, entries of one key *)

Lemma addTopLevels_calls cs s :
  addTopLevels cs s = forM registerCall (allCalls cs) s.
Proof.
  unfold addTopLevels, allCalls. rewrite forM_flat_map.
  apply forM_ext_Forall, Forall_forall. intros c _ s'. apply addTopLevel_calls.
Qed.

Lemma run_Throw l : ∀ s msg,
  forM registerCall l s = Throw msg → msg = err_cant_happen.
Proof.
  induction l as [|c l IH]; intros s msg; simpl; [done|].
  destruct (registerCall c s) as [s1|msg1] eqn:Hreg; simpl.
  - apply IH.
  - intros [= <-]. unfold registerCall in Hreg. by apply register_Throw in Hreg as [-> _].
Qed.

Lemma register_completesT l c s :
  inv s → consistentT l → ids_from l s → c ∈ l →
  ∃ s', registerCall c s = Ok s'.
Proof.
  intros Hinv Hcons Hids Hc.
  destruct (registerCall c s) as [s'|msg] eqn:Hreg; [by eexists|]. exfalso.
  apply register_Throw in Hreg as (_ & i & j & e & Hid & Hi & Hj & He & Hne).
  destruct (Hids i j e Hj He) as (c' & Hc' & Hid' & Hk').
  apply Hne. rewrite <- Hk'. by eapply Hcons.
Qed.

Lemma run_completesT_from L l s :
  inv s → consistentT L → ids_from L s → l ⊆ L →
  ∃ s', forM registerCall l s = Ok s'.
Proof.
  intros Hinv Hcons. revert s Hinv.
  induction l as [|c l IH]; intros s Hinv Hids Hsub; simpl; [by eexists|].
  assert (c ∈ L) as Hc by (apply Hsub; by left).
  destruct (register_completesT L c s Hinv Hcons Hids Hc) as [s1 Hs1].
  rewrite Hs1. simpl. apply IH.
  - by eapply register_inv.
  - by eapply register_ids_from.
  - intros x Hx. apply Hsub. by right.
Qed.

Lemma run_completesT l :
  consistentT l → ∃ s', forM registerCall l newMetricSet = Ok s'.
Proof.
  intros Hcons. apply (run_completesT_from l); [apply inv_new|done| |done].
  intros i j e. simpl. by rewrite lookup_empty.
Qed.

(** A run that completes used every non-empty identifier for one key. *)
Lemma run_consistentT l s :
  forM registerCall l newMetricSet = Ok s → consistentT l.
Proof.
  intros Hrun c c' i Hc Hc' Hid Hid' Hi.
  pose proof (run_inv _ _ _ inv_new Hrun) as Hinv.
  destruct (run_post c l _ _ inv_new Hrun Hc) as (j & e & He & Hk & Hie & _).
  destruct (run_post c' l _ _ inv_new Hrun Hc') as (j' & e' & He' & Hk' & Hie' & _).
  rewrite Hid in Hie. rewrite Hid' in Hie'.
  specialize (Hie Hi). specialize (Hie' Hi).
  destruct (inv_id s Hinv j e i He Hie) as [Hby _].
  destruct (inv_id s Hinv j' e' i He' Hie') as [Hby' _].
  assert (j = j') as <- by congruence.
  assert (e = e') as <- by congruence.
  congruence.
Qed.

Lemma elem_of_allCalls cs c i :
  c ∈ allCalls cs → c_id c = Some i → (i, c_metric c) ∈ allBindings cs.
Proof.
  unfold allCalls, allBindings, topCalls.
  intros (t & Ht & (m & Hm & Hc)%elem_of_flat_map)%elem_of_flat_map Hid.
  apply elem_of_calls in Hc as [->|(p & Hp & ->)]; [done|].
  simpl in *. injection Hid as <-.
  apply elem_of_flat_map. exists m. split; [|by destruct p].
  apply elem_of_flat_map. by exists t.
Qed.

Lemma elem_of_allBindings cs i a :
  (i, a) ∈ allBindings cs →
  {| c_metric := a; c_tag := None; c_id := Some i |} ∈ allCalls cs.
Proof.
  unfold allCalls, allBindings, topCalls.
  intros (m & (t & Ht & Hm)%elem_of_flat_map & Hb)%elem_of_flat_map.
  apply elem_of_flat_map. exists t. split; [done|].
  apply elem_of_flat_map. exists m. split; [done|].
  apply elem_of_calls. right. by exists (i, a).
Qed.

Lemma unambiguous_consistentT cs : unambiguous cs ↔ consistentT (allCalls cs).
Proof.
  split.
  - intros Hun c c' i Hc Hc' Hid Hid' Hi.
    eapply Hun; [by apply elem_of_allCalls | by apply elem_of_allCalls | done].
  - intros Hcons i a b Ha Hb Hi.
    apply (Hcons _ _ i (elem_of_allBindings _ _ _ Ha) (elem_of_allBindings _ _ _ Hb));
      done.
Qed.

Lemma register_from_calls l c s s' :
  inv s → c ∈ l → from_calls l s → registerCall c s = Ok s' → from_calls l s'.
Proof.
  destruct c as [m tag id]. unfold registerCall. simpl.
  intros Hinv Hc Hfrom (j & s1 & Hsel & ->)%register_selects.
  destruct (selects_key _ _ _ _ _ Hinv Hsel) as (ej & Hej & Hkj).
  assert (∀ j' e1, metrics s1 !! j' = Some e1 →
            (∃ c, c ∈ l ∧ c_metric c = e_metric e1)
            ∧ (∀ i, e_id e1 = Some i →
                 truthy i = true
                 ∧ ∃ c, c ∈ l ∧ c_id c = Some i
                        ∧ metricKey (c_metric c) = metricKey (e_metric e1))
            ∧ (∀ t, e_tag e1 = Some t →
                 truthy t = true
                 ∧ ∃ c, c ∈ l ∧ c_tag c = Some t
                        ∧ metricKey (c_metric c) = metricKey (e_metric e1))) as Hold.
  { intros j' e1 He1.
    destruct (selects_lookup _ _ _ _ _ _ _ Hsel He1) as [He|(_ & _ & _ & ->)].
    - by eapply Hfrom.
    - simpl. split_and!; [by eexists|done..]. }
  intros j' e' (e1 & He1 & ->)%assigned_lookup.
  destruct (Hold j' e1 He1) as (Hm & Hi & Ht).
  destruct (decide (j' = j)) as [->|Hne]; [|done].
  assert (e1 = ej) as -> by congruence.
  rewrite tagEntry_metric, idEntry_metric, tagEntry_id, idEntry_id,
    tagEntry_tag, idEntry_tag.
  split_and!; [done| |].
  - destruct (negb (truthyO (e_id ej)) && truthyO id) eqn:Hb; [|done].
    intros i ->. apply andb_true_iff in Hb as [_ Htr]. split; [done|].
    eexists. split; [exact Hc|]. simpl. by rewrite Hkj.
  - destruct (negb (truthyO (e_tag ej)) && truthyO tag) eqn:Hb; [|done].
    intros t ->. apply andb_true_iff in Hb as [_ Htr]. split; [done|].
    eexists. split; [exact Hc|]. simpl. by rewrite Hkj.
Qed.

Lemma run_from_calls L l : ∀ s s',
  inv s → l ⊆ L → from_calls L s → forM registerCall l s = Ok s' → from_calls L s'.
Proof.
  induction l as [|c l IH]; intros s s' Hinv Hsub Hfrom; simpl.
  { by intros [= <-]. }
  destruct (registerCall c s) as [s1|] eqn:Hreg; simpl; [|done].
  apply IH.
  - destruct c. by eapply register_inv.
  - intros x Hx. apply Hsub. by right.
  - eapply register_from_calls; [done| |done..]. apply Hsub. by left.
Qed.

Lemma from_calls_new l : from_calls l newMetricSet.
Proof. intros j e. simpl. by rewrite lookup_nil. Qed.

Lemma elem_of_allCalls_cases cs c :
  c ∈ allCalls cs ↔
  (∃ t ms, (t, ms) ∈ cs ∧ c_metric c ∈ ms ∧ c_tag c = Some t ∧ c_id c = None)
  ∨ (∃ i, (i, c_metric c) ∈ allBindings cs ∧ c_tag c = None ∧ c_id c = Some i).
Proof.
  unfold allCalls, allBindings, topCalls. split.
  - intros ([t ms] & Ht & (m & Hm & Hc)%elem_of_flat_map)%elem_of_flat_map.
    simpl in *. apply elem_of_calls in Hc as [->|(p & Hp & ->)]; simpl.
    + left. by exists t, ms.
    + right. exists p.1. split; [|done].
      apply elem_of_flat_map. exists m. split; [|by destruct p].
      apply elem_of_flat_map. by exists (t, ms).
  - intros [(t & ms & Ht & Hm & Htag & Hid)|(i & Hb & Htag & Hid)].
    + apply elem_of_flat_map. exists (t, ms). split; [done|].
      apply elem_of_flat_map. exists (c_metric c). split; [done|].
      apply elem_of_calls. left. destruct c. simpl in *. by subst.
    + apply elem_of_flat_map in Hb as (m & (tm & Htm & Hm)%elem_of_flat_map & Hb).
      apply elem_of_flat_map. exists tm. split; [done|].
      apply elem_of_flat_map. exists m. split; [done|].
      apply elem_of_calls. right. exists (i, c_metric c). split; [done|].
      destruct c. simpl in *. by subst.
Qed.

Lemma register_inv_dup m tag id s s' :
  inv s → inv_dup s → register m tag id s = Ok s' → inv_dup s'.
Proof.
  intros Hinv Hdup (j & s1 & Hsel & ->)%register_selects.
  intros j' e' (e1 & He1 & ->)%assigned_lookup.
  rewrite assignTag_byKey, assignId_byKey.
  assert (e_metric (if decide (j' = j) then tagEntry tag (idEntry id e1) else e1)
          = e_metric e1) as ->
    by (case_decide; by rewrite ?tagEntry_metric, ?idEntry_metric).
  assert (truthyO (e_id e1) = true →
          truthyO (e_id (if decide (j' = j) then tagEntry tag (idEntry id e1) else e1))
          = true) as Hid.
  { case_decide; [|done]. rewrite tagEntry_id, idEntry_id. intros H1. by rewrite H1. }
  intros Hnot. apply Hid. clear Hid.
  destruct Hsel as [i j e Hi Htr Hby He Hk | j e Hnone Hbk He Hb | Hnone Hall].
  - by eapply Hdup.
  - by eapply Hdup.
  - simpl in *. apply lookup_app_Some in He1 as [He1|[Hlen He1]].
    + destruct (decide (metricKey (e_metric e1) = metricKey m)) as [Heq|Hne].
      * destruct (decide (metricByKey s !! metricKey m = Some j')) as [Hidx|Hidx].
        -- specialize (Hall j' e1 Hidx He1). by apply andb_true_iff in Hall as [? _].
        -- eapply Hdup; [done|]. by rewrite Heq.
      * rewrite lookup_insert_ne in Hnot by done. by eapply Hdup.
    + exfalso. apply Hnot.
      destruct (j' - length (metrics s)) as [|n] eqn:Hn; [|by destruct n].
      simpl in He1. injection He1 as <-. simpl.
      rewrite lookup_insert_eq. f_equal. lia.
Qed.

Lemma inv_dup_new : inv_dup newMetricSet.
Proof. intros j e. simpl. by rewrite lookup_nil. Qed.

Lemma run_inv_dup l : ∀ s s',
  inv s → inv_dup s → forM registerCall l s = Ok s' → inv_dup s'.
Proof.
  induction l as [|c l IH]; intros s s' Hinv Hdup; simpl.
  { by intros [= <-]. }
  destruct (registerCall c s) as [s1|] eqn:Hreg; simpl; [|done].
  destruct c as [m tag id]. unfold registerCall in Hreg. simpl in Hreg.
  apply IH; [by eapply register_inv | by eapply register_inv_dup].
Qed.

(** ** Rendering a set of metrics *)

Lemma wf_oneVariant m : wf m = true → oneVariant m = true.
Proof.
  destruct m as [st e rp ts]. unfold oneVariant. simpl.
  by destruct st, e.
Qed.

Lemma wf_bindings m : wf m = true → ∀ p, p ∈ bindings m → wf p.2 = true.
Proof.
  induction m as [st e rp ts IH] using IMetric_ind'. intros Hwf p Hp.
  destruct (wf_inv _ Hwf) as [(st' & Hst & He)|(ex & Hst & He & Hsub)];
    simpl in *; subst; [by apply elem_of_nil in Hp|].
  apply elem_of_flat_map in Hp as (q & Hq & Hp).
  rewrite Forall_forall in IH, Hsub.
  apply elem_of_cons in Hp as [->|Hp]; [by apply Hsub|].
  by apply (IH q Hq (Hsub q Hq)).
Qed.

Lemma mapM_Ok {T U : Type} (f : T → Result U) l :
  (∀ x, x ∈ l → ∃ y, f x = Ok y) →
  ∃ ys, mapM f l = Ok ys ∧ length ys = length l
        ∧ ∀ j x, l !! j = Some x → ∃ y, ys !! j = Some y ∧ f x = Ok y.
Proof.
  induction l as [|x l IH]; intros Hall; simpl.
  { exists []. split_and!; [done..|]. intros j x. by rewrite lookup_nil. }
  destruct (Hall x) as [y Hy]; [by left|].
  destruct IH as (ys & Hys & Hlen & Hrows); [intros z Hz; apply Hall; by right|].
  rewrite Hy, Hys. simpl. exists (y :: ys). split_and!; [done|simpl; by rewrite Hlen|].
  intros [|j] z; simpl; [|apply Hrows].
  intros [= <-]. by exists y.
Qed.

Lemma mapM_Throw {T U : Type} (f : T → Result U) l msg :
  mapM f l = Throw msg → ∃ x, x ∈ l ∧ f x = Throw msg.
Proof.
  induction l as [|x l IH]; simpl; [done|].
  destruct (f x) as [y|msg'] eqn:Hx; simpl.
  - destruct (mapM f l) as [ys|msg'']; simpl; [done|].
    intros [= <-]. destruct IH as (z & Hz & Hfz); [done|].
    exists z. split; [by right|done].
  - intros [= <-]. exists x. split; [by left|done].
Qed.

Lemma metricGraphJson_Throw m yAxis id msg :
  metricGraphJson m yAxis id = Throw msg → msg = err_both ∨ msg = err_neither.
Proof.
  unfold metricGraphJson, dispatchMetric.
  destruct (metricStat m), (mathExpression m); simpl; intros [= <-]; auto.
Qed.

Lemma metricGraphJson_Ok m yAxis id :
  oneVariant m = true → ∃ row, metricGraphJson m yAxis id = Ok row.
Proof.
  unfold metricGraphJson, dispatchMetric, oneVariant.
  destruct (metricStat m), (mathExpression m); simpl; try done; by eexists.
Qed.

Lemma allMetricsGraphJson_addTopLevels left right :
  allMetricsGraphJson left right
  = (mset ← addTopLevels [("left", left); ("right", right)] newMetricSet;
     mapM (λ entry, metricGraphJson (e_metric entry) (e_tag entry) (e_id entry))
          (entries mset)).
Proof.
  unfold allMetricsGraphJson, addTopLevels. simpl.
  destruct (addTopLevel "left" left newMetricSet) as [s1|]; simpl; [|done].
  by destruct (addTopLevel "right" right s1).
Qed.

(** Well-formed trees whose identifiers are unambiguous render. *)
Lemma allMetricsGraphJson_Ok left right :
  (∀ m, m ∈ left ++ right → wf m = true) →
  unambiguous [("left", left); ("right", right)] →
  ∃ s rows,
    addTopLevels [("left", left); ("right", right)] newMetricSet = Ok s
    ∧ allMetricsGraphJson left right = Ok rows
    ∧ length rows = length (entries s)
    ∧ ∀ j e, entries s !! j = Some e →
             ∃ row, rows !! j = Some row
                    ∧ metricGraphJson (e_metric e) (e_tag e) (e_id e) = Ok row.
Proof.
  intros Hwf Hun. rewrite allMetricsGraphJson_addTopLevels.
  set (cs := [("left", left); ("right", right)]) in *.
  destruct (run_completesT (allCalls cs)) as [s Hs];
    [by apply unambiguous_consistentT|].
  rewrite addTopLevels_calls, Hs. simpl.
  pose proof (run_from_calls (allCalls cs) (allCalls cs) _ _ inv_new
                (λ x H, H) (from_calls_new _) Hs) as Hfrom.
  destruct (mapM_Ok (λ entry, metricGraphJson (e_metric entry) (e_tag entry) (e_id entry))
              (entries s)) as (rows & Hrows & Hlen & Hrow).
  { intros e (j & He)%list_elem_of_lookup.
    destruct (Hfrom j e He) as ((c & Hc & Hm) & _).
    apply metricGraphJson_Ok, wf_oneVariant. rewrite <- Hm.
    apply elem_of_allCalls_cases in Hc
      as [(t & ms & Ht & Hms & _)|(i & Hb & _)].
    - apply Hwf. unfold cs in Ht.
      apply elem_of_cons in Ht as [[= -> ->]|Ht]; [apply elem_of_app; by left|].
      apply elem_of_cons in Ht as [[= -> ->]|Ht]; [apply elem_of_app; by right|].
      by apply elem_of_nil in Ht.
    - unfold allBindings in Hb. apply elem_of_flat_map in Hb as (m & Hm' & Hb).
      assert (wf m = true) as Hwfm; [|exact (wf_bindings m Hwfm (i, c_metric c) Hb)].
      apply Hwf.
      unfold cs in Hm'. simpl in Hm'. by rewrite app_nil_r in Hm'. }
  exists s, rows. split_and!; [done..|]. apply Hrow.
Qed.

Lemma validate_Ok_inv E :
  validateNoIdConflicts E = Ok () → wf E = true ∧ ¬ conflict E.
Proof.
  unfold validateNoIdConflicts. intros Hok.
  pose proof (visit_cases E ∅) as Hcases.
  destruct (visit E ∅) as [seen|msg] eqn:Hvisit; [|done].
  destruct Hcases as [Hwf _]. split; [done|].
  rewrite (visit_bindings _ _ Hwf) in Hvisit.
  pose proof (check_loop (bindings E) ∅) as Hloop. rewrite Hvisit in Hloop.
  intros (id & a & b & Ha & Hb & Hne). apply Hne. eapply Hloop; [done|by right].
Qed.

Lemma no_conflict_unambiguous E cs :
  ¬ conflict E → (∀ p, p ∈ allBindings cs → p ∈ bindings E) → unambiguous cs.
Proof.
  intros Hnc Hsub i a b Ha Hb _.
  destruct (decide (metricKey a = metricKey b)) as [|Hne]; [done|].
  exfalso. apply Hnc. exists i, a, b. split_and!; [by apply Hsub..|done].
Qed.

(** ** The key cache *)

Lemma filled_fresh m :
  filled (metricKey_cached (fresh m)).2.
Proof.
  induction m as [st e rp ts IH] using IMetric_ind'. simpl.
  split; [by eexists|].
  destruct e as [[expr um]|]; simpl in *; [|done].
  rewrite !map_map. simpl.
  induction IH as [|[i c] um Hc _ IHum]; simpl; [done|]. by split.
Qed.

(** ** The metric object of an entry *)

(** The first entry for a key holds the metric of the first registration for
    that key. *)
Lemma run_first l : ∀ s,
  forM registerCall l newMetricSet = Ok s →
  ∀ j e, metrics s !! j = Some e →
    (∀ j' e', j' < j → metrics s !! j' = Some e' →
              metricKey (e_metric e') ≠ metricKey (e_metric e)) →
    ∃ n c, l !! n = Some c ∧ c_metric c = e_metric e
           ∧ ∀ n' c', n' < n → l !! n' = Some c' →
                      metricKey (c_metric c') ≠ metricKey (e_metric e).
Proof.
  induction l as [|c0 l IH] using rev_ind; intros s.
  { simpl. intros [= <-] j e. simpl. by rewrite lookup_nil. }
  rewrite forM_app.
  destruct (forM registerCall l newMetricSet) as [s1|] eqn:Hrun; simpl; [|done].
  destruct (registerCall c0 s1) as [s2|] eqn:Hreg; simpl; [|done].
  intros [= <-] j e He Hfirst.
  pose proof (run_inv _ _ _ inv_new Hrun) as Hinv1.
  destruct c0 as [m tag id]. unfold registerCall in Hreg. simpl in Hreg.
  pose proof (register_grows _ _ _ _ _ Hreg) as Hgrows.
  apply register_selects in Hreg as (j0 & s1' & Hsel & ->).
  apply assigned_lookup in He as (e1 & He1 & Hee1).
  assert (e_metric e = e_metric e1) as Hm.
  { subst e. case_decide; by rewrite ?tagEntry_metric, ?idEntry_metric. }
  destruct (selects_lookup _ _ _ _ _ _ _ Hsel He1) as [Hold|(_ & Hlen & -> & He1')].
  - destruct (IH s1 eq_refl j e1 Hold) as (n & c & Hn & Hc & Hbefore).
    { intros j' e' Hj' He'.
      destruct (Hgrows j' e' He') as (e'' & He'' & Hm'' & _).
      rewrite <- Hm'', <- Hm. by eapply Hfirst. }
    exists n, c. rewrite Hm. split_and!; [|done|].
    + apply lookup_app_l_Some. done.
    + intros n' c' Hn' Hc'. apply (Hbefore n' c' Hn').
      rewrite lookup_app_l in Hc'; [done|]. apply lookup_lt_Some in Hn. lia.
  - exists (length l), {| c_metric := m; c_tag := tag; c_id := id |}.
    split_and!.
    + by rewrite list_lookup_middle.
    + rewrite Hm, He1'. done.
    + intros n' c' Hn' Hc'. rewrite lookup_app_l in Hc' by done.
      destruct (run_post c' l _ _ inv_new Hrun) as (j' & e' & He' & Hk' & _).
      { by eapply list_elem_of_lookup_2. }
      rewrite <- Hk'.
      destruct (Hgrows j' e' He') as (e'' & He'' & Hm'' & _).
      rewrite <- Hm''. eapply Hfirst; [|done].
      apply lookup_lt_Some in He'. lia.
Qed.

(** * Further properties: theorems *)

(** ** Rendering *)

(** X1.  [dropUndefined] returns an object without undefined values, with
    exactly the defined values of its argument ([null] included) under the
    same keys; applying it twice changes nothing more; and the result is empty
    exactly when the argument has no defined value. *)
Theorem dropUndefined_defined (x : gmap string JsValue) :
  (∀ k, dropUndefined x !! k ≠ Some VUndefined)
  ∧ (∀ k v, v ≠ VUndefined → dropUndefined x !! k = Some v ↔ x !! k = Some v)
  ∧ dropUndefined (dropUndefined x) = dropUndefined x
  ∧ (dropUndefined x = ∅ ↔ ∀ k, x !! k = None ∨ x !! k = Some VUndefined).
Proof.
  split_and!.
  - intros k. rewrite lookup_dropUndefined_dropU. by destruct (x !! k) as [[]|].
  - intros k v Hv. rewrite lookup_dropUndefined_dropU.
    destruct (x !! k) as [[]|]; simpl; split; congruence.
  - apply map_eq. intros k. rewrite !lookup_dropUndefined_dropU.
    by destruct (x !! k) as [[]|].
  - split.
    + intros Hempty k. pose proof (lookup_dropUndefined_dropU x k) as Hk.
      rewrite Hempty, lookup_empty in Hk. destruct (x !! k) as [[]|]; auto; done.
    + intros Hall. apply map_eq. intros k.
      rewrite lookup_dropUndefined_dropU, lookup_empty.
      by destruct (Hall k) as [-> | ->].
Qed.

(** X2.  [metricGraphJson] throws exactly when the metric produces both or
    neither of [metricStat] and [mathExpression], with the message of
    [dispatchMetric] for that case; the tag and the identifier play no part. *)
Theorem metricGraphJson_throws (metric : IMetric) (yAxis id : option string) :
  (∀ msg, metricGraphJson metric yAxis id = Throw msg ↔
          (is_Some (metricStat metric) ∧ is_Some (mathExpression metric)
           ∧ msg = err_both)
          ∨ (metricStat metric = None ∧ mathExpression metric = None
             ∧ msg = err_neither))
  ∧ (is_Some (metricGraphJson_row metric yAxis id) ↔ oneVariant metric = true).
Proof.
  unfold metricGraphJson_row, metricGraphJson, dispatchMetric, oneVariant.
  destruct (metricStat metric) as [stat|], (mathExpression metric) as [expr|]; simpl.
  - split.
    + intros msg. split.
      * intros [= <-]. left. by split_and!.
      * by intros [(_ & _ & ->)|(? & _)].
    + split; [by intros [? ?] | done].
  - split.
    + intros msg. split; [done|]. by intros [(_ & [? ?] & _)|(? & _)].
    + split; [done | by eexists].
  - split.
    + intros msg. split; [done|]. by intros [([? ?] & _)|(_ & ? & _)].
    + split; [done | by eexists].
  - split.
    + intros msg. split.
      * intros [= <-]. right. by split_and!.
      * by intros [([? ?] & _)|(_ & _ & ->)].
    + split; [by intros [? ?] | done].
Qed.

(** X3.  The row of a stat ref is its namespace, its metric name and the name
    and value of each dimension in order, followed by at most one options
    object, which is then not empty and holds no undefined value.  No options
    object is rendered exactly when the tag is "left", there is no identifier,
    the stat ref has no account and no region, its period, if any, is 300
    seconds, its statistic, if any, is empty or "Average", and no rendering
    property has a defined value. *)
Theorem stat_row (metric : IMetric) (st : MetricStatConfig) (yAxis id : option string) :
  metricStat metric = Some st → mathExpression metric = None →
  ∃ row, metricGraphJson metric yAxis id = Ok row
    ∧ (row = statTokens st
       ∨ ∃ o, o ≠ ∅ ∧ (∀ k, o !! k ≠ Some VUndefined) ∧ row = statTokens st ++ [TOpts o])
    ∧ length (statTokens st) = 2 + 2 * length (default [] (dimensions st))
    ∧ (row = statTokens st ↔
         plain st yAxis id ∧ ∀ k, dropU (renderingProperties metric !! k) = None).
Proof.
  intros Hst He. rewrite (metricGraphJson_stat_row metric st) by done.
  eexists. split; [reflexivity|]. cbv zeta.
  set (F := setIf _ _ _ _).
  assert (dropUndefined F = ∅
          ↔ plain st yAxis id ∧ ∀ k, dropU (renderingProperties metric !! k) = None)
    as Hempty.
  { rewrite dropUndefined_empty_iff. split.
    - intros Hall.
      destruct (plain_dec st yAxis id) as [Hp|Hp].
      + split; [done|]. intros k.
        rewrite <- (plain_final_lookup metric st yAxis id k Hst He Hp); [apply Hall|].
        specialize (Hall "expression"). unfold F in Hall.
        rewrite final_lookup in Hall. revert Hall. bd_strings.
        rewrite !andb_false_r. rewrite (statOptions_lookup_stat metric st) by done.
        bd_strings. simpl. rewrite ?andb_false_r. done.
      + destruct (not_plain_final_defined metric st yAxis id Hst He Hp) as [k Hk].
        by specialize (Hall k).
    - intros [Hp Hall] k. unfold F.
      rewrite (plain_final_lookup metric st yAxis id k Hst He Hp); [apply Hall|].
      apply Hall. }
  split_and!.
  - destruct (decide (dropUndefined F = ∅)) as [Ho|Ho]; [by left|right].
    exists (dropUndefined F). split_and!; [done| |done].
    intros k. rewrite lookup_dropUndefined_dropU. by destruct (F !! k) as [[]|].
  - apply statTokens_length.
  - rewrite <- Hempty. destruct (decide (dropUndefined F = ∅)) as [Ho|Ho]; [done|].
    split; [|done]. intros Heq. apply (f_equal length) in Heq.
    rewrite length_app in Heq. simpl in Heq. lia.
Qed.

Lemma stat_row_witness :
  ∃ row, metricGraphJson cpu (Some "left") None = Ok row
    ∧ row = [TStr "AWS/EC2"; TStr "CPUUtilization"; TStr "InstanceId"; TStr "i-1"].
Proof.
  destruct (stat_row cpu
              {| namespace := "AWS/EC2"; metricName := "CPUUtilization";
                 dimensions := Some [{| name := "InstanceId"; value := "i-1" |}];
                 statistic := Some "Average"; period := Some {| toSeconds := 300 |};
                 region := None; account := None |}
              (Some "left") None eq_refl eq_refl) as (row & Hrow & _ & _ & Hplain).
  exists row. split; [exact Hrow|].
  apply Hplain. split.
  - unfold plain. simpl. split_and!; try reflexivity.
    + intros p [= <-]. reflexivity.
    + intros s [= <-] _. reflexivity.
  - intros k. simpl. rewrite lookup_empty. reflexivity.
Defined.

(** X4.  The row of a math expression is exactly one options object.  It
    holds the expression under [expression].  Its [label] is the metric's
    [toString()] exactly when the row has a non-empty tag, the rendering
    properties do not set [visible] to [false], the expression is not the
    empty string and the rendering properties have no truthy [label];
    otherwise it is the label of the rendering properties, if defined. *)
Theorem expression_row (metric : IMetric) (ex : MetricExpressionConfig IMetric)
    (yAxis id : option string) :
  metricStat metric = None → mathExpression metric = Some ex →
  ∃ o, metricGraphJson metric yAxis id = Ok [TOpts o]
    ∧ o !! "expression" = Some (VStr (expression ex))
    ∧ o !! "label"
      = if truthyO yAxis
           && negb (bool_decide (renderingProperties metric !! "visible"
                                 = Some (VBool false)))
           && truthy (expression ex)
           && negb (truthyKey (renderingProperties metric) "label")
        then Some (VStr (toString metric))
        else dropU (renderingProperties metric !! "label").
Proof.
  intros Hst He. rewrite (metricGraphJson_expr_row metric ex) by done. cbv zeta.
  set (F := setIf _ _ _ _).
  assert (dropUndefined F !! "expression" = Some (VStr (expression ex))) as Hexpr.
  { rewrite lookup_dropUndefined_dropU. unfold F.
    rewrite final_lookup, (statOptions_lookup_expr metric ex) by done.
    bd_strings. by rewrite !andb_false_r. }
  exists (dropUndefined F). split_and!.
  - destruct (decide (dropUndefined F = ∅)) as [Ho|Ho]; [|done].
    by rewrite Ho, lookup_empty in Hexpr.
  - exact Hexpr.
  - rewrite lookup_dropUndefined_dropU. unfold F.
    rewrite final_lookup, (statOptions_lookup_expr metric ex) by done.
    rewrite (labelCond_expr metric ex) by done.
    bd_strings. rewrite !andb_false_r, andb_true_r.
    by destruct (_ && _).
Qed.

Lemma expression_row_witness :
  ∃ o, metricGraphJson cpuDouble (Some "left") None = Ok [TOpts o]
       ∧ o !! "label" = Some (VStr "m1 * 2").
Proof.
  destruct (expression_row cpuDouble
              {| expression := "m1 * 2"; usingMetrics := [("m1", cpuLabelled)] |}
              (Some "left") None eq_refl eq_refl) as (o & Hrow & _ & Hlabel).
  exists o. split; [exact Hrow|]. rewrite Hlabel. reflexivity.
Defined.

(** X5.  In any rendered row, a rendering property whose key is none of the
    keys the renderer writes is passed through when its value is defined; a
    non-empty identifier is rendered under [id] and otherwise the rendering
    property [id] is kept; the account and the region of a stat ref are
    rendered under [accountId] and [region] when they are non-empty, and
    otherwise the rendering properties of those names are kept. *)
Theorem options_pass_through (metric : IMetric) (yAxis id : option string)
    (row : list Token) :
  metricGraphJson metric yAxis id = Ok row →
  (∀ k, k ∉ reserved →
        row_options row !! k = dropU (renderingProperties metric !! k))
  ∧ (∀ i, id = Some i → truthy i = true → row_options row !! "id" = Some (VStr i))
  ∧ (truthyO id = false →
       row_options row !! "id" = dropU (renderingProperties metric !! "id"))
  ∧ (∀ st, metricStat metric = Some st →
       row_options row !! "accountId"
       = (if truthyO (account st) then Some (optV (account st))
          else dropU (renderingProperties metric !! "accountId"))
       ∧ row_options row !! "region"
         = (if truthyO (region st) then Some (optV (region st))
            else dropU (renderingProperties metric !! "region"))).
Proof.
  intros Hrow.
  assert (oneVariant metric = true) as Hone.
  { revert Hrow. unfold metricGraphJson, dispatchMetric, oneVariant.
    by destruct (metricStat metric), (mathExpression metric). }
  rewrite (row_options_final metric yAxis id row Hone Hrow).
  split_and!.
  - intros k Hk. by rewrite lookup_dropUndefined_dropU, final_lookup_other.
  - intros i -> Hi. rewrite lookup_dropUndefined_dropU, final_lookup.
    bd_strings. simpl. rewrite Hi. by rewrite andb_false_r.
  - intros Hid. rewrite lookup_dropUndefined_dropU, final_lookup, Hid.
    bd_strings. rewrite !andb_false_r. simpl. f_equal.
    unfold oneVariant in Hone.
    destruct (metricStat metric) as [st|] eqn:Hst,
             (mathExpression metric) as [ex|] eqn:He; try done.
    + rewrite (statOptions_lookup_stat metric st) by done. by bd_strings.
    + rewrite (statOptions_lookup_expr metric ex) by done. by bd_strings.
  - intros st Hst.
    assert (mathExpression metric = None) as He.
    { revert Hone. unfold oneVariant. rewrite Hst. by destruct (mathExpression metric). }
    rewrite !lookup_dropUndefined_dropU, !final_lookup.
    rewrite !(statOptions_lookup_stat metric st) by done.
    bd_strings. rewrite !andb_false_r. simpl.
    split.
    + destruct (truthyO (account st)) eqn:Hacc; [|done].
      by destruct (truthyO_optV _ Hacc) as [t ->].
    + destruct (truthyO (region st)) eqn:Hreg; [|done].
      by destruct (truthyO_optV _ Hreg) as [t ->].
Qed.

Lemma options_pass_through_witness :
  ∃ row, metricGraphJson netSum (Some "right") (Some "m1") = Ok row
    ∧ row_options row !! "id" = Some (VStr "m1")
    ∧ row_options row !! "label" = Some (VStr "Network").
Proof.
  eexists. split; [reflexivity|].
  destruct (options_pass_through netSum (Some "right") (Some "m1") _ eq_refl)
    as (_ & Hid & _).
  split; [by apply Hid|]. vm_compute. reflexivity.
Defined.

(** ** Validation *)

(** X6.  [validateNoIdConflicts] returns normally exactly when every metric of
    the tree produces one of [metricStat] and [mathExpression] and no
    identifier is bound to two metrics with different structural keys.  What
    it throws is one of the two errors of [dispatchMetric] or the conflict
    message for an identifier and two metrics bound to it in the tree with
    different keys. *)
Theorem validateNoIdConflicts_returns (expression : IMetric) :
  (validateNoIdConflicts expression = Ok ()
   ↔ wf expression = true ∧ ¬ conflict expression)
  ∧ (∀ msg, validateNoIdConflicts expression = Throw msg →
       msg = err_both ∨ msg = err_neither
       ∨ ∃ id a b, msg = err_conflict id a b
                   ∧ (id, a) ∈ bindings expression ∧ (id, b) ∈ bindings expression
                   ∧ metricKey a ≠ metricKey b).
Proof.
  unfold validateNoIdConflicts.
  pose proof (visit_cases expression ∅) as Hcases.
  split.
  - split.
    + intros Hok.
      destruct (visit expression ∅) as [seen|msg] eqn:Hvisit; [|done].
      destruct Hcases as [Hwf _]. split; [done|].
      rewrite (visit_bindings _ _ Hwf) in Hvisit.
      pose proof (check_loop (bindings expression) ∅) as Hloop.
      rewrite Hvisit in Hloop.
      intros (id & a & b & Ha & Hb & Hne). apply Hne. eapply Hloop; [done|by right].
    + intros [Hwf Hnc]. rewrite (visit_bindings _ _ Hwf).
      pose proof (check_loop (bindings expression) ∅) as Hloop.
      destruct (forM check (bindings expression) ∅) as [seen|msg]; [done|].
      destruct Hloop as (id & a & b & _ & Ha & [Hb|Hb] & Hne);
        [by rewrite lookup_empty in Hb|].
      exfalso. apply Hnc. by exists id, b, a.
  - intros msg Hthrow.
    destruct (visit expression ∅) as [seen|msg']; [done|].
    injection Hthrow as ->.
    destruct Hcases as [->|[->|(id & a & b & -> & Ha & [Hb|Hb] & Hne)]];
      [by left | by right; left | by rewrite lookup_empty in Hb |].
    right. right. exists id, a, b. split_and!; [done..|]. congruence.
Qed.

(** ** Registration *)

(** X7.  A sequence of [addTopLevel] calls on a new set completes exactly when
    every non-empty identifier of the expression trees passed to it is bound,
    in all of them together, to metrics of one structural key; and the only
    error it throws is that of the cross-check in [addOne]. *)
Theorem addTopLevels_completes (cs : list (string * list IMetric)) :
  ((∃ s, addTopLevels cs newMetricSet = Ok s) ↔ unambiguous cs)
  ∧ (∀ msg, addTopLevels cs newMetricSet = Throw msg → msg = err_cant_happen).
Proof.
  rewrite addTopLevels_calls, unambiguous_consistentT. split.
  - split.
    + intros [s Hs]. by eapply run_consistentT.
    + apply run_completesT.
  - apply run_Throw.
Qed.

(** X8.  After a sequence of [addTopLevel] calls on a new set, every entry
    holds a metric that was passed to one of the calls or is bound in one of
    the expression trees passed; an entry's identifier is a non-empty
    identifier bound in those trees to a metric with the key of the entry;
    and an entry's tag is the non-empty tag of a call that was given a metric
    with the key of the entry. *)
Theorem entries_provenance (cs : list (string * list IMetric)) (s : MetricSet) :
  addTopLevels cs newMetricSet = Ok s →
  ∀ j e, entries s !! j = Some e →
    (e_metric e ∈ flat_map snd cs ∨ ∃ i, (i, e_metric e) ∈ allBindings cs)
    ∧ (∀ i, e_id e = Some i →
         truthy i = true
         ∧ ∃ a, (i, a) ∈ allBindings cs ∧ metricKey a = metricKey (e_metric e))
    ∧ (∀ t, e_tag e = Some t →
         truthy t = true
         ∧ ∃ ms m, (t, ms) ∈ cs ∧ m ∈ ms ∧ metricKey m = metricKey (e_metric e)).
Proof.
  rewrite addTopLevels_calls. intros Hrun j e He.
  destruct (run_from_calls (allCalls cs) (allCalls cs) _ _ inv_new
              (λ x H, H) (from_calls_new _) Hrun j e He) as (Hm & Hi & Ht).
  split_and!.
  - destruct Hm as (c & Hc & <-).
    apply elem_of_allCalls_cases in Hc
      as [(t & ms & Ht' & Hms & _)|(i & Hb & _)]; [left|right; by exists i].
    apply elem_of_flat_map. by exists (t, ms).
  - intros i Hid. destruct (Hi i Hid) as (Htr & c & Hc & Hcid & Hk).
    split; [done|]. exists (c_metric c). split; [|done].
    by apply elem_of_allCalls.
  - intros t Htag. destruct (Ht t Htag) as (Htr & c & Hc & Hctag & Hk).
    split; [done|].
    apply elem_of_allCalls_cases in Hc
      as [(t' & ms & Ht' & Hms & Htag' & _)|(i & _ & Htag' & _)]; [|congruence].
    exists ms, (c_metric c). split_and!; [|done..]. congruence.
Qed.

Lemma entries_provenance_witness :
  ∃ s e, addTopLevels [("left", [cpuDouble])] newMetricSet = Ok s
    ∧ entries s !! 1 = Some e
    ∧ (e_metric e ∈ flat_map snd [("left", [cpuDouble])]
       ∨ ∃ i, (i, e_metric e) ∈ allBindings [("left", [cpuDouble])])
    ∧ (∀ i, e_id e = Some i →
         truthy i = true
         ∧ ∃ a, (i, a) ∈ allBindings [("left", [cpuDouble])]
                ∧ metricKey a = metricKey (e_metric e)).
Proof.
  destruct (entries_provenance [("left", [cpuDouble])] _ eq_refl 1 _ eq_refl)
    as (Hm & Hi & _).
  eexists _, _. split_and!; [reflexivity | reflexivity | exact Hm | exact Hi].
Defined.

(** X9.  After a sequence of [addTopLevel] calls on a new set, every metric
    passed to a call has an entry with its structural key, and that entry has
    a tag if the call's tag is not empty; every metric bound to an identifier
    in the trees passed has an entry with its structural key that carries the
    identifier, if the identifier is not empty. *)
Theorem entries_cover (cs : list (string * list IMetric)) (s : MetricSet) :
  addTopLevels cs newMetricSet = Ok s →
  (∀ t ms m, (t, ms) ∈ cs → m ∈ ms →
     ∃ j e, entries s !! j = Some e ∧ metricKey (e_metric e) = metricKey m
            ∧ (truthy t = true → truthyO (e_tag e) = true))
  ∧ (∀ i a, (i, a) ∈ allBindings cs →
       ∃ j e, entries s !! j = Some e ∧ metricKey (e_metric e) = metricKey a
              ∧ (truthy i = true → e_id e = Some i)).
Proof.
  rewrite addTopLevels_calls. intros Hrun. split.
  - intros t ms m Ht Hm.
    destruct (run_post {| c_metric := m; c_tag := Some t; c_id := None |}
                (allCalls cs) _ _ inv_new Hrun) as (j & e & He & Hk & _ & Htag).
    { apply elem_of_allCalls_cases. left. by exists t, ms. }
    by exists j, e.
  - intros i a Hb.
    destruct (run_post {| c_metric := a; c_tag := None; c_id := Some i |}
                (allCalls cs) _ _ inv_new Hrun) as (j & e & He & Hk & Hid & _).
    { by apply elem_of_allBindings. }
    by exists j, e.
Qed.

Lemma entries_cover_witness :
  ∃ s, addTopLevels [("left", [cpuDouble])] newMetricSet = Ok s
       ∧ ∃ j e, entries s !! j = Some e
                ∧ metricKey (e_metric e) = metricKey cpuLabelled
                ∧ e_id e = Some "m1".
Proof.
  eexists. split; [vm_compute; reflexivity|].
  destruct (entries_cover [("left", [cpuDouble])] _ eq_refl) as [_ Hb].
  destruct (Hb "m1" cpuLabelled) as (j & e & He & Hk & Hid).
  { vm_compute. left. }
  exists j, e. split_and!; [exact He|exact Hk|by apply Hid].
Defined.

(** X10.  After a sequence of [addTopLevel] calls on a new set, two entries at
    different positions whose metrics have the same structural key both carry
    an identifier, and the two identifiers are different and not empty. *)
Theorem same_key_entries (cs : list (string * list IMetric)) (s : MetricSet) :
  addTopLevels cs newMetricSet = Ok s →
  ∀ j k e e', j ≠ k →
    entries s !! j = Some e → entries s !! k = Some e' →
    metricKey (e_metric e) = metricKey (e_metric e') →
    ∃ i i', e_id e = Some i ∧ e_id e' = Some i' ∧ i ≠ i'
            ∧ truthy i = true ∧ truthy i' = true.
Proof.
  rewrite addTopLevels_calls. intros Hrun.
  destruct (run_inv_key _ _ _ inv_new inv_key_new Hrun) as [Hinv Hkey].
  pose proof (run_inv_dup _ _ _ inv_new inv_dup_new Hrun) as Hdup.
  assert (∀ j k e e', j ≠ k →
            metrics s !! j = Some e → metrics s !! k = Some e' →
            metricKey (e_metric e) = metricKey (e_metric e') →
            truthyO (e_id e) = true) as Hboth.
  { intros j k e e' Hjk He He' Hk.
    destruct (decide (metricByKey s !! metricKey (e_metric e) = Some j)) as [Hidx|Hidx];
      [|by eapply Hdup].
    destruct (e_id e) as [i|] eqn:Hid.
    - by destruct (inv_id s Hinv j e i He Hid) as [_ ?].
    - exfalso. apply Hjk. symmetry. by eapply (key_alone s Hkey j e Hidx He Hid k e'). }
  intros j k e e' Hjk He He' Hk. unfold entries in *.
  pose proof (Hboth j k e e' Hjk He He' Hk) as Hi.
  pose proof (Hboth k j e' e (not_eq_sym Hjk) He' He (eq_sym Hk)) as Hi'.
  destruct (e_id e) as [i|] eqn:Hid; [|done].
  destruct (e_id e') as [i'|] eqn:Hid'; [|done].
  exists i, i'. split_and!; [done..| |done|done].
  intros <-.
  destruct (inv_id s Hinv j e i He Hid) as [Hby _].
  destruct (inv_id s Hinv k e' i He' Hid') as [Hby' _].
  congruence.
Qed.

Lemma same_key_entries_witness :
  ∃ s e e', addTopLevels [("left", [cpuTwice])] newMetricSet = Ok s
    ∧ entries s !! 1 = Some e ∧ entries s !! 2 = Some e'
    ∧ ∃ i i', e_id e = Some i ∧ e_id e' = Some i' ∧ i ≠ i'
              ∧ truthy i = true ∧ truthy i' = true.
Proof.
  eexists _, _, _. split_and!; [reflexivity | reflexivity | reflexivity |].
  apply (same_key_entries [("left", [cpuTwice])] _ eq_refl 1 2);
    [lia | reflexivity | reflexivity | vm_compute; reflexivity].
Defined.

(** ** Rendering a set of metrics *)

(** X11.  If every metric passed to [allMetricsGraphJson] is a tree of stat
    refs and expressions whose non-empty identifiers are each bound to
    metrics of one structural key, it returns one row per entry of the set,
    in the order of the entries, each rendered from the entry's metric, tag
    and identifier.  The errors it can throw are the error of the cross-check
    in [addOne] and the two errors of [dispatchMetric]. *)
Theorem allMetricsGraphJson_returns (left right : list IMetric) :
  ((∀ m, m ∈ left ++ right → wf m = true) →
   unambiguous [("left", left); ("right", right)] →
   ∃ s rows,
     addTopLevels [("left", left); ("right", right)] newMetricSet = Ok s
     ∧ allMetricsGraphJson left right = Ok rows
     ∧ length rows = length (entries s)
     ∧ ∀ j e, entries s !! j = Some e →
              ∃ row, rows !! j = Some row
                     ∧ metricGraphJson (e_metric e) (e_tag e) (e_id e) = Ok row)
  ∧ (∀ msg, allMetricsGraphJson left right = Throw msg →
       msg = err_cant_happen ∨ msg = err_both ∨ msg = err_neither).
Proof.
  split; [apply allMetricsGraphJson_Ok|].
  intros msg. rewrite allMetricsGraphJson_addTopLevels, addTopLevels_calls.
  destruct (forM registerCall _ newMetricSet) as [s|msg'] eqn:Hrun; simpl.
  - intros (e & _ & He)%mapM_Throw. right. by eapply metricGraphJson_Throw.
  - intros [= <-]. left. by eapply run_Throw.
Qed.

Lemma allMetricsGraphJson_returns_witness :
  ∃ rows, allMetricsGraphJson [cpuDouble] [net] = Ok rows ∧ length rows = 3.
Proof.
  destruct (allMetricsGraphJson_returns [cpuDouble] [net]) as [Hok _].
  destruct Hok as (s & rows & Hs & Hrows & Hlen & _).
  - intros m Hm. apply elem_of_cons in Hm as [->|Hm]; [reflexivity|].
    apply elem_of_cons in Hm as [->|Hm]; [reflexivity|]. by apply elem_of_nil in Hm.
  - intros i a b Ha Hb _.
    change (allBindings [("left", [cpuDouble]); ("right", [net])])
      with [("m1", cpuLabelled)] in Ha, Hb.
    apply list_elem_of_singleton in Ha, Hb. congruence.
  - exists rows. split; [exact Hrows|]. rewrite Hlen.
    assert (Ok s = addTopLevels [("left", [cpuDouble]); ("right", [net])] newMetricSet)
      as Heq by (symmetry; exact Hs).
    vm_compute in Heq. injection Heq as ->. reflexivity.
Defined.

(** X12.  An expression that passes [validateNoIdConflicts] can be registered
    on a new set under any tag, and [allMetricsGraphJson] renders it, on the
    left axis or on the right one, without throwing. *)
Theorem validated_renders (E : IMetric) (tag : string) :
  validateNoIdConflicts E = Ok () →
  (∃ s, addTopLevel tag [E] newMetricSet = Ok s)
  ∧ (∃ rows, allMetricsGraphJson [E] [] = Ok rows)
  ∧ (∃ rows, allMetricsGraphJson [] [E] = Ok rows).
Proof.
  intros [Hwf Hnc]%validate_Ok_inv.
  assert (∀ cs, flat_map snd cs = [E] → unambiguous cs) as Hun.
  { intros cs Hcs. apply (no_conflict_unambiguous E); [done|].
    intros p. unfold allBindings. rewrite Hcs. simpl. by rewrite app_nil_r. }
  split_and!.
  - destruct (run_completesT (allCalls [(tag, [E])])) as [s Hs].
    { apply unambiguous_consistentT, Hun. reflexivity. }
    exists s. rewrite <- Hs, <- addTopLevels_calls. unfold addTopLevels. simpl.
    by destruct (addTopLevel tag [E] newMetricSet).
  - destruct (allMetricsGraphJson_Ok [E] []) as (s & rows & _ & Hrows & _).
    + intros m Hm. apply list_elem_of_singleton in Hm. by subst.
    + by apply Hun.
    + by exists rows.
  - destruct (allMetricsGraphJson_Ok [] [E]) as (s & rows & _ & Hrows & _).
    + intros m Hm. apply list_elem_of_singleton in Hm. by subst.
    + by apply Hun.
    + by exists rows.
Qed.

Lemma validated_renders_witness :
  (∃ s, addTopLevel "left" [cpuTwice] newMetricSet = Ok s)
  ∧ (∃ rows, allMetricsGraphJson [cpuTwice] [] = Ok rows)
  ∧ (∃ rows, allMetricsGraphJson [] [cpuTwice] = Ok rows).
Proof. apply (validated_renders cpuTwice "left"). vm_compute. reflexivity. Defined.

(** ** Keys and the key cache *)

(** X13.  The key of an expression is strictly longer than the key of each
    metric its identifiers refer to; so an expression and a metric it uses
    never have the same key. *)
Theorem metricKey_operand_shorter (m : IMetric) (e : MetricExpressionConfig IMetric)
    (id : string) (x : IMetric) :
  mathExpression m = Some e → get (usingMetrics e) id = Some x →
  String.length (metricKey x) < String.length (metricKey m)
  ∧ metricKey m ≠ metricKey x.
Proof.
  intros He Hget.
  assert (String.length (metricKey x) < String.length (metricKey m)) as Hlt.
  { rewrite (metricKey_unfold m). unfold keyParts. rewrite He. unfold exprParts.
    rewrite <- app_comm_cons. apply join_length_gt.
    apply elem_of_app. left. apply elem_of_flat_map.
    exists id. split.
    - rewrite sort_Permutation. unfold subKeys.
      rewrite keys_map. apply get_Some_keys. by rewrite Hget.
    - unfold subKeys. rewrite get_map, Hget. simpl. right. by left. }
  split; [done|]. intros Heq. rewrite Heq in Hlt. lia.
Qed.

Lemma metricKey_operand_shorter_witness :
  String.length (metricKey cpu) < String.length (metricKey cpuTimes2)
  ∧ metricKey cpuTimes2 ≠ metricKey cpu.
Proof.
  apply (metricKey_operand_shorter cpuTimes2
           {| expression := "x * 2"; usingMetrics := [("x", cpu)] |} "x" cpu);
    reflexivity.
Defined.

(** X14.  After [metricKey] ran on a metric object, the object's slot holds
    the key returned, and a second call returns the same key and leaves the
    object as it is.  On a newly built object the call fills the slot of every
    object of the tree with the key of that object, leaves the metric the
    object denotes unchanged, and returns its key. *)
Theorem metricKey_cached_again :
  (∀ o, slot (metricKey_cached o).2 = Some (metricKey_cached o).1
        ∧ metricKey_cached (metricKey_cached o).2 = metricKey_cached o)
  ∧ (∀ m, filled (metricKey_cached (fresh m)).2
          ∧ coherent (metricKey_cached (fresh m)).2
          ∧ forget (metricKey_cached (fresh m)).2 = m
          ∧ (metricKey_cached (fresh m)).1 = metricKey m).
Proof.
  split.
  - intros [[k|] st e rp ts]; simpl; [done|]. done.
  - intros m.
    destruct (metricKey_cached_ok (fresh m) (coherent_fresh m)) as (Hk & Hf & Hc).
    rewrite forget_fresh in Hk, Hf. split_and!; [apply filled_fresh|done..].
Qed.

(** ** The metric object of an entry *)

(** X15.  After a sequence of [addTopLevel] calls on a new set, the first
    entry for a structural key holds the metric object of the first
    registration for that key, in the order in which the calls and the
    recursion into the expressions register metrics: a later metric with the
    same key does not replace it. *)
Theorem first_object_kept (cs : list (string * list IMetric)) (s : MetricSet) :
  addTopLevels cs newMetricSet = Ok s →
  ∀ j e, entries s !! j = Some e →
    (∀ j' e', j' < j → entries s !! j' = Some e' →
              metricKey (e_metric e') ≠ metricKey (e_metric e)) →
    ∃ n c, allCalls cs !! n = Some c ∧ c_metric c = e_metric e
           ∧ ∀ n' c', n' < n → allCalls cs !! n' = Some c' →
                      metricKey (c_metric c') ≠ metricKey (e_metric e).
Proof. rewrite addTopLevels_calls. apply run_first. Qed.

Lemma first_object_kept_witness :
  ∃ s e, addTopLevels [("left", [cpu]); ("right", [cpuLabelled])] newMetricSet = Ok s
    ∧ entries s = [e]
    ∧ ∃ n c, allCalls [("left", [cpu]); ("right", [cpuLabelled])] !! n = Some c
             ∧ c_metric c = e_metric e
             ∧ ∀ n' c', n' < n →
                 allCalls [("left", [cpu]); ("right", [cpuLabelled])] !! n' = Some c' →
                 metricKey (c_metric c') ≠ metricKey (e_metric e).
Proof.
  eexists _, _. split_and!; [reflexivity | reflexivity |].
  apply (first_object_kept [("left", [cpu]); ("right", [cpuLabelled])] _ eq_refl 0);
    [reflexivity | intros j' e' Hj'; lia].
Defined.

(** ** Options the renderer writes *)

(** X16.  In any rendered row, each of the options [visible], [yAxis],
    [period] and [stat] holds what the renderer writes under that key when it
    writes it, and otherwise the rendering property of that name, if defined:
    [visible] is [false] without a non-empty tag; [yAxis] is the tag unless
    the tag is "left"; [period] is the number of seconds of a stat ref's
    period other than 300; [stat] is a stat ref's non-empty statistic other
    than "Average". *)
Theorem options_overwrite (metric : IMetric) (yAxis id : option string)
    (row : list Token) :
  metricGraphJson metric yAxis id = Ok row →
  row_options row !! "visible"
  = (if truthyO yAxis then dropU (renderingProperties metric !! "visible")
     else Some (VBool false))
  ∧ row_options row !! "yAxis"
    = (if bool_decide (yAxis = Some "left")
       then dropU (renderingProperties metric !! "yAxis")
       else dropU (Some (optV yAxis)))
  ∧ (∀ st, metricStat metric = Some st →
       row_options row !! "period"
       = match period st with
         | Some p =>
             if bool_decide (toSeconds p = 300%N)
             then dropU (renderingProperties metric !! "period")
             else Some (VNum (Z.of_N (toSeconds p)))
         | None => dropU (renderingProperties metric !! "period")
         end
       ∧ row_options row !! "stat"
         = match statistic st with
           | Some s =>
               if truthy s && negb (bool_decide (s = "Average"))
               then Some (VStr s)
               else dropU (renderingProperties metric !! "stat")
           | None => dropU (renderingProperties metric !! "stat")
           end)
  ∧ (∀ ex, mathExpression metric = Some ex →
       row_options row !! "period" = dropU (renderingProperties metric !! "period")
       ∧ row_options row !! "stat" = dropU (renderingProperties metric !! "stat")).
Proof.
  intros Hrow.
  assert (oneVariant metric = true) as Hone.
  { revert Hrow. unfold metricGraphJson, dispatchMetric, oneVariant.
    by destruct (metricStat metric), (mathExpression metric). }
  rewrite (row_options_final metric yAxis id row Hone Hrow).
  assert (∀ k, k = "visible" ∨ k = "yAxis" ∨ k = "period" ∨ k = "stat" →
            statOptions metric !! k
            = match metricStat metric with
              | Some st =>
                  if bool_decide (k = "stat") && truthyO (statistic st)
                     && negb (bool_decide (statistic st = Some "Average"))
                  then Some (optV (statistic st))
                  else if bool_decide (k = "period")
                          && negb (bool_decide (toSeconds <$> period st = Some 300%N))
                          && bool_decide (is_Some (period st))
                  then Some (VNum (Z.of_N (default 0%N (toSeconds <$> period st))))
                  else renderingProperties metric !! k
              | None => renderingProperties metric !! k
              end) as Hstat.
  { intros k Hk. unfold oneVariant in Hone.
    destruct (metricStat metric) as [st|] eqn:Hst,
             (mathExpression metric) as [ex|] eqn:He; try done.
    - rewrite (statOptions_lookup_stat metric st) by done.
      destruct Hk as [-> | [-> | [-> | ->]]]; bd_strings; by rewrite ?andb_false_r.
    - rewrite (statOptions_lookup_expr metric ex) by done.
      destruct Hk as [-> | [-> | [-> | ->]]]; by bd_strings. }
  split_and!.
  - rewrite lookup_dropUndefined_dropU, final_lookup, Hstat by auto.
    bd_strings. rewrite !andb_false_r, andb_true_r.
    destruct (truthyO yAxis); simpl; [|done].
    by destruct (metricStat metric).
  - rewrite lookup_dropUndefined_dropU, final_lookup, Hstat by auto.
    bd_strings. rewrite !andb_false_r, andb_true_r.
    destruct (decide (yAxis = Some "left")) as [Hy|Hy].
    + rewrite (bool_decide_eq_true_2 _ Hy). simpl. by destruct (metricStat metric).
    + by rewrite (bool_decide_eq_false_2 _ Hy).
  - intros st Hst. split.
    + rewrite lookup_dropUndefined_dropU, final_lookup, Hstat, Hst by auto.
      bd_strings. rewrite !andb_false_r. simpl.
      destruct (period st) as [p|]; simpl; [|done].
      destruct (decide (toSeconds p = 300%N)) as [Hp|Hp].
      * rewrite (bool_decide_eq_true_2 _ Hp).
        by rewrite (bool_decide_eq_true_2 (Some (toSeconds p) = Some 300%N))
          by congruence.
      * rewrite (bool_decide_eq_false_2 _ Hp).
        by rewrite (bool_decide_eq_false_2 (Some (toSeconds p) = Some 300%N))
          by congruence.
    + rewrite lookup_dropUndefined_dropU, final_lookup, Hstat, Hst by auto.
      bd_strings. rewrite !andb_false_r. simpl.
      destruct (statistic st) as [s|]; simpl; [|done].
      destruct (truthy s); simpl; [|done].
      destruct (decide (s = "Average")) as [Hs|Hs].
      * rewrite (bool_decide_eq_true_2 _ Hs).
        by rewrite (bool_decide_eq_true_2 (Some s = Some "Average")) by congruence.
      * rewrite (bool_decide_eq_false_2 _ Hs).
        by rewrite (bool_decide_eq_false_2 (Some s = Some "Average")) by congruence.
  - intros ex He.
    assert (metricStat metric = None) as Hst.
    { revert Hone. unfold oneVariant. rewrite He. by destruct (metricStat metric). }
    split; rewrite lookup_dropUndefined_dropU, final_lookup, Hstat, Hst by auto;
      bd_strings; by rewrite !andb_false_r.
Qed.

Lemma options_overwrite_witness :
  ∃ row, metricGraphJson cpuPeriod60 None None = Ok row
    ∧ row_options row !! "visible" = Some (VBool false)
    ∧ row_options row !! "period" = Some (VNum 60).
Proof.
  eexists. split; [reflexivity|].
  destruct (options_overwrite cpuPeriod60 None None _ eq_refl) as (Hv & _ & Hst & _).
  split; [exact Hv|].
  destruct (Hst _ eq_refl) as [Hp _]. exact Hp.
Defined.
